(** * astro: a shallow embedding of the session runner and its helpers

    The development follows the Go sources:
    - [Utils]    : the cartesian expansion exercised by astro/utils_test.go;
    - [Tvm]      : the zip extraction of the terraform version manager
                   (processFileContents / unzip);
    - [Vars]     : the variable resolver whose effect TestPassVariables observes;
    - [Sessions] : astro/sessions.go, the three runners [plan], [apply] and
                   [applyWithGraph], as goroutine programs over two buffered
                   channels, with an interleaving semantics;
    - [Display]  : astro/cli/astro/cmd/display.go, printExecStatus, the
                   consumer of the two channels;
    - [Repo]     : astro/sessions.go, NewSessionRepo, NewSession and Current;
    - [Tests]    : the helpers testReadResults and testResultErrs of
                   astro/astro_internal_test.go. *)

From Stdlib Require Import String Ascii Bool Arith Lia ZArith List Sorted
  Permutation.
Import ListNotations.
Open Scope string_scope.

(* ===================================================================== *)
(** * Cartesian expansion *)
(* ===================================================================== *)

Module Utils.

(** Go's [interface{}] values that the test feeds to cartesian. *)
Inductive value :=
| VStr (s : string)
| VInt (n : Z).

(** Modelled from the spec: the body of [cartesian] (astro/utils.go) is not
    among the sources, only its test is.  The spec defines it by
    cartesian([]) = [[]] and
    cartesian(xs::rest) = { [x, ...tail] | x in xs, tail in cartesian(rest) },
    emitted with the leftmost list varying slowest. *)
Fixpoint cartesian {A : Type} (params : list (list A)) : list (list A) :=
  match params with
  | [] => [[]]
  | xs :: rest => flat_map (fun x => map (cons x) (cartesian rest)) xs
  end.

(** The positions a tuple was drawn from: one index per candidate list. *)
Definition index_space {A : Type} (params : list (list A)) : list (list nat) :=
  map (fun xs => seq 0 (length xs)) params.

(** [select params idx] reads the tuple found at index vector [idx]. *)
Fixpoint select {A : Type} (params : list (list A)) (idx : list nat) : list A :=
  match params, idx with
  | xs :: rest, i :: idx' =>
      match nth_error xs i with
      | Some x => x :: select rest idx'
      | None => []
      end
  | _, _ => []
  end.

(** Lexicographic order on tuples, first component most significant. *)
Inductive lex {A : Type} (R : A -> A -> Prop) : list A -> list A -> Prop :=
| lex_head a b l m : R a b -> lex R (a :: l) (b :: m)
| lex_tail a l m : lex R l m -> lex R (a :: l) (a :: m).

(** The parameters of TestCartesian and the table it expects. *)
Definition test_params : list (list value) :=
  [ [VStr "a"; VStr "b"; VStr "c"];
    [VInt 1; VInt 2; VInt 3];
    [VStr "x"; VStr "y"] ].

Definition test_expected : list (list value) :=
  [ [VStr "a"; VInt 1; VStr "x"]; [VStr "a"; VInt 1; VStr "y"];
    [VStr "a"; VInt 2; VStr "x"]; [VStr "a"; VInt 2; VStr "y"];
    [VStr "a"; VInt 3; VStr "x"]; [VStr "a"; VInt 3; VStr "y"];
    [VStr "b"; VInt 1; VStr "x"]; [VStr "b"; VInt 1; VStr "y"];
    [VStr "b"; VInt 2; VStr "x"]; [VStr "b"; VInt 2; VStr "y"];
    [VStr "b"; VInt 3; VStr "x"]; [VStr "b"; VInt 3; VStr "y"];
    [VStr "c"; VInt 1; VStr "x"]; [VStr "c"; VInt 1; VStr "y"];
    [VStr "c"; VInt 2; VStr "x"]; [VStr "c"; VInt 2; VStr "y"];
    [VStr "c"; VInt 3; VStr "x"]; [VStr "c"; VInt 3; VStr "y"] ].

Section Order.
Context {A : Type} (R : A -> A -> Prop).

Lemma sorted_app (l m : list A) :
  StronglySorted R l -> StronglySorted R m ->
  (forall a b, In a l -> In b m -> R a b) ->
  StronglySorted R (l ++ m).
Proof.
  induction l as [|x l IH]; simpl; intros Hl Hm Hlm; auto.
  inversion Hl; subst. constructor.
  - apply IH; auto.
  - apply Forall_forall. intros y Hy. apply in_app_or in Hy as [Hy|Hy].
    + rewrite Forall_forall in H2. auto.
    + apply Hlm; auto.
Qed.
End Order.

Lemma sorted_map_cons {A} (R : A -> A -> Prop) (x : A) (ts : list (list A)) :
  StronglySorted (lex R) ts -> StronglySorted (lex R) (map (cons x) ts).
Proof.
  induction 1 as [|t ts Hs IH Hall]; simpl; constructor; auto.
  rewrite Forall_forall in *. intros u Hu.
  apply in_map_iff in Hu as (v & <- & Hv). apply lex_tail. auto.
Qed.

Lemma cartesian_sorted {A} (R : A -> A -> Prop) (params : list (list A)) :
  Forall (StronglySorted R) params ->
  StronglySorted (lex R) (cartesian params).
Proof.
  induction 1 as [|xs rest Hxs Hrest IH]; simpl.
  - repeat constructor.
  - induction Hxs as [|x xs Hs IHs Hall]; simpl.
    + constructor.
    + apply sorted_app; auto.
      * apply sorted_map_cons; exact IH.
      * intros a b Ha Hb.
        apply in_map_iff in Ha as (ta & <- & _).
        apply in_flat_map in Hb as (y & Hy & Hb).
        apply in_map_iff in Hb as (tb & <- & _).
        apply lex_head. rewrite Forall_forall in Hall. auto.
Qed.

Lemma seq_sorted (n s : nat) : StronglySorted lt (seq s n).
Proof.
  revert s. induction n as [|n IH]; intros s; simpl; constructor; auto.
  apply Forall_forall. intros y Hy. apply in_seq in Hy. lia.
Qed.

Lemma flat_map_positions {A B} (f : A -> list B) (g : nat -> list B)
      (xs : list A) (s : nat) :
  (forall i x, nth_error xs i = Some x -> g (s + i) = f x) ->
  flat_map g (seq s (length xs)) = flat_map f xs.
Proof.
  revert s. induction xs as [|x xs IH]; intros s Hg; simpl; auto.
  f_equal.
  - specialize (Hg 0 x eq_refl). rewrite Nat.add_0_r in Hg. exact Hg.
  - apply IH. intros i y Hy. replace (S s + i) with (s + S i) by lia.
    apply Hg. exact Hy.
Qed.

Lemma map_flat_map {A B C} (f : B -> C) (g : A -> list B) (l : list A) :
  map f (flat_map g l) = flat_map (fun x => map f (g x)) l.
Proof.
  induction l as [|x l IH]; simpl; auto. rewrite map_app, IH. reflexivity.
Qed.

Lemma cartesian_select {A} (params : list (list A)) :
  cartesian params = map (select params) (cartesian (index_space params)).
Proof.
  induction params as [|xs rest IH]; auto.
  cbn [cartesian index_space map]. fold (index_space rest).
  rewrite map_flat_map.
  symmetry. apply (flat_map_positions _ _ xs 0).
  intros i x Hx. rewrite map_map. cbn [select Nat.add]. rewrite Hx.
  rewrite IH, map_map. reflexivity.
Qed.

(** C2. cartesian on xs=[a,b,c], ys=[1,2,3], zs=[x,y] yields exactly the 18
    tuples (a,1,x),(a,1,y),(a,2,x),...,(c,3,y) in that order, and for every
    list of candidate lists the emission order is lexicographic in
    declaration order: the tuples are read at index vectors that increase
    strictly in the lexicographic order whose leftmost index is the most
    significant. *)
Theorem cartesian_lexicographic :
  cartesian test_params = test_expected /\
  length (cartesian test_params) = 18 /\
  forall (A : Type) (params : list (list A)),
    cartesian params = map (select params) (cartesian (index_space params)) /\
    StronglySorted (lex lt) (cartesian (index_space params)).
Proof.
  split; [reflexivity|]. split; [reflexivity|].
  intros A params. split.
  - apply cartesian_select.
  - apply cartesian_sorted. unfold index_space.
    apply Forall_forall. intros l Hl.
    apply in_map_iff in Hl as (xs & <- & _). apply seq_sorted.
Qed.

End Utils.

(* ===================================================================== *)
(** * Zip extraction (package tvm) *)
(* ===================================================================== *)

Module Tvm.

Definition error := string.

(** ** Go's strings and path/filepath, Unix flavour

    These are the standard-library functions [processFileContents] calls;
    they are written out following their documented, purely lexical rules. *)

(** strings.HasPrefix(s, prefix) *)
Fixpoint HasPrefix (s pre : string) {struct pre} : bool :=
  match pre, s with
  | EmptyString, _ => true
  | String _ _, EmptyString => false
  | String a pre', String b s' => Ascii.eqb a b && HasPrefix s' pre'
  end.

Definition PathSeparator : ascii := "/"%char.

(** strings.Split(s, "/") *)
Fixpoint split_sep (s : string) : list string :=
  match s with
  | EmptyString => [EmptyString]
  | String c s' =>
      if Ascii.eqb c PathSeparator then EmptyString :: split_sep s'
      else match split_sep s' with
           | e :: es => String c e :: es
           | [] => [String c EmptyString]
           end
  end.

(** One round of the loop of filepath.Clean: [stack] holds the elements
    written so far, the last one first.  An empty element and [.] are
    dropped; [..] removes the element before it when that is a name, is kept
    when the path is relative and nothing can be removed, and is dropped at
    the root; any other element is appended. *)
Definition clean_step (rooted : bool) (stack : list string) (e : string)
  : list string :=
  if (e =? "") || (e =? ".") then stack
  else if e =? ".." then
    match stack with
    | top :: below => if top =? ".." then e :: stack else below
    | [] => if rooted then [] else [e]
    end
  else e :: stack.

Definition is_rooted (path : string) : bool := HasPrefix path "/".

(** The elements of the cleaned path, in order. *)
Definition elements (path : string) : list string :=
  rev (fold_left (clean_step (is_rooted path)) (split_sep path) []).

Definition render (rooted : bool) (els : list string) : string :=
  if rooted then "/" ++ String.concat "/" els
  else match els with
       | [] => "."
       | _ => String.concat "/" els
       end.

(** filepath.Clean *)
Definition Clean (path : string) : string :=
  render (is_rooted path) (elements path).

(** path[:i+1] for the last separator index i (empty when there is none). *)
Fixpoint dir_part (path : string) : string :=
  match path with
  | EmptyString => EmptyString
  | String c rest =>
      let d := dir_part rest in
      if Ascii.eqb c PathSeparator || negb (d =? "") then String c d
      else EmptyString
  end.

(** filepath.Dir *)
Definition Dir (path : string) : string := Clean (dir_part path).

(** filepath.Join of two elements: empty leading elements are ignored, the
    rest is joined by the separator and cleaned. *)
Definition Join (a b : string) : string :=
  if a =? "" then (if b =? "" then "" else Clean b)
  else Clean (a ++ "/" ++ b).

(** ** The archive and the file system *)

(** A zip.File: its name, whether FileInfo().IsDir() holds, its bytes and
    the error (if any) [Open] answers with. *)
Record File := {
  Name : string;
  IsDir : bool;
  Content : string;
  OpenErr : option error
}.

(** What the operating system answers to the calls of processFileContents.
    [CopyErr path content] is the error of io.Copy(out, fh) for the file at
    [path] and an entry of bytes [content]: when it is not nil, the bytes may
    have arrived only in part. *)
Record OS := {
  MkdirAllErr : string -> option error;
  OpenFileErr : string -> option error;
  CopyErr : string -> string -> option error;
  CloseErr : string -> option error
}.

(** The calls that reach the file system, in the order they are made.
    [Copy path content] is the call io.Copy(out, fh) on the file opened at
    [path], for an entry whose bytes are [content]; what the call answered is
    [CopyErr]. *)
Inductive effect :=
| MkdirAll (path : string)
| OpenFile (path : string)                 (* O_WRONLY|O_CREATE|O_TRUNC *)
| Copy (path : string) (content : string). (* io.Copy(out, fh) *)

Definition illegal_path (path : string) : error :=
  "illegal file path in zip: " ++ path.

(** processFileContents: the effects it performs and the error it returns. *)
Definition processFileContents (os : OS) (f : File) (destDir : string)
  : list effect * option error :=
  match OpenErr f with
  | Some err => ([], Some err)
  | None =>
      let path := Join destDir (Name f) in
      if negb (HasPrefix path (Clean destDir ++ String PathSeparator ""))
      then ([], Some (illegal_path path))
      else if IsDir f then
        match MkdirAllErr os path with
        | Some err => ([MkdirAll path], Some err)
        | None => ([MkdirAll path], None)
        end
      else
        match MkdirAllErr os (Dir path) with
        | Some err => ([MkdirAll (Dir path)], Some err)
        | None =>
            match OpenFileErr os path with
            | Some err => ([MkdirAll (Dir path); OpenFile path], Some err)
            | None =>
                (* _, err = io.Copy(out, fh): overwritten on the next line *)
                let err := CopyErr os path (Content f) in
                (* err = out.Close() *)
                let err := CloseErr os path in
                ([MkdirAll (Dir path); OpenFile path; Copy path (Content f)],
                 err)
            end
        end
  end.

(** unzip, after zip.OpenReader succeeded with the entries [files]: the
    entries are processed in order and the first error stops the loop. *)
Fixpoint unzip_files (os : OS) (files : list File) (destDir : string)
  : list effect * option error :=
  match files with
  | [] => ([], None)
  | f :: rest =>
      match processFileContents os f destDir with
      | (effs, Some err) => (effs, Some err)
      | (effs, None) =>
          let '(effs', r) := unzip_files os rest destDir in
          ((effs ++ effs')%list, r)
      end
  end.

(** unzip: [archive] is what zip.OpenReader(zipfilePath) answers. *)
Definition unzip (os : OS) (archive : error + list File) (destDir : string)
  : list effect * option error :=
  match archive with
  | inl err => ([], Some err)
  | inr files => unzip_files os files destDir
  end.

(** An entry stays within the destination when the elements of its cleaned
    path are those of the cleaned destination followed by at least one more
    element, none of which is [..]. *)
Fixpoint strip_prefix (pre l : list string) : option (list string) :=
  match pre, l with
  | [], _ => Some l
  | p :: pre', x :: l' => if p =? x then strip_prefix pre' l' else None
  | _ :: _, [] => None
  end.

Definition within (destDir path : string) : bool :=
  Bool.eqb (is_rooted destDir) (is_rooted path) &&
  match strip_prefix (elements destDir) (elements path) with
  | Some (r :: rest) => forallb (fun e => negb (e =? "..")) (r :: rest)
  | _ => false
  end.

(** A destination whose cleaned form is made of [..] elements only. *)
Definition only_parent_refs (destDir : string) : bool :=
  match elements destDir with
  | [] => false
  | els => forallb (fun e => e =? "..") els
  end.

Definition healthy : OS :=
  {| MkdirAllErr := fun _ => None; OpenFileErr := fun _ => None;
     CopyErr := fun _ _ => None; CloseErr := fun _ => None |}.

Definition readme : File :=
  {| Name := "README.txt"; IsDir := false;
     Content := "This is a zip file for testing."; OpenErr := None |}.
Definition naughty : File :=
  {| Name := "../naughty.txt"; IsDir := false;
     Content := "This file should never be extracted."; OpenErr := None |}.

(** ** Strings and separators *)

Fixpoint has_sep (s : string) : bool :=
  match s with
  | EmptyString => false
  | String c s' => Ascii.eqb c PathSeparator || has_sep s'
  end.

(** What every element of a cleaned path is: non-empty, free of separators
    and different from [.]. *)
Definition elt (e : string) : Prop :=
  e <> "" /\ e <> "." /\ has_sep e = false.

(** A name is an element other than [..]. *)
Definition is_name (e : string) : Prop := elt e /\ e <> "..".

Local Arguments Ascii.eqb : simpl never.

Lemma sep_not_free (s : string) : has_sep (String "/" s) = false -> False.
Proof.
  cbn [has_sep]. unfold PathSeparator. rewrite Ascii.eqb_refl. discriminate.
Qed.

Lemma HasPrefix_app (a s t : string) :
  HasPrefix (a ++ s) (a ++ t) = HasPrefix s t.
Proof.
  induction a as [|c a IH]; simpl; auto. rewrite Ascii.eqb_refl. exact IH.
Qed.

Lemma HasPrefix_nil_false (t : string) :
  t <> "" -> HasPrefix "" t = false.
Proof. destruct t; simpl; congruence. Qed.

Lemma app_sep_nonempty (e t : string) : e ++ "/" ++ t <> "".
Proof. destruct e; simpl; discriminate. Qed.

Lemma HasPrefix_sep_cut (e p y t : string) :
  has_sep e = false -> has_sep p = false ->
  HasPrefix (p ++ "/" ++ y) (e ++ "/" ++ t) = true ->
  e = p /\ HasPrefix y t = true.
Proof.
  revert p. induction e as [|a e IH]; intros p He Hp H.
  - destruct p as [|b p]; simpl in H.
    + auto.
    + apply andb_true_iff in H as [H _]. apply Ascii.eqb_eq in H. subst b.
      destruct (sep_not_free _ Hp).
  - cbn [has_sep] in He. apply orb_false_iff in He as [Ha He].
    destruct p as [|b p]; simpl in H.
    + apply andb_true_iff in H as [H _]. apply Ascii.eqb_eq in H. subst a.
      unfold PathSeparator in Ha. rewrite Ascii.eqb_refl in Ha. discriminate.
    + cbn [has_sep] in Hp. apply orb_false_iff in Hp as [Hb Hp].
      apply andb_true_iff in H as [Hab H]. apply Ascii.eqb_eq in Hab. subst b.
      destruct (IH p He Hp H) as [-> Hy]. auto.
Qed.

Lemma HasPrefix_sep_absurd (e p t : string) :
  has_sep p = false -> HasPrefix p (e ++ "/" ++ t) = true -> False.
Proof.
  revert p. induction e as [|a e IH]; intros p Hp H.
  - destruct p as [|b p]; simpl in H; try discriminate.
    apply andb_true_iff in H as [H _]. apply Ascii.eqb_eq in H. subst b.
    destruct (sep_not_free _ Hp).
  - destruct p as [|b p]; simpl in H; try discriminate.
    cbn [has_sep] in Hp. apply orb_false_iff in Hp as [_ Hp].
    apply andb_true_iff in H as [_ H]. eauto.
Qed.

Lemma app_assoc_sep (a b c : string) : (a ++ b) ++ c = a ++ b ++ c.
Proof. induction a; simpl; congruence. Qed.

Lemma strip_prefix_app (pre l r : list string) :
  strip_prefix pre l = Some r -> l = (pre ++ r)%list.
Proof.
  revert l. induction pre as [|p pre IH]; intros l H; simpl in *.
  - congruence.
  - destruct l as [|x l]; try discriminate.
    destruct (p =? x) eqn:E; try discriminate.
    apply String.eqb_eq in E. subst x. f_equal. auto.
Qed.

Lemma concat_two (a b : string) (l : list string) :
  String.concat "/" (a :: b :: l) = a ++ "/" ++ String.concat "/" (b :: l).
Proof. reflexivity. Qed.

Lemma concat_one (a : string) : String.concat "/" [a] = a.
Proof. reflexivity. Qed.

(** A separator-terminated rendering that is a prefix of another one is a
    proper prefix element by element. *)
Lemma concat_prefix (D P : list string) :
  D <> [] -> Forall elt D -> Forall elt P ->
  HasPrefix (String.concat "/" P) (String.concat "/" D ++ "/") = true ->
  exists x rest, strip_prefix D P = Some (x :: rest).
Proof.
  revert P. induction D as [|d D IH]; intros P Hne HD HP H; [congruence|].
  inversion HD as [|? ? [_ [_ Hd]] HD']; subst.
  destruct D as [|d2 D].
  - rewrite concat_one in H.
    change (d ++ "/") with (d ++ "/" ++ "") in H.
    destruct P as [|p [|p2 P]].
    + rewrite HasPrefix_nil_false in H; [discriminate|]. apply app_sep_nonempty.
    + inversion HP as [|? ? [_ [_ Hp]] _]; subst. rewrite concat_one in H.
      exfalso. eapply HasPrefix_sep_absurd; eauto.
    + inversion HP as [|? ? [_ [_ Hp]] _]; subst. rewrite concat_two in H.
      apply HasPrefix_sep_cut in H as [-> _]; auto.
      cbn [strip_prefix]. rewrite String.eqb_refl. eauto.
  - rewrite concat_two, !app_assoc_sep in H.
    destruct P as [|p [|p2 P]].
    + rewrite HasPrefix_nil_false in H; [discriminate|]. apply app_sep_nonempty.
    + inversion HP as [|? ? [_ [_ Hp]] _]; subst. rewrite concat_one in H.
      exfalso. eapply HasPrefix_sep_absurd; eauto.
    + inversion HP as [|? ? [_ [_ Hp]] HP']; subst. rewrite concat_two in H.
      apply HasPrefix_sep_cut in H as [-> H]; auto.
      destruct (IH (p2 :: P)) as (x & rest & Hs); auto; try discriminate.
      exists x, rest. cbn [strip_prefix]. rewrite String.eqb_refl. exact Hs.
Qed.

(** ** The shape of a cleaned path *)

Lemma split_sep_free (s : string) :
  Forall (fun e => has_sep e = false) (split_sep s).
Proof.
  induction s as [|c s IH]; cbn [split_sep].
  - repeat constructor.
  - destruct (Ascii.eqb c PathSeparator) eqn:E.
    + constructor; auto.
    + destruct (split_sep s) as [|e es].
      * constructor; auto. cbn [has_sep]. rewrite E. reflexivity.
      * inversion IH; subst. constructor; auto.
        cbn [has_sep]. rewrite E. assumption.
Qed.

(** The stack of the cleaning loop: names on top of a run of [..], which is
    empty when the path is rooted. *)
Definition stack_inv (rooted : bool) (st : list string) : Prop :=
  exists names k,
    st = (names ++ repeat ".." k)%list /\ Forall is_name names /\
    (rooted = true -> k = 0).

Lemma clean_step_inv (rooted : bool) (st : list string) (e : string) :
  has_sep e = false -> stack_inv rooted st ->
  stack_inv rooted (clean_step rooted st e).
Proof.
  intros He (names & k & -> & Hn & Hk). unfold clean_step.
  destruct (String.eqb_spec e ""); [exists names, k; auto|].
  destruct (String.eqb_spec e "."); [exists names, k; auto|].
  cbn [orb]. destruct (String.eqb_spec e "..") as [->|Hdd].
  - destruct names as [|nm names].
    + destruct k as [|k]; cbn [app repeat].
      * destruct rooted; [exists [], 0 | exists [], 1]; repeat split; auto.
        discriminate.
      * rewrite String.eqb_refl. exists [], (S (S k)). repeat split; auto.
        intros Hr. specialize (Hk Hr). discriminate.
    + inversion Hn as [|? ? [_ Hnm] Hn']; subst. cbn [app].
      destruct (String.eqb_spec nm ".."); [contradiction|].
      exists names, k. auto.
  - exists (e :: names), k. repeat split; auto.
    constructor; auto. repeat split; auto.
Qed.

Lemma clean_fold_inv (rooted : bool) (es st : list string) :
  Forall (fun e => has_sep e = false) es -> stack_inv rooted st ->
  stack_inv rooted (fold_left (clean_step rooted) es st).
Proof.
  revert st. induction es as [|e es IH]; intros st Hes Hst; cbn [fold_left]; auto.
  inversion Hes; subst. apply IH; auto. apply clean_step_inv; auto.
Qed.

(** A cleaned path is a run of [..] followed by names, and a rooted one has
    no [..] at all. *)
Definition normal (rooted : bool) (els : list string) : Prop :=
  exists k names,
    els = (repeat ".." k ++ names)%list /\ Forall is_name names /\
    (rooted = true -> k = 0).

Lemma elements_normal (path : string) :
  normal (is_rooted path) (elements path).
Proof.
  unfold elements.
  destruct (clean_fold_inv (is_rooted path) (split_sep path) [])
    as (names & k & E & Hn & Hk).
  - apply split_sep_free.
  - exists [], 0. repeat split; auto.
  - rewrite E, rev_app_distr, rev_repeat. exists k, (rev names).
    repeat split; auto. apply Forall_rev. exact Hn.
Qed.

Lemma dotdot_elt : elt "..".
Proof. repeat split; discriminate. Qed.

Lemma normal_elt (rooted : bool) (els : list string) :
  normal rooted els -> Forall elt els.
Proof.
  intros (k & names & -> & Hn & _). apply Forall_app. split.
  - apply Forall_forall. intros x Hx. apply repeat_spec in Hx. subst.
    apply dotdot_elt.
  - eapply Forall_impl; [|exact Hn]. intros a [Ha _]. exact Ha.
Qed.

(** Once a name was passed, no [..] follows. *)
Lemma normal_tail_names (k : nat) (names D R : list string) (n : string) :
  (repeat ".." k ++ names)%list = (D ++ R)%list ->
  In n D -> n <> ".." ->
  exists names', names = (names' ++ R)%list.
Proof.
  revert D. induction k as [|k IH]; intros D E Hin Hn; cbn [repeat app] in E.
  - exists D. exact E.
  - destruct D as [|d D]; [destruct Hin|]. cbn [app] in E.
    injection E as <- E. destruct Hin as [<-|Hin]; [congruence|].
    eapply IH; eauto.
Qed.

(** ** Rendering and the prefix test *)

Lemma app_empty_r (s : string) : s ++ "" = s.
Proof. induction s; simpl; congruence. Qed.

Lemma concat_head (p : string) (P : list string) :
  exists rest, String.concat "/" (p :: P) = p ++ rest.
Proof.
  destruct P as [|q P].
  - exists "". rewrite concat_one, app_empty_r. reflexivity.
  - eexists. apply concat_two.
Qed.

Lemma elt_head (e : string) :
  elt e -> exists c e', e = String c e' /\ Ascii.eqb c "/" = false.
Proof.
  intros (Hne & _ & Hs). destruct e as [|c e']; [congruence|].
  exists c, e'. split; auto. cbn [has_sep] in Hs.
  apply orb_false_iff in Hs as [Hs _]. exact Hs.
Qed.

Lemma eqb_sym_false (a b : ascii) : Ascii.eqb a b = false -> Ascii.eqb b a = false.
Proof. rewrite !Ascii.eqb_neq. congruence. Qed.

Lemma concat_not_sep (P : list string) (t : string) :
  Forall elt P -> HasPrefix (String.concat "/" P) (String "/" t) = false.
Proof.
  intros HP. destruct P as [|p P]; [reflexivity|].
  inversion HP as [|? ? Hp _]; subst.
  destruct (concat_head p P) as (rest & ->).
  destruct (elt_head p Hp) as (c & e' & -> & Hc).
  cbn [append HasPrefix]. rewrite (eqb_sym_false _ _ Hc). reflexivity.
Qed.

Lemma concat_not_dot_sep (P : list string) :
  Forall elt P -> HasPrefix (String.concat "/" P) "./" = false.
Proof.
  intros HP. destruct P as [|p P]; [reflexivity|].
  inversion HP as [|? ? Hp _]; subst.
  destruct (elt_head p Hp) as (c & e' & -> & Hc).
  destruct Hp as (_ & Hdot & Hs).
  destruct (Ascii.eqb_spec "."%char c) as [<-|Hne].
  - destruct e' as [|c2 e'']; [congruence|].
    destruct (concat_head (String "." (String c2 e'')) P) as (rest & ->).
    cbn [append HasPrefix]. rewrite Ascii.eqb_refl. cbn [andb].
    cbn [has_sep] in Hs. apply orb_false_iff in Hs as [_ Hs].
    apply orb_false_iff in Hs as [Hs _].
    unfold PathSeparator in Hs. rewrite (eqb_sym_false _ _ Hs). reflexivity.
  - destruct (concat_head (String c e') P) as (rest & ->).
    cbn [append HasPrefix].
    apply Ascii.eqb_neq in Hne. rewrite Hne. reflexivity.
Qed.

Lemma render_prefix (r1 r2 : bool) (D P : list string) :
  Forall elt D -> Forall elt P ->
  HasPrefix (render r2 P) (render r1 D ++ "/") = true ->
  r1 = r2 /\ D <> [] /\ exists x rest, strip_prefix D P = Some (x :: rest).
Proof.
  intros HD HP H. unfold render in H. destruct r1.
  - change (("/" ++ String.concat "/" D) ++ "/")
      with (String "/" (String.concat "/" D ++ "/")) in H.
    destruct r2.
    + change ("/" ++ String.concat "/" P)
        with (String "/" (String.concat "/" P)) in H.
      cbn [HasPrefix] in H. rewrite Ascii.eqb_refl in H. cbn [andb] in H.
      destruct D as [|d D].
      * change (String.concat "/" [] ++ "/") with "/" in H.
        rewrite concat_not_sep in H; auto. discriminate.
      * repeat split; try discriminate. apply concat_prefix; auto. discriminate.
    + destruct P as [|p P].
      * discriminate.
      * rewrite concat_not_sep in H; auto. discriminate.
  - destruct D as [|d D].
    + change ("." ++ "/") with "./" in H. destruct r2.
      * discriminate.
      * destruct P as [|p P]; [discriminate|].
        rewrite concat_not_dot_sep in H; auto. discriminate.
    + inversion HD as [|? ? Hd _]; subst.
      destruct r2.
      * exfalso. destruct (concat_head d D) as (rest & E). rewrite E in H.
        destruct (elt_head d Hd) as (c & e' & -> & Hc).
        cbn [append HasPrefix] in H. rewrite Hc in H. discriminate.
      * destruct P as [|p P].
        -- exfalso. destruct (concat_head d D) as (rest & E). rewrite E in H.
           destruct (elt_head d Hd) as (c & e' & -> & Hc).
           cbn [append HasPrefix] in H.
           apply andb_true_iff in H as [_ H].
           destruct ((e' ++ rest) ++ "/") eqn:E2; [|discriminate].
           destruct (e' ++ rest); discriminate.
        -- repeat split; try discriminate. apply concat_prefix; auto. discriminate.
Qed.

(** ** Cleaning a cleaned path changes nothing *)

Lemma split_sep_one (e : string) : has_sep e = false -> split_sep e = [e].
Proof.
  induction e as [|c e IH]; cbn [split_sep has_sep]; auto.
  intros H. apply orb_false_iff in H as [Hc He]. rewrite Hc, (IH He). reflexivity.
Qed.

Lemma split_sep_app (e s : string) :
  has_sep e = false -> split_sep (e ++ "/" ++ s) = e :: split_sep s.
Proof.
  induction e as [|c e IH]; intros H.
  - reflexivity.
  - cbn [has_sep] in H. apply orb_false_iff in H as [Hc He].
    cbn [append split_sep]. rewrite Hc.
    change (e ++ String "/" s) with (e ++ "/" ++ s). rewrite (IH He). reflexivity.
Qed.

Lemma split_concat (els : list string) :
  els <> [] -> Forall elt els -> split_sep (String.concat "/" els) = els.
Proof.
  induction els as [|e els IH]; intros Hne H; [congruence|].
  inversion H as [|? ? (_ & _ & He) H']; subst.
  destruct els as [|e2 els].
  - rewrite concat_one. apply split_sep_one. exact He.
  - rewrite concat_two, split_sep_app by exact He. f_equal.
    apply IH; auto. discriminate.
Qed.

Lemma clean_step_name (rooted : bool) (st : list string) (n : string) :
  is_name n -> clean_step rooted st n = n :: st.
Proof.
  intros ((H1 & H2 & _) & H3). unfold clean_step.
  apply String.eqb_neq in H1, H2, H3. rewrite H1, H2, H3. reflexivity.
Qed.

Lemma fold_names (rooted : bool) (names st : list string) :
  Forall is_name names ->
  fold_left (clean_step rooted) names st = (rev names ++ st)%list.
Proof.
  revert st. induction names as [|n names IH]; intros st H; cbn [fold_left rev].
  - reflexivity.
  - inversion H; subst. rewrite clean_step_name, IH by auto.
    rewrite <- app_assoc. reflexivity.
Qed.

Lemma fold_dotdots (k j : nat) :
  fold_left (clean_step false) (repeat ".." k) (repeat ".." j) = repeat ".." (k + j).
Proof.
  revert j. induction k as [|k IH]; intros j; cbn [repeat fold_left]; auto.
  replace (clean_step false (repeat ".." j) "..") with (repeat ".." (S j)).
  - rewrite IH. f_equal. lia.
  - destruct j; reflexivity.
Qed.

Lemma fold_normal (rooted : bool) (els : list string) :
  normal rooted els ->
  rev (fold_left (clean_step rooted) els []) = els.
Proof.
  intros (k & names & -> & Hn & Hk). rewrite fold_left_app.
  destruct rooted.
  - rewrite (Hk eq_refl). cbn [repeat fold_left app].
    rewrite fold_names, app_nil_r by auto. apply rev_involutive.
  - change (@nil string) with (repeat ".." 0).
    rewrite (fold_dotdots k 0), fold_names by auto.
    rewrite rev_app_distr, rev_involutive, rev_repeat. f_equal. f_equal. lia.
Qed.

Lemma render_rooted (rooted : bool) (els : list string) :
  normal rooted els -> is_rooted (render rooted els) = rooted.
Proof.
  intros Hn. unfold render, is_rooted. destruct rooted; [reflexivity|].
  destruct els as [|e els]; [reflexivity|].
  apply concat_not_sep. eapply normal_elt; eauto.
Qed.

Lemma render_elements (rooted : bool) (els : list string) :
  normal rooted els -> elements (render rooted els) = els.
Proof.
  intros Hn. unfold elements. rewrite render_rooted by auto.
  pose proof (normal_elt _ _ Hn) as He.
  unfold render. destruct rooted.
  - change ("/" ++ String.concat "/" els) with (String "/" (String.concat "/" els)).
    cbn [split_sep]. unfold PathSeparator. rewrite Ascii.eqb_refl.
    cbn [fold_left]. change (clean_step true [] "") with (@nil string).
    destruct els as [|e els]; [reflexivity|].
    rewrite split_concat by (auto; discriminate). apply fold_normal; auto.
  - destruct els as [|e els]; [reflexivity|].
    rewrite split_concat by (auto; discriminate). apply fold_normal; auto.
Qed.

Lemma Clean_rooted (path : string) : is_rooted (Clean path) = is_rooted path.
Proof. apply render_rooted, elements_normal. Qed.

Lemma Clean_elements (path : string) : elements (Clean path) = elements path.
Proof. apply render_elements, elements_normal. Qed.

(** filepath.Clean is idempotent. *)
Lemma Clean_idempotent (path : string) : Clean (Clean path) = Clean path.
Proof.
  unfold Clean at 1. rewrite Clean_rooted, Clean_elements. reflexivity.
Qed.

(** ** The traversal check *)

(** strings.Contains *)
Fixpoint Contains (s sub : string) : bool :=
  HasPrefix s sub ||
  match s with
  | EmptyString => false
  | String _ s' => Contains s' sub
  end.

Lemma Contains_prefix (s sub : string) :
  HasPrefix s sub = true -> Contains s sub = true.
Proof. intros H. destruct s; cbn [Contains]; rewrite H; reflexivity. Qed.

Lemma illegal_path_text (path : string) :
  Contains (illegal_path path) "illegal file path in zip" = true.
Proof. apply Contains_prefix. reflexivity. Qed.

Lemma Join_cleaned (a b : string) :
  Join a b = "" \/ exists x, Join a b = Clean x.
Proof.
  unfold Join. destruct (a =? ""); [destruct (b =? "")|]; eauto.
Qed.

Lemma forallb_false_ex (f : string -> bool) (l : list string) :
  forallb f l = false -> exists x, In x l /\ f x = false.
Proof.
  induction l as [|a l IH]; cbn [forallb]; [discriminate|].
  intros H. apply andb_false_iff in H as [H|H].
  - exists a. split; [left; reflexivity|exact H].
  - destruct (IH H) as (x & Hx & Hf). exists x. split; [right|]; auto.
Qed.

(** Whatever passes the prefix test of processFileContents lies within the
    destination, unless the destination is made of [..] elements only. *)
Lemma check_within (destDir name : string) :
  only_parent_refs destDir = false ->
  HasPrefix (Join destDir name) (Clean destDir ++ "/") = true ->
  within destDir (Join destDir name) = true.
Proof.
  intros Hdest H.
  destruct (Join_cleaned destDir name) as [E|(x & E)]; rewrite E in *.
  - unfold Clean in H. exfalso.
    pose proof (elements_normal destDir) as Hn. apply normal_elt in Hn.
    change "" with (String.concat "/" []) in H.
    destruct (is_rooted destDir); unfold render in H.
    + discriminate.
    + destruct (elements destDir) as [|d D]; [discriminate|].
      apply concat_prefix in H as (y & rest & Hs); auto; discriminate.
  - unfold Clean in H at 1 2.
    pose proof (elements_normal destDir) as HnD.
    pose proof (elements_normal x) as HnP.
    apply render_prefix in H as (Hr & Hne & y & rest & Hs);
      try (eapply normal_elt; eauto).
    unfold within. rewrite Clean_rooted, Clean_elements, Hr, Hs.
    rewrite Bool.eqb_reflx. cbn [andb].
    apply strip_prefix_app in Hs.
    unfold only_parent_refs in Hdest.
    destruct (elements destDir) as [|d D] eqn:ED; [congruence|].
    apply forallb_false_ex in Hdest as (n & Hin & Hn).
    apply String.eqb_neq in Hn.
    destruct HnP as (k & names & EP & Hnames & _).
    rewrite EP in Hs.
    destruct (normal_tail_names _ _ _ _ n Hs Hin Hn) as (names' & ->).
    apply Forall_app in Hnames as [_ Hnames].
    apply forallb_forall. intros e He.
    rewrite Forall_forall in Hnames. destruct (Hnames e He) as [_ Hdd].
    apply String.eqb_neq in Hdd. rewrite Hdd. reflexivity.
Qed.

(** The effects that put an entry's bytes on disk. *)
Definition written_path (e : effect) : option string :=
  match e with
  | OpenFile p | Copy p _ => Some p
  | MkdirAll _ => None
  end.

Lemma process_writes_within (os : OS) (f : File) (destDir : string) :
  only_parent_refs destDir = false ->
  forall e p, In e (fst (processFileContents os f destDir)) ->
    written_path e = Some p -> within destDir p = true.
Proof.
  intros Hdest e p. unfold processFileContents.
  destruct (OpenErr f); [intros []|].
  destruct (HasPrefix _ _) eqn:Hp; cbn [negb]; [|intros []].
  pose proof (check_within destDir (Name f) Hdest Hp) as Hw.
  destruct (IsDir f).
  - destruct (MkdirAllErr os _); cbn [fst In];
      intros [<-|[]]; discriminate.
  - destruct (MkdirAllErr os _); [|destruct (OpenFileErr os _)]; cbn [fst In];
      intros Hin He;
      repeat (destruct Hin as [<-|Hin]; [cbn in He; congruence|]);
      destruct Hin.
Qed.

Lemma process_outside (os : OS) (f : File) (destDir : string) :
  only_parent_refs destDir = false ->
  within destDir (Join destDir (Name f)) = false ->
  processFileContents os f destDir =
    ([], match OpenErr f with
         | Some err => Some err
         | None => Some (illegal_path (Join destDir (Name f)))
         end).
Proof.
  intros Hdest Hout. unfold processFileContents.
  destruct (OpenErr f); [reflexivity|].
  destruct (HasPrefix _ _) eqn:Hp; [|reflexivity].
  rewrite (check_within _ _ Hdest Hp) in Hout. discriminate.
Qed.

Lemma unzip_files_app (os : OS) (pre post : list File) (destDir : string) :
  unzip_files os (pre ++ post) destDir =
  match unzip_files os pre destDir with
  | (effs, Some err) => (effs, Some err)
  | (effs, None) =>
      let '(effs', r) := unzip_files os post destDir in ((effs ++ effs')%list, r)
  end.
Proof.
  induction pre as [|f pre IH]; cbn [app unzip_files].
  - destruct (unzip_files os post destDir). reflexivity.
  - destruct (processFileContents os f destDir) as [effs [err|]]; [reflexivity|].
    rewrite IH. destruct (unzip_files os pre destDir) as [effs1 [err|]].
    + reflexivity.
    + destruct (unzip_files os post destDir). rewrite app_assoc. reflexivity.
Qed.

Lemma unzip_writes_within (os : OS) (files : list File) (destDir : string) :
  only_parent_refs destDir = false ->
  forall e p, In e (fst (unzip_files os files destDir)) ->
    written_path e = Some p -> within destDir p = true.
Proof.
  intros Hdest. induction files as [|f files IH]; intros e p; cbn [unzip_files].
  - intros [].
  - pose proof (process_writes_within os f destDir Hdest e p) as Hf.
    destruct (processFileContents os f destDir) as [effs [err|]]; [exact Hf|].
    destruct (unzip_files os files destDir) as [effs' r]. cbn [fst] in *.
    intros Hin. apply in_app_or in Hin as [Hin|Hin]; eauto.
Qed.

(** An entry that zip cannot open (an unsupported compression method). *)
Definition unreadable : File :=
  {| Name := "data.bin"; IsDir := false; Content := "";
     OpenErr := Some "zip: unsupported compression algorithm" |}.

(** TestZipSlip: README.txt is extracted, ../naughty.txt is refused. *)
Example TestZipSlip :
  unzip healthy (inr [readme; naughty]) "/tmp/astro-test" =
  ([MkdirAll "/tmp/astro-test"; OpenFile "/tmp/astro-test/README.txt";
    Copy "/tmp/astro-test/README.txt" "This is a zip file for testing."],
   Some "illegal file path in zip: /tmp/naughty.txt").
Proof. reflexivity. Qed.

(** Where the prefix test is right.  Let the cleaned destination not consist
    of [..] elements only, and let the archive hold an entry whose name,
    joined to the destination and cleaned, falls outside it.  Then unzip
    returns an error: the error of an earlier entry if one failed, else the
    entry's own Open error if it cannot be opened, else
    [illegal file path in zip: <path>]; it performs nothing for that entry or
    any later one; and every file unzip creates or fills lies within the
    destination. *)
Lemma unzip_rejects_traversal
    (os : OS) (destDir : string) (pre post : list File) (f : File) :
  only_parent_refs destDir = false ->
  within destDir (Join destDir (Name f)) = false ->
  snd (unzip os (inr (pre ++ f :: post)%list) destDir) =
    match snd (unzip os (inr pre) destDir) with
    | Some err => Some err
    | None =>
        match OpenErr f with
        | Some err => Some err
        | None => Some (illegal_path (Join destDir (Name f)))
        end
    end /\
  fst (unzip os (inr (pre ++ f :: post)%list) destDir) =
    fst (unzip os (inr pre) destDir) /\
  Contains (illegal_path (Join destDir (Name f))) "illegal file path in zip"
    = true /\
  (forall e p,
     In e (fst (unzip os (inr (pre ++ f :: post)%list) destDir)) ->
     written_path e = Some p -> within destDir p = true).
Proof.
  intros Hdest Hout. cbn [unzip].
  pose proof (unzip_writes_within os (pre ++ f :: post)%list destDir Hdest) as Hsafe.
  rewrite unzip_files_app in *. cbn [unzip_files] in *.
  rewrite (process_outside os f destDir Hdest Hout) in *.
  destruct (unzip_files os pre destDir) as [effs [err|]]; cbn [fst snd] in *.
  - split; [reflexivity|]. split; [reflexivity|].
    split; [apply illegal_path_text|exact Hsafe].
  - assert (E : exists err, match OpenErr f with
                            | Some err => Some err
                            | None => Some (illegal_path (Join destDir (Name f)))
                            end = Some err)
      by (destruct (OpenErr f); eauto).
    destruct E as (err & E). rewrite E in *. cbn [fst snd] in *.
    rewrite app_nil_r in *. split; [reflexivity|]. split; [reflexivity|].
    split; [apply illegal_path_text|exact Hsafe].
Qed.

Lemma unzip_rejects_traversal_witness :
  only_parent_refs "/tmp/astro-test" = false /\
  within "/tmp/astro-test" (Join "/tmp/astro-test" (Name naughty)) = false /\
  snd (unzip healthy (inr ([readme] ++ naughty :: [])%list) "/tmp/astro-test") =
    Some (illegal_path (Join "/tmp/astro-test" (Name naughty))).
Proof.
  split; [reflexivity|]. split; [reflexivity|].
  apply (unzip_rejects_traversal healthy "/tmp/astro-test" [readme] [] naughty);
    reflexivity.
Defined.

(** unzip returns the first error it meets: behind an entry that cannot be
    opened, ../naughty.txt is not even looked at, and the error returned does
    not mention an illegal file path. *)
Example unzip_earlier_error_first :
  within "/tmp/astro-test" (Join "/tmp/astro-test" (Name naughty)) = false /\
  unzip healthy (inr [unreadable; naughty]) "/tmp/astro-test"
  = ([], Some "zip: unsupported compression algorithm") /\
  Contains "zip: unsupported compression algorithm" "illegal file path in zip"
  = false.
Proof. repeat split. Qed.

(** C9. unzip does not reject every entry that leaves the destination
    directory.  Extract the archive of TestZipSlip (README.txt and
    ../naughty.txt) into the relative destination [..]: joined to the
    destination and cleaned, the name of the second entry is
    ../../naughty.txt, which lies outside [..]; but the prefix the test
    compares with is [../], so the entry passes: unzip creates ../.., opens
    ../../naughty.txt, copies the entry's bytes to it and returns nil.
    Whatever the file system answers, the entry is not refused before the
    file system is touched outside the destination; and the same happens
    one level up, with the destination ../... *)
Theorem unzip_escapes_parent_destination :
  only_parent_refs ".." = true /\
  Join ".." (Name naughty) = "../../naughty.txt" /\
  within ".." (Join ".." (Name naughty)) = false /\
  HasPrefix (Join ".." (Name naughty)) (Clean ".." ++ String PathSeparator "")
  = true /\
  unzip healthy (inr [readme; naughty]) ".."
  = ([MkdirAll ".."; OpenFile "../README.txt";
      Copy "../README.txt" "This is a zip file for testing.";
      MkdirAll "../.."; OpenFile "../../naughty.txt";
      Copy "../../naughty.txt" "This file should never be extracted."],
     None) /\
  (forall os : OS,
     exists effs r,
       unzip os (inr [naughty]) ".." = (MkdirAll "../.." :: effs, r)) /\
  (within "../.." (Join "../.." (Name naughty)) = false /\
   unzip healthy (inr [naughty]) "../.."
   = ([MkdirAll "../../.."; OpenFile "../../../naughty.txt";
       Copy "../../../naughty.txt" "This file should never be extracted."],
      None)).
Proof.
  split; [reflexivity|]. split; [reflexivity|]. split; [reflexivity|].
  split; [reflexivity|]. split; [reflexivity|]. split; [|split; reflexivity].
  intros os. cbn [unzip unzip_files]. unfold processFileContents.
  change (OpenErr naughty) with (@None error).
  change (IsDir naughty) with false.
  change (Join ".." (Name naughty)) with "../../naughty.txt".
  change (HasPrefix "../../naughty.txt" (Clean ".." ++ String PathSeparator ""))
    with true.
  change (Dir "../../naughty.txt") with "../..".
  cbn [negb].
  destruct (MkdirAllErr os "../.."); [cbn; eauto|].
  destruct (OpenFileErr os "../../naughty.txt"); [cbn; eauto|].
  destruct (CloseErr os "../../naughty.txt"); cbn; eauto.
Qed.

(** ** Which entries the prefix test lets through *)

Lemma split_sep_nonempty (s : string) : split_sep s <> [].
Proof.
  induction s as [|c s IH]; cbn [split_sep]; [discriminate|].
  destruct (Ascii.eqb c PathSeparator); [discriminate|].
  destruct (split_sep s); discriminate.
Qed.

(** Splitting [a/b] gives the elements of [a] followed by those of [b]. *)
Lemma split_sep_join (a b : string) :
  split_sep (a ++ "/" ++ b) = (split_sep a ++ split_sep b)%list.
Proof.
  induction a as [|c a IH].
  - reflexivity.
  - cbn [append split_sep].
    change (a ++ String "/" b) with (a ++ "/" ++ b). rewrite IH.
    destruct (Ascii.eqb c PathSeparator); [reflexivity|].
    pose proof (split_sep_nonempty a) as Hne.
    destruct (split_sep a) as [|e es]; [congruence|]. reflexivity.
Qed.

(** The elements of a name that survive cleaning when none of them is
    [..]: all but the empty ones and [.]. *)
Definition proper (e : string) : bool := negb (e =? "") && negb (e =? ".").

Lemma fold_proper (rooted : bool) (comps st : list string) :
  Forall (fun e => e <> "..") comps ->
  fold_left (clean_step rooted) comps st
  = (rev (filter proper comps) ++ st)%list.
Proof.
  revert st. induction comps as [|e comps IH]; intros st H;
    cbn [fold_left filter]; [reflexivity|].
  inversion H as [|? ? He H']; subst. rewrite (IH _ H').
  unfold clean_step, proper.
  destruct (e =? "") eqn:E1; [reflexivity|].
  destruct (e =? ".") eqn:E2; [reflexivity|].
  apply String.eqb_neq in He. rewrite He. cbn [orb negb andb rev].
  rewrite <- app_assoc. reflexivity.
Qed.

Lemma is_rooted_join (a b : string) :
  a <> "" -> is_rooted (a ++ "/" ++ b) = is_rooted a.
Proof. destruct a as [|c a]; [congruence|reflexivity]. Qed.

Lemma elements_join (a b : string) :
  a <> "" -> Forall (fun e => e <> "..") (split_sep b) ->
  elements (a ++ "/" ++ b)
  = (elements a ++ filter proper (split_sep b))%list.
Proof.
  intros Ha Hb. unfold elements.
  rewrite is_rooted_join, split_sep_join, fold_left_app by exact Ha.
  rewrite (fold_proper _ _ _ Hb), rev_app_distr, rev_involutive.
  reflexivity.
Qed.

Lemma concat_app (D P : list string) :
  D <> [] -> P <> [] ->
  String.concat "/" (D ++ P) = String.concat "/" D ++ "/" ++ String.concat "/" P.
Proof.
  induction D as [|d D IH]; intros HD HP; [congruence|].
  destruct D as [|d2 D].
  - destruct P as [|p P]; [congruence|]. cbn [app]. rewrite concat_two, concat_one.
    reflexivity.
  - change ((d :: d2 :: D) ++ P)%list with (d :: (d2 :: D) ++ P)%list.
    cbn [app]. rewrite !concat_two.
    change (d2 :: (D ++ P)%list) with ((d2 :: D) ++ P)%list.
    rewrite IH by (auto; discriminate).
    rewrite !app_assoc_sep. reflexivity.
Qed.

Lemma render_app (r : bool) (D P : list string) :
  D <> [] -> P <> [] ->
  render r (D ++ P) = render r D ++ "/" ++ String.concat "/" P.
Proof.
  intros HD HP. unfold render. rewrite concat_app by assumption.
  destruct r.
  - rewrite app_assoc_sep. reflexivity.
  - destruct D as [|d D]; [congruence|]. cbn [app]. reflexivity.
Qed.

Lemma HasPrefix_self (a s : string) : HasPrefix (a ++ s) a = true.
Proof.
  induction a as [|c a IH]; [destruct s; reflexivity|].
  cbn [append HasPrefix]. rewrite Ascii.eqb_refl. exact IH.
Qed.

Lemma elements_empty : elements "" = [].
Proof. reflexivity. Qed.

(** A destination is bare when cleaning leaves none of its elements: it is
    the root or the current directory. *)
Lemma bare_destination (destDir : string) :
  elements destDir = [] <-> Clean destDir = "/" \/ Clean destDir = ".".
Proof.
  split.
  - intros H. unfold Clean. rewrite H. destruct (is_rooted destDir); auto.
  - intros [H|H]; rewrite <- Clean_elements, H; reflexivity.
Qed.




Lemma Join_plain (destDir name : string) :
  elements destDir <> [] ->
  Forall (fun e => e <> "..") (split_sep name) ->
  filter proper (split_sep name) <> [] ->
  Join destDir name
  = Clean destDir ++ "/" ++ String.concat "/" (filter proper (split_sep name)).
Proof.
  intros HD Hdd Hne.
  assert (Hd : destDir <> "") by (intros ->; apply HD; reflexivity).
  unfold Join. apply String.eqb_neq in Hd. rewrite Hd.
  apply String.eqb_neq in Hd.
  unfold Clean. rewrite is_rooted_join, elements_join by assumption.
  apply render_app; assumption.
Qed.

(** X2. Every other destination takes the entries an archive normally holds.
    When the destination cleans to something else than [/] and [.], an entry
    whose name has no [..] element and at least one element that is neither
    empty nor [.] passes the prefix test: it is placed at the cleaned
    destination, a separator and the elements of its name, and, when the file
    system raises no error, a directory entry creates that directory and a
    file entry creates its parent, opens the file and copies the entry's bytes
    to it. *)
Theorem unzip_accepts_plain_entries
    (os : OS) (f : File) (destDir : string) :
  Clean destDir <> "/" -> Clean destDir <> "." ->
  Forall (fun e => e <> "..") (split_sep (Name f)) ->
  filter proper (split_sep (Name f)) <> [] ->
  OpenErr f = None ->
  Join destDir (Name f)
  = Clean destDir ++ "/"
    ++ String.concat "/" (filter proper (split_sep (Name f))) /\
  HasPrefix (Join destDir (Name f)) (Clean destDir ++ "/") = true /\
  ((forall p, MkdirAllErr os p = None) ->
   (forall p, OpenFileErr os p = None) ->
   (forall p, CloseErr os p = None) ->
   processFileContents os f destDir
   = (if IsDir f then [MkdirAll (Join destDir (Name f))]
      else [MkdirAll (Dir (Join destDir (Name f)));
            OpenFile (Join destDir (Name f));
            Copy (Join destDir (Name f)) (Content f)],
      None)).
Proof.
  intros H1 H2 Hdd Hne Hopen.
  assert (HD : elements destDir <> []).
  { intros E. apply bare_destination in E as [E|E]; contradiction. }
  pose proof (Join_plain destDir (Name f) HD Hdd Hne) as EJ.
  assert (Hp : HasPrefix (Join destDir (Name f)) (Clean destDir ++ "/") = true).
  { rewrite EJ, <- app_assoc_sep. apply HasPrefix_self. }
  split; [exact EJ|]. split; [exact Hp|].
  intros Hm Ho Hc. unfold processFileContents. rewrite Hopen.
  change (String PathSeparator "") with "/". rewrite Hp. cbn [negb].
  destruct (IsDir f).
  - rewrite Hm. reflexivity.
  - rewrite Hm, Ho, Hc. reflexivity.
Qed.

Lemma unzip_accepts_plain_entries_witness :
  Join "/tmp/astro-test" (Name readme) = "/tmp/astro-test/README.txt" /\
  processFileContents healthy readme "/tmp/astro-test"
  = ([MkdirAll "/tmp/astro-test"; OpenFile "/tmp/astro-test/README.txt";
      Copy "/tmp/astro-test/README.txt" "This is a zip file for testing."],
     None).
Proof.
  destruct (unzip_accepts_plain_entries healthy readme "/tmp/astro-test")
    as (H1 & _ & H3).
  - discriminate.
  - discriminate.
  - repeat constructor; discriminate.
  - discriminate.
  - reflexivity.
  - split; [exact H1|]. apply H3; reflexivity.
Defined.

(** ** The loop of unzip *)

(** The calls processFileContents makes for an entry it returns nil for. *)
Definition extraction (destDir : string) (f : File) : list effect :=
  let path := Join destDir (Name f) in
  if IsDir f then [MkdirAll path]
  else [MkdirAll (Dir path); OpenFile path; Copy path (Content f)].

Lemma process_success (os : OS) (f : File) (destDir : string) :
  snd (processFileContents os f destDir) = None ->
  fst (processFileContents os f destDir) = extraction destDir f /\
  OpenErr f = None /\
  HasPrefix (Join destDir (Name f)) (Clean destDir ++ "/") = true.
Proof.
  unfold processFileContents, extraction.
  change (String PathSeparator "") with "/".
  destruct (OpenErr f); [discriminate|].
  destruct (HasPrefix _ _); cbn [negb]; [|discriminate].
  destruct (IsDir f).
  - destruct (MkdirAllErr os _); [discriminate|auto].
  - destruct (MkdirAllErr os _); [discriminate|].
    destruct (OpenFileErr os _); [discriminate|auto].
Qed.

(** The answers of the file system behind a nil: every error that
    processFileContents looks at was nil. *)
Lemma process_answers (os : OS) (f : File) (destDir : string) :
  snd (processFileContents os f destDir) = None ->
  if IsDir f then MkdirAllErr os (Join destDir (Name f)) = None
  else MkdirAllErr os (Dir (Join destDir (Name f))) = None /\
       OpenFileErr os (Join destDir (Name f)) = None /\
       CloseErr os (Join destDir (Name f)) = None.
Proof.
  unfold processFileContents.
  destruct (OpenErr f); [discriminate|].
  destruct (HasPrefix _ _); cbn [negb]; [|discriminate].
  destruct (IsDir f).
  - destruct (MkdirAllErr os _); [discriminate|auto].
  - destruct (MkdirAllErr os _); [discriminate|].
    destruct (OpenFileErr os _); [discriminate|]. cbn [snd]. auto.
Qed.

(** The same file system with other answers from io.Copy. *)
Definition with_copy (os : OS) (answer : string -> string -> option error)
  : OS :=
  {| MkdirAllErr := MkdirAllErr os; OpenFileErr := OpenFileErr os;
     CopyErr := answer; CloseErr := CloseErr os |}.

(** The error of io.Copy is assigned and overwritten: it has no say in what
    unzip does or returns. *)
Lemma copy_error_dropped (os : OS) (answer : string -> string -> option error)
      (archive : error + list File) (destDir : string) :
  unzip (with_copy os answer) archive destDir = unzip os archive destDir.
Proof.
  destruct archive as [e|files]; [reflexivity|]. cbn [unzip].
  induction files as [|f files IH]; cbn [unzip_files]; [reflexivity|].
  rewrite IH. reflexivity.
Qed.

(** A disk that fills up while README.txt is written: io.Copy fails, the
    file is cut short, and unzip returns nil all the same. *)
Definition disk_full : OS :=
  with_copy healthy (fun _ _ => Some "no space left on device").

Example unzip_hides_copy_failure :
  CopyErr disk_full "/tmp/astro-test/README.txt" (Content readme)
  = Some "no space left on device" /\
  unzip disk_full (inr [readme]) "/tmp/astro-test"
  = ([MkdirAll "/tmp/astro-test"; OpenFile "/tmp/astro-test/README.txt";
      Copy "/tmp/astro-test/README.txt" "This is a zip file for testing."],
     None).
Proof. split; reflexivity. Qed.

(** X3. When unzip returns an error, it is either the error of
    zip.OpenReader, and then nothing was done, or the error that
    processFileContents returned for one entry of the archive, the first for
    which it returned one: for each entry before it the calls of an
    extraction were made and nil was returned, the calls made for the failing
    entry are the last ones, and the entries after it are never looked at, so
    that replacing them by any others changes nothing.  What io.Copy
    answered along the way changes neither the calls nor the error: a nil for
    an earlier entry does not say that its bytes arrived. *)
Theorem unzip_stops_at_first_error
    (os : OS) (archive : error + list File) (destDir : string) (err : error) :
  snd (unzip os archive destDir) = Some err ->
  (archive = inl err /\ fst (unzip os archive destDir) = [])
  \/
  (exists pre f post,
     archive = inr (pre ++ f :: post)%list /\
     snd (unzip os (inr pre) destDir) = None /\
     fst (unzip os (inr pre) destDir) = flat_map (extraction destDir) pre /\
     snd (processFileContents os f destDir) = Some err /\
     fst (unzip os archive destDir)
     = (flat_map (extraction destDir) pre
        ++ fst (processFileContents os f destDir))%list /\
     (forall post',
        unzip os (inr (pre ++ f :: post')%list) destDir
        = unzip os archive destDir) /\
     (forall answer,
        unzip (with_copy os answer) archive destDir
        = unzip os archive destDir)).
Proof.
  destruct archive as [e|files].
  - cbn [unzip snd fst]. intros [= ->]. left. auto.
  - intros Herr. right.
    assert (H : exists pre f post,
               files = (pre ++ f :: post)%list /\
               snd (unzip_files os pre destDir) = None /\
               fst (unzip_files os pre destDir)
               = flat_map (extraction destDir) pre /\
               snd (processFileContents os f destDir) = Some err /\
               fst (unzip_files os files destDir)
               = (flat_map (extraction destDir) pre
                  ++ fst (processFileContents os f destDir))%list /\
               forall post',
                 unzip_files os (pre ++ f :: post')%list destDir
                 = unzip_files os files destDir).
    { cbn [unzip] in Herr. revert Herr.
      induction files as [|f files IH]; cbn [unzip_files]; [discriminate|].
      destruct (processFileContents os f destDir) as [effs [e|]] eqn:Ef.
      - cbn [snd]. intros [= ->]. exists [], f, files.
        cbn [app unzip_files flat_map]. rewrite Ef. repeat split; auto.
      - pose proof (process_success os f destDir) as Hok. rewrite Ef in Hok.
        destruct (Hok eq_refl) as (Heffs & _). cbn [fst] in Heffs.
        destruct (unzip_files os files destDir) as [effs' r] eqn:Er.
        cbn [snd fst] in *.
        intros ->.
        destruct (IH eq_refl)
          as (pre & g & post & -> & Hpre & Hfl & Hg & Heff & Hany).
        exists (f :: pre), g, post. cbn [app unzip_files flat_map]. rewrite Ef.
        destruct (unzip_files os pre destDir) as [effs1 r1]. cbn [snd fst] in *.
        subst r1. subst effs1. split; [reflexivity|]. split; [reflexivity|].
        split; [rewrite Heffs; reflexivity|]. split; [exact Hg|].
        split; [rewrite Heff, Heffs, app_assoc; reflexivity|].
        intros post'. rewrite (Hany post'). reflexivity. }
    destruct H as (pre & f & post & -> & H1 & H2 & H3 & H4 & H5).
    exists pre, f, post. cbn [unzip]. repeat split; auto.
    intros answer. apply (copy_error_dropped os answer (inr _)).
Qed.

Lemma unzip_stops_at_first_error_witness :
  (exists pre f post,
     @inr error _ [readme; naughty; readme] = inr (pre ++ f :: post)%list /\
     snd (unzip healthy (inr pre) "/tmp/astro-test") = None /\
     snd (processFileContents healthy f "/tmp/astro-test")
     = Some "illegal file path in zip: /tmp/naughty.txt") /\
  unzip healthy (inl "zip: not a valid zip file") "/tmp/astro-test"
  = ([], Some "zip: not a valid zip file").
Proof.
  split.
  - destruct (unzip_stops_at_first_error healthy
                (inr [readme; naughty; readme])
                "/tmp/astro-test" "illegal file path in zip: /tmp/naughty.txt"
                eq_refl)
      as [(H & _)|(pre & f & post & H1 & H2 & _ & H4 & _)];
      [discriminate|].
    exists pre, f, post. auto.
  - destruct (unzip_stops_at_first_error healthy
                (inl "zip: not a valid zip file")
                "/tmp/astro-test" "zip: not a valid zip file" eq_refl)
      as [(_ & H)|(pre & f & post & H1 & _)]; [|discriminate].
    reflexivity.
Defined.

(** X4. When unzip returns nil, zip.OpenReader had opened the archive and
    processFileContents has returned nil for every entry, in archive order,
    and nothing else was done: every entry could be opened and passed the
    prefix test; a directory entry made one MkdirAll call for its path, which
    succeeded; a file entry made MkdirAll for the parent, OpenFile for the
    path, io.Copy from the entry to that file and Close, of which MkdirAll,
    OpenFile and Close succeeded.  The error of io.Copy is not among them: it
    is overwritten by that of Close, so unzip returns the same nil, after the
    same calls, whatever io.Copy answered, and a nil does not say that the
    bytes of the entries arrived. *)
Theorem unzip_success_extracts_all
    (os : OS) (archive : error + list File) (destDir : string) :
  snd (unzip os archive destDir) = None ->
  exists files,
    archive = inr files /\
    fst (unzip os archive destDir) = flat_map (extraction destDir) files /\
    (forall f, In f files ->
       OpenErr f = None /\
       HasPrefix (Join destDir (Name f)) (Clean destDir ++ "/") = true /\
       (IsDir f = true -> MkdirAllErr os (Join destDir (Name f)) = None) /\
       (IsDir f = false ->
        MkdirAllErr os (Dir (Join destDir (Name f))) = None /\
        OpenFileErr os (Join destDir (Name f)) = None /\
        CloseErr os (Join destDir (Name f)) = None /\
        In (Copy (Join destDir (Name f)) (Content f))
           (fst (unzip os archive destDir)))) /\
    (forall answer,
       unzip (with_copy os answer) archive destDir
       = unzip os archive destDir).
Proof.
  destruct archive as [e|files]; [discriminate|].
  cbn [unzip]. intros Hnone. exists files. split; [reflexivity|].
  assert (Hall : fst (unzip_files os files destDir)
                 = flat_map (extraction destDir) files /\
                 forall f, In f files ->
                   snd (processFileContents os f destDir) = None).
  { revert Hnone. induction files as [|f files IH]; cbn [unzip_files flat_map].
    - intros _. split; [reflexivity|intros f []].
    - pose proof (process_success os f destDir) as Hok.
      destruct (processFileContents os f destDir) as [effs [e|]] eqn:Ef;
        [discriminate|].
      destruct (Hok eq_refl) as (Heffs & _). cbn [fst] in Heffs.
      destruct (unzip_files os files destDir) as [effs' r]. cbn [snd fst] in *.
      intros ->. destruct (IH eq_refl) as (IH1 & IH2).
      split; [rewrite Heffs, IH1; reflexivity|].
      intros g [<-|Hg]; [rewrite Ef; reflexivity|auto]. }
  destruct Hall as (Heffs & Hfiles). split; [exact Heffs|]. split.
  - intros f Hf. specialize (Hfiles f Hf).
    destruct (process_success os f destDir Hfiles) as (_ & Hopen & Hpre).
    pose proof (process_answers os f destDir Hfiles) as Hans.
    split; [exact Hopen|]. split; [exact Hpre|]. split.
    + intros Hdir. rewrite Hdir in Hans. exact Hans.
    + intros Hdir. rewrite Hdir in Hans. destruct Hans as (Hm & Ho & Hc).
      repeat split; auto.
      rewrite Heffs. apply in_flat_map. exists f. split; [exact Hf|].
      unfold extraction. rewrite Hdir. right. right. left. reflexivity.
  - intros answer. apply (copy_error_dropped os answer (inr files)).
Qed.

Lemma unzip_success_extracts_all_witness :
  exists files,
    @inr error _ [readme] = inr files /\
    fst (unzip disk_full (inr [readme]) "/tmp/astro-test")
    = flat_map (extraction "/tmp/astro-test") files /\
    unzip (with_copy disk_full (fun _ _ => None)) (inr [readme])
          "/tmp/astro-test"
    = unzip disk_full (inr [readme]) "/tmp/astro-test".
Proof.
  destruct (unzip_success_extracts_all disk_full (inr [readme])
              "/tmp/astro-test" eq_refl)
    as (files & H1 & H2 & _ & H4).
  exists files. split; [exact H1|]. split; [exact H2|]. apply H4.
Defined.

End Tvm.

(* ===================================================================== *)
(** * Variable resolution *)
(* ===================================================================== *)

Module Vars.

(** A variable as a module declares it: name, optional default, optional
    whitelist of values. *)
Record VariableDecl := {
  vname : string;
  vdefault : option string;
  vvalues : option (list string)
}.

Record ModuleConfig := {
  mname : string;
  variables : list VariableDecl
}.

(** UserVariables{Values, Filters} of ExecutionParameters. *)
Record UserVariables := {
  Values : list (string * string);
  Filters : list (string * bool)
}.

Fixpoint lookup {V : Type} (k : string) (m : list (string * V)) : option V :=
  match m with
  | [] => None
  | (k', v) :: m' => if k =? k' then Some v else lookup k m'
  end.

Inductive resolve_error :=
| UnknownValue (name value : string)
| MissingValue (name : string).

Definition mem (x : string) (l : list string) : bool :=
  existsb (fun y => x =? y) l.

(** Modelled from the spec: the resolver and the wrapper's argument list live
    in files that are not among the sources (only TestPassVariables is).
    Section 4.1 gives the candidates of a declared variable, by precedence:
    a user value pins the variable (UnknownValue when a whitelist excludes
    it); otherwise the whitelist; otherwise the default; otherwise
    MissingValue.  A variable marked in [Filters] has its candidates
    intersected with the user's value instead.  Only declared variables are
    visited, so a user value for an undeclared variable is ignored. *)
Definition base_candidates (d : VariableDecl) : resolve_error + list string :=
  match vvalues d with
  | Some ws => inr ws
  | None =>
      match vdefault d with
      | Some dv => inr [dv]
      | None => inl (MissingValue (vname d))
      end
  end.

(** Modelled from the spec: the candidates of one declared variable given
    the user's values and filters (section 4.1, rules 1 and 3 to 5, and the
    paragraph on filters); the resolver's source is not available. *)
Definition candidates (u : UserVariables) (d : VariableDecl)
  : resolve_error + list string :=
  match lookup (vname d) (Values u) with
  | Some v =>
      match lookup (vname d) (Filters u) with
      | Some true =>
          match base_candidates d with
          | inr c => inr (filter (fun x => x =? v) c)
          | inl _ => inr [v]
          end
      | _ =>
          match vvalues d with
          | Some ws => if mem v ws then inr [v]
                       else inl (UnknownValue (vname d) v)
          | None => inr [v]
          end
      end
  | None => base_candidates d
  end.

(** Modelled from the spec: the candidate lists of the declared variables,
    in declaration order; the first failure is the resolver's. *)
Fixpoint candidate_lists (u : UserVariables) (ds : list VariableDecl)
  : resolve_error + list (list string) :=
  match ds with
  | [] => inr []
  | d :: ds' =>
      match candidates u d with
      | inl e => inl e
      | inr c =>
          match candidate_lists u ds' with
          | inl e => inl e
          | inr cs => inr (c :: cs)
          end
      end
  end.

(** A VariableAssignment: the declared names with one value each. *)
Definition VariableAssignment := list (string * string).

(** Modelled from the spec: resolve(module, userVars), whose source is not
    available.  Section 4.2 expands the candidate lists by the cartesian
    product, in declaration order. *)
Definition resolve (m : ModuleConfig) (u : UserVariables)
  : resolve_error + list VariableAssignment :=
  match candidate_lists u (variables m) with
  | inl e => inl e
  | inr cs => inr (map (combine (map vname (variables m))) (Utils.cartesian cs))
  end.

(** An argument of the provisioner's command line. *)
Inductive arg :=
| VarFlag (name value : string).

Definition arg_text (x : arg) : string :=
  match x with
  | VarFlag n v => "-var " ++ n ++ "=" ++ v
  end.

(** Modelled from the spec: the wrapper's argument list, whose source is
    not available.  Section 4.6: the provisioner is handed one
    [-var name=value] per variable of the assignment and nothing else. *)
Definition var_flags (a : VariableAssignment) : list arg :=
  map (fun nv => VarFlag (fst nv) (snd nv)) a.

Definition declares (m : ModuleConfig) (v : string) : Prop :=
  In v (map vname (variables m)).

(** The fixture of TestPassVariables: bar declares region, foo does not. *)
Definition foo : ModuleConfig := {| mname := "foo"; variables := [] |}.
Definition bar : ModuleConfig :=
  {| mname := "bar";
     variables := [ {| vname := "region"; vdefault := None; vvalues := None |} ] |}.
Definition region_east1 : UserVariables :=
  {| Values := [("region", "east1")]; Filters := [] |}.

Definition stderr_of (m : ModuleConfig) (u : UserVariables) : list (list string) :=
  match resolve m u with
  | inr l => map (fun a => map arg_text (var_flags a)) l
  | inl _ => []
  end.

Example TestPassVariables :
  stderr_of bar region_east1 = [["-var region=east1"]] /\
  stderr_of foo region_east1 = [[]].
Proof. split; reflexivity. Qed.

Lemma candidates_pinned (u : UserVariables) (d : VariableDecl)
      (c : list string) (v : string) :
  candidates u d = inr c -> lookup (vname d) (Values u) = Some v ->
  forall x, In x c -> x = v.
Proof.
  unfold candidates. intros Hc Hv. rewrite Hv in Hc.
  destruct (lookup (vname d) (Filters u)) as [[|]|].
  - destruct (base_candidates d) as [|c0]; injection Hc as <-.
    + intros x [<-|[]]. reflexivity.
    + intros x Hx. apply filter_In in Hx as [_ Hx].
      apply String.eqb_eq. exact Hx.
  - destruct (vvalues d) as [ws|]; [destruct (mem v ws); [|discriminate]|];
      injection Hc as <-; intros x [<-|[]]; reflexivity.
  - destruct (vvalues d) as [ws|]; [destruct (mem v ws); [|discriminate]|];
      injection Hc as <-; intros x [<-|[]]; reflexivity.
Qed.

Lemma assignment_pinned (u : UserVariables) (ds : list VariableDecl) :
  forall cs t, candidate_lists u ds = inr cs -> In t (Utils.cartesian cs) ->
  forall d v, In d ds -> lookup (vname d) (Values u) = Some v ->
  In (vname d, v) (combine (map vname ds) t).
Proof.
  induction ds as [|d0 ds IH]; intros cs t Hcs Ht d v Hd Hv; [destruct Hd|].
  cbn [candidate_lists] in Hcs.
  destruct (candidates u d0) as [|c] eqn:Hc; [discriminate|].
  destruct (candidate_lists u ds) as [|cs'] eqn:Hcs'; [discriminate|].
  injection Hcs as <-. cbn [Utils.cartesian] in Ht.
  apply in_flat_map in Ht as (x & Hx & Ht).
  apply in_map_iff in Ht as (t' & <- & Ht').
  cbn [map combine]. destruct Hd as [->|Hd].
  - left. f_equal. exact (candidates_pinned u d c v Hc Hv x Hx).
  - right. eapply IH; eauto.
Qed.

(** C7. For a module M and a user-supplied variable v that M does not
    declare, no execution of M is invoked with a [-var v=...] argument; a
    module that declares v is invoked, in every one of its executions, with
    [-var v=<value>] for the user's value. *)
Theorem variable_isolation
    (m : ModuleConfig) (u : UserVariables) (v value : string)
    (assignments : list VariableAssignment) (a : VariableAssignment) :
  lookup v (Values u) = Some value ->
  resolve m u = inr assignments ->
  In a assignments ->
  (~ declares m v -> forall x, ~ In (VarFlag v x) (var_flags a)) /\
  (declares m v -> In (VarFlag v value) (var_flags a)).
Proof.
  intros Hv Hr Ha. unfold resolve in Hr.
  destruct (candidate_lists u (variables m)) as [|cs] eqn:Hcs; [discriminate|].
  injection Hr as <-. apply in_map_iff in Ha as (t & <- & Ht).
  split.
  - intros Hnd x Hin. unfold var_flags in Hin.
    apply in_map_iff in Hin as ([n y] & E & Hin). cbn [fst snd] in E.
    injection E as -> ->. apply in_combine_l in Hin. exact (Hnd Hin).
  - intros Hd. unfold declares in Hd.
    apply in_map_iff in Hd as (d & <- & Hd).
    unfold var_flags. apply in_map_iff. exists (vname d, value).
    split; [reflexivity|]. eapply assignment_pinned; eauto.
Qed.

Lemma variable_isolation_witness :
  (forall x, ~ In (VarFlag "region" x) (var_flags [])) /\
  In (VarFlag "region" "east1") (var_flags [("region", "east1")]).
Proof.
  split.
  - apply (variable_isolation foo region_east1 "region" "east1" [[]] []);
      [reflexivity | reflexivity | left; reflexivity |].
    unfold declares. cbn. tauto.
  - apply (variable_isolation bar region_east1 "region" "east1"
             [[("region", "east1")]] [("region", "east1")]);
      [reflexivity | reflexivity | left; reflexivity |].
    unfold declares. cbn. tauto.
Defined.

End Vars.

(* ===================================================================== *)
(** * Sessions: plan, apply and applyWithGraph *)
(* ===================================================================== *)

Module Sessions.

Definition error := string.

(** ** Data *)

(** terraform.Result, as far as the runner passes it on. *)
Record TerraformResult := {
  Stderr : string;
  Runtime : string
}.

Record Result := {
  id : string;
  terraformResult : option TerraformResult;
  err : option error
}.

Record HooksConfig := { PreModuleRun : list string }.

Record ModuleConfig := {
  Name : string;
  Dependencies : list string;
  Hooks : HooksConfig
}.

Record boundExecution := {
  ID : string;
  moduleConfig : ModuleConfig
}.

Record Session := { path : string }.

(** The two signals NewSession subscribes to, and what [%s] prints for
    them (syscall.Signal.String). *)
Inductive Signal := SIGINT | SIGTERM.

Definition signal_name (sig : Signal) : string :=
  match sig with
  | SIGINT => "interrupt"
  | SIGTERM => "terminated"
  end.

Definition newline : string := String (ascii_of_nat 10) EmptyString.

(** fmt.Printf("\nReceived signal: %s, cancelling all operations...\n", sig) *)
Definition notice_line (sig : Signal) : string :=
  "Received signal: " ++ signal_name sig ++ ", cancelling all operations...".

Definition notice (sig : Signal) : string :=
  newline ++ notice_line sig ++ newline.

Inductive phase :=
| RunningPreModuleRunHook
| Initializing
| DisconnectingRemoteState
| Planning
| Applying.

Definition phase_text (ph : phase) : string :=
  match ph with
  | RunningPreModuleRunHook => "Running PreModuleRun hook"
  | Initializing => "Initializing"
  | DisconnectingRemoteState => "Disconnecting remote state"
  | Planning => "Planning"
  | Applying => "Applying"
  end.

(** fmt.Sprintf("[%s] <phase>...", b.ID()) *)
Definition status_line (id : string) (ph : phase) : string :=
  "[" ++ id ++ "] " ++ phase_text ph ++ "...".

(** ** Goroutine bodies

    A closure is a tree of the operations it performs: sends on the two
    channels and calls to the collaborators, whose answers (the environment's
    choice) select the continuation. *)

Inductive tfcall := Init | Detach | Plan | Apply.

Inductive prog :=
| Return (e : option error)
| SendStatus (line : string) (k : prog)                      (* status <- line *)
| SendResult (r : Result) (k : prog)                         (* results <- r *)
| newTerraformSession (b : boundExecution) (k : option error -> prog)
| runCommandkAndSetEnvironment (dir hook : string) (k : option error -> prog)
| terraform (c : tfcall) (b : boundExecution)
            (k : option TerraformResult -> option error -> prog).

(** The operations, as they are recorded when they happen. *)
Inductive op :=
| OpNewTerraformSession (b : boundExecution)
| OpRunCommand (dir hook : string)
| OpTerraform (c : tfcall) (b : boundExecution)
| OpStatus (line : string)
| OpResult (r : Result).

Definition hook_error (e : error) : error :=
  "error running PreModuleRun hook: " ++ e.

(** The loop over Hooks.PreModuleRun; [ret] is what the closure returns when
    a hook fails and [rest] what follows the loop. *)
Fixpoint preModuleRun (session : Session) (b : boundExecution)
         (hooks : list string) (ret : error -> option error) (rest : prog)
  : prog :=
  match hooks with
  | [] => rest
  | hook :: hooks' =>
      SendStatus (status_line (ID b) RunningPreModuleRunHook)
        (runCommandkAndSetEnvironment (path session) hook (fun e =>
           match e with
           | Some e =>
               SendResult {| id := ID b; terraformResult := None;
                             err := Some (hook_error e) |}
                 (Return (ret e))
           | None => preModuleRun session b hooks' ret rest
           end))
  end.

(** The closure of [apply] for one execution. *)
Definition apply_fn (b : boundExecution) : prog :=
  newTerraformSession b (fun e =>
    match e with
    | Some e =>
        SendResult {| id := ID b; terraformResult := None; err := Some e |}
          (Return None)
    | None =>
        SendStatus (status_line (ID b) Initializing)
          (terraform Init b (fun result e =>
             match e with
             | Some e =>
                 SendResult {| id := ID b; terraformResult := result;
                               err := Some e |}
                   (Return None)
             | None =>
                 SendStatus (status_line (ID b) Applying)
                   (terraform Apply b (fun result e =>
                      SendResult {| id := ID b; terraformResult := result;
                                    err := e |}
                        (Return None)))
             end))
    end).

(** The closure of [plan].  It reads everything from its saved copy [b],
    except the hooks, which it reads from the range variable [e]. *)
Definition plan_fn (session : Session) (detach : bool)
           (b e : boundExecution) : prog :=
  newTerraformSession b (fun er =>
    match er with
    | Some er =>
        SendResult {| id := ID b; terraformResult := None; err := Some er |}
          (Return None)
    | None =>
        preModuleRun session b (PreModuleRun (Hooks (moduleConfig e)))
          (fun _ => None)
          (SendStatus (status_line (ID b) Initializing)
             (terraform Init b (fun result er =>
                match er with
                | Some er =>
                    SendResult {| id := ID b; terraformResult := result;
                                  err := Some er |}
                      (Return None)
                | None =>
                    let planning :=
                      SendStatus (status_line (ID b) Planning)
                        (terraform Plan b (fun result er =>
                           SendResult {| id := ID b; terraformResult := result;
                                         err := er |}
                             (Return None))) in
                    if detach then
                      SendStatus (status_line (ID b) DisconnectingRemoteState)
                        (terraform Detach b (fun result er =>
                           match er with
                           | Some er =>
                               SendResult {| id := ID b;
                                             terraformResult := result;
                                             err := Some er |}
                                 (Return None)
                           | None => planning
                           end))
                    else planning
                end)))
    end).

(** The vertices of the dependency graph. *)
Inductive Vertex :=
| graphNodeRoot
| execution (b : boundExecution).

(** The callback [applyWithGraph] hands to graph.Walk. *)
Definition walk_fn (session : Session) (vertex : Vertex) : prog :=
  match vertex with
  | graphNodeRoot => Return None
  | execution b =>
      newTerraformSession b (fun e =>
        match e with
        | Some e =>
            SendResult {| id := ID b; terraformResult := None; err := Some e |}
              (Return (Some e))
        | None =>
            preModuleRun session b (PreModuleRun (Hooks (moduleConfig b)))
              (fun e => Some e)
              (SendStatus (status_line (ID b) Initializing)
                 (terraform Init b (fun result e =>
                    match e with
                    | Some e =>
                        SendResult {| id := ID b; terraformResult := result;
                                      err := Some e |}
                          (Return (Some e))
                    | None =>
                        SendStatus (status_line (ID b) Applying)
                          (terraform Apply b (fun result e =>
                             SendResult {| id := ID b;
                                           terraformResult := result;
                                           err := e |}
                               (Return e)))
                    end)))
        end)
  end.

(** ** The three runners *)

(** A graph: [edges] holds (a, b) when vertex number a must complete before
    vertex number b. *)
Record Graph := {
  vertices : list Vertex;
  edges : list (nat * nat)
}.

Inductive scheduler :=
| Parallel (width : nat)             (* utils.Parallel(ctx, width, fns...) *)
| Walk (deps : list (nat * nat)).    (* graph.Walk(callback) *)

(** What a runner sets up before it returns: the closures, the channel
    capacities, who schedules the closures, and whether the goroutine that
    waits on session.signalChan was started. *)
Record run := {
  fns : list prog;
  status_cap : nat;
  results_cap : nat;
  sched : scheduler;
  handles_signals : bool
}.

(** What a runner returns: the two channels (by capacity; None is nil) and
    the error; [spawned] is what it left running. *)
Record returned := {
  ret_status : option nat;
  ret_results : option nat;
  ret_err : option error;
  spawned : option run
}.

Definition launched (r : run) : returned :=
  {| ret_status := Some (status_cap r); ret_results := Some (results_cap r);
     ret_err := None; spawned := Some r |}.

(** Go before 1.22 has one range variable per loop, which the closures of
    [plan] see with its last value once the loop is over; since 1.22 each
    iteration has its own. *)
Inductive loopvar := PerLoop | PerIteration.

Definition captured (lv : loopvar) (boundExecutions : list boundExecution)
           (b : boundExecution) : boundExecution :=
  match lv with
  | PerIteration => b
  | PerLoop => last boundExecutions b
  end.

Definition apply_run (boundExecutions : list boundExecution) : run :=
  let numberOfExecutions := length boundExecutions in
  {| fns := map apply_fn boundExecutions;
     status_cap := numberOfExecutions * 10;
     results_cap := numberOfExecutions;
     sched := Parallel 10;
     handles_signals := true |}.

Definition apply (session : Session) (boundExecutions : list boundExecution)
  : returned :=
  launched (apply_run boundExecutions).

Definition plan_run (lv : loopvar) (session : Session)
           (boundExecutions : list boundExecution) (detach : bool) : run :=
  let numberOfExecutions := length boundExecutions in
  {| fns := map (fun b => plan_fn session detach b
                            (captured lv boundExecutions b))
                boundExecutions;
     status_cap := numberOfExecutions * 10;
     results_cap := numberOfExecutions;
     sched := Parallel 10;
     handles_signals := true |}.

Definition plan (lv : loopvar) (session : Session)
           (boundExecutions : list boundExecution) (detach : bool) : returned :=
  launched (plan_run lv session boundExecutions detach).

Definition graph_run (session : Session) (numberOfExecutions : nat)
           (graph : Graph) : run :=
  {| fns := map (walk_fn session) (vertices graph);
     status_cap := numberOfExecutions * 10;
     results_cap := numberOfExecutions;
     sched := Walk (edges graph);
     handles_signals := false |}.

Section ApplyWithGraph.
(** executionSet.graph() is defined outside sessions.go: it either fails
    or yields the dependency graph of the executions. *)
Variable graph : list boundExecution -> error + Graph.

Definition applyWithGraph (session : Session)
           (boundExecutions : list boundExecution) : returned :=
  let executions := boundExecutions in
  match graph executions with
  | inl e =>
      {| ret_status := None; ret_results := None; ret_err := Some e;
         spawned := None |}
  | inr g => launched (graph_run session (length executions) g)
  end.
End ApplyWithGraph.

Local Open Scope list_scope.
Local Open Scope nat_scope.

(** ** The running system

    The goroutines of a run, the two channels, the signal channel of the
    session with the goroutine that waits on it, and the process's standard
    output.  [trace] records every operation of every closure, in the order
    the operations happen, with the number of the closure. *)

Inductive tstate :=
| Pending                        (* not started *)
| Running (p : prog)             (* started; [p] is what remains to do *)
| Finished (e : option error)    (* returned (with [e], for a callback) *)
| Skipped.                       (* the walker will never call it *)

Inductive hstate :=
| Absent                         (* no goroutine waits on signalChan *)
| Listening                      (* blocked in sig := <-session.signalChan *)
| Received (sig : Signal)
| Printed (sig : Signal)
| Cancelled (sig : Signal).      (* cancel() was called; the goroutine ended *)

Record state := {
  threads : list tstate;
  trace : list (nat * op);
  status : list string;
  status_closed : bool;
  results : list Result;
  results_closed : bool;
  signalChan : list Signal;
  handler : hstate;
  ctx_done : bool;
  stdout : list string;
  range_status_ended : bool
}.

(** The start of a run that is alone on its session: the session is as
    NewSession made it, with an empty signalChan, and the only goroutine
    that waits on the channel is the one this run starts. *)
Definition init (r : run) : state :=
  {| threads := map (fun _ => Pending) (fns r);
     trace := [];
     status := []; status_closed := false;
     results := []; results_closed := false;
     signalChan := [];
     handler := if handles_signals r then Listening else Absent;
     ctx_done := false;
     stdout := [];
     range_status_ended := false |}.

Fixpoint update {A : Type} (l : list A) (i : nat) (x : A) : list A :=
  match l, i with
  | [], _ => []
  | _ :: l', 0 => x :: l'
  | y :: l', S i' => y :: update l' i' x
  end.

Definition set_thread (s : state) (i : nat) (t : tstate) : state :=
  {| threads := update (threads s) i t;
     trace := trace s;
     status := status s; status_closed := status_closed s;
     results := results s; results_closed := results_closed s;
     signalChan := signalChan s; handler := handler s;
     ctx_done := ctx_done s; stdout := stdout s;
     range_status_ended := range_status_ended s |}.

(** Closure [i] performs [o] and goes on as [p]. *)
Definition performs (s : state) (i : nat) (o : op) (p : prog) : state :=
  {| threads := update (threads s) i (Running p);
     trace := (trace s ++ [(i, o)])%list;
     status := match o with
               | OpStatus line => (status s ++ [line])%list
               | _ => status s
               end;
     status_closed := status_closed s;
     results := match o with
                | OpResult r => (results s ++ [r])%list
                | _ => results s
                end;
     results_closed := results_closed s;
     signalChan := signalChan s; handler := handler s;
     ctx_done := ctx_done s; stdout := stdout s;
     range_status_ended := range_status_ended s |}.

Definition set_channels (s : state) (st : list string) (rs : list Result)
           (rc : bool) (ended : bool) : state :=
  {| threads := threads s; trace := trace s;
     status := st; status_closed := status_closed s;
     results := rs; results_closed := rc;
     signalChan := signalChan s; handler := handler s;
     ctx_done := ctx_done s; stdout := stdout s;
     range_status_ended := ended |}.

Definition set_signals (s : state) (ch : list Signal) (h : hstate)
           (done : bool) (out : list string) : state :=
  {| threads := threads s; trace := trace s;
     status := status s; status_closed := status_closed s;
     results := results s; results_closed := results_closed s;
     signalChan := ch; handler := h;
     ctx_done := done; stdout := out;
     range_status_ended := range_status_ended s |}.

Definition is_pending (t : tstate) : bool :=
  match t with Pending => true | _ => false end.
Definition is_running (t : tstate) : bool :=
  match t with Running _ => true | _ => false end.
Definition succeeded (t : tstate) : bool :=
  match t with Finished None => true | _ => false end.
Definition failed (t : tstate) : bool :=
  match t with Finished (Some _) | Skipped => true | _ => false end.
Definition settled (t : tstate) : bool :=
  match t with Finished _ | Skipped => true | _ => false end.

Definition thread_is (f : tstate -> bool) (s : state) (a : nat) : bool :=
  match nth_error (threads s) a with
  | Some t => f t
  | None => false
  end.

(** The vertices that must complete before vertex [i]. *)
Definition preds (deps : list (nat * nat)) (i : nat) : list nat :=
  map fst (filter (fun e => Nat.eqb (snd e) i) deps).

Definition count_running (ts : list tstate) : nat :=
  List.length (filter is_running ts).

(** Modelled from the spec: utils.Parallel and the walker of the dag package
    are not among the sources.  Section 4.4: the pool has a fixed width and,
    once the token is cancelled, closures that have not started do not start.
    Section 4.3: the walker calls a vertex once all its predecessors have
    returned without error, and skips the vertices below a failed (or
    skipped) one. *)
Definition can_start (r : run) (s : state) (i : nat) : bool :=
  match sched r with
  | Parallel width =>
      negb (ctx_done s) && (count_running (threads s) <? width)
  | Walk deps => forallb (thread_is succeeded s) (preds deps i)
  end.

(** Modelled from the spec: the walker's skip rule (section 4.3); the pool
    skips nothing. *)
Definition must_skip (r : run) (s : state) (i : nat) : bool :=
  match sched r with
  | Parallel _ => false
  | Walk deps => existsb (thread_is failed s) (preds deps i)
  end.

(** Modelled from the spec: when utils.Parallel and graph.Walk return, which
    is when the deferred close(results) runs.  The pool returns when nothing
    is in flight and nothing more will start; the walk returns when every
    vertex was called or skipped. *)
Definition scheduler_returned (r : run) (s : state) : bool :=
  match sched r with
  | Parallel _ =>
      forallb (fun t => negb (is_running t) &&
                        (ctx_done s || negb (is_pending t))) (threads s)
  | Walk _ => forallb settled (threads s)
  end.

Inductive action :=
| Start (i : nat)                 (* the scheduler starts closure i *)
| Skip (i : nat)                  (* the walker gives up vertex i *)
| Step (i : nat) (result : option TerraformResult) (e : option error)
                                  (* closure i performs its next operation;
                                     a collaborator answers (result, e) *)
| CloseResults                    (* the deferred close(results) *)
| ReceiveStatus                   (* some consumer receives from status *)
| ReceiveResult                   (* some consumer receives from results *)
| RangeStatusEnds                 (* a [for range status] loop terminates *)
| Deliver (sig : Signal)          (* the runtime delivers a signal *)
| Handle.                         (* the signal goroutine moves on *)

Definition step_closure (r : run) (s : state) (i : nat)
           (result : option TerraformResult) (e : option error)
  : option state :=
  match nth_error (threads s) i with
  | Some (Running p) =>
      match p with
      | Return e' => Some (set_thread s i (Finished e'))
      | SendStatus line k =>
          if status_closed s then None
          else if List.length (status s) <? status_cap r
               then Some (performs s i (OpStatus line) k)
               else None
      | SendResult res k =>
          if results_closed s then None
          else if List.length (results s) <? results_cap r
               then Some (performs s i (OpResult res) k)
               else None
      | newTerraformSession b k =>
          Some (performs s i (OpNewTerraformSession b) (k e))
      | runCommandkAndSetEnvironment dir hook k =>
          Some (performs s i (OpRunCommand dir hook) (k e))
      | terraform c b k =>
          Some (performs s i (OpTerraform c b) (k result e))
      end
  | _ => None
  end.

Definition step_handler (s : state) : option state :=
  match handler s with
  | Listening =>
      match signalChan s with
      | sig :: rest =>
          Some (set_signals s rest (Received sig) (ctx_done s) (stdout s))
      | [] => None
      end
  | Received sig =>
      Some (set_signals s (signalChan s) (Printed sig) (ctx_done s)
                        (stdout s ++ [notice sig])%list)
  | Printed sig =>
      Some (set_signals s (signalChan s) (Cancelled sig) true (stdout s))
  | Cancelled _ | Absent => None
  end.

Definition do_action (r : run) (s : state) (a : action) : option state :=
  match a with
  | Start i =>
      match nth_error (threads s) i, nth_error (fns r) i with
      | Some Pending, Some f =>
          if can_start r s i then Some (set_thread s i (Running f)) else None
      | _, _ => None
      end
  | Skip i =>
      match nth_error (threads s) i with
      | Some Pending =>
          if must_skip r s i then Some (set_thread s i Skipped) else None
      | _ => None
      end
  | Step i result e => step_closure r s i result e
  | CloseResults =>
      if negb (results_closed s) && scheduler_returned r s
      then Some (set_channels s (status s) (results s) true
                              (range_status_ended s))
      else None
  | ReceiveStatus =>
      match status s with
      | _ :: rest =>
          Some (set_channels s rest (results s) (results_closed s)
                             (range_status_ended s))
      | [] => None
      end
  | ReceiveResult =>
      match results s with
      | _ :: rest =>
          Some (set_channels s (status s) rest (results_closed s)
                             (range_status_ended s))
      | [] => None
      end
  | RangeStatusEnds =>
      match status s with
      | [] => if status_closed s
              then Some (set_channels s [] (results s) (results_closed s) true)
              else None
      | _ :: _ => None
      end
  | Deliver sig =>
      (* signal.Notify never blocks: a full channel loses the signal *)
      if List.length (signalChan s) <? 1
      then Some (set_signals s (signalChan s ++ [sig])%list (handler s)
                             (ctx_done s) (stdout s))
      else Some s
  | Handle => step_handler s
  end.

Fixpoint run_actions (r : run) (s : state) (acts : list action)
  : option state :=
  match acts with
  | [] => Some s
  | a :: acts' =>
      match do_action r s a with
      | Some s' => run_actions r s' acts'
      | None => None
      end
  end.

Definition reaches (r : run) (s s' : state) : Prop :=
  exists acts, run_actions r s acts = Some s'.

Definition reachable (r : run) (s : state) : Prop := reaches r (init r) s.

(** ** Transitions, one constructor per kind of move *)

Inductive op_step : prog -> op -> prog -> Prop :=
| os_status line k : op_step (SendStatus line k) (OpStatus line) k
| os_result res k : op_step (SendResult res k) (OpResult res) k
| os_session b k e :
    op_step (newTerraformSession b k) (OpNewTerraformSession b) (k e)
| os_command dir hook k e :
    op_step (runCommandkAndSetEnvironment dir hook k) (OpRunCommand dir hook)
            (k e)
| os_terraform c b k result e :
    op_step (terraform c b k) (OpTerraform c b) (k result e).

(** A send needs an open channel with room in its buffer. *)
Definition room (r : run) (s : state) (o : op) : Prop :=
  match o with
  | OpStatus _ =>
      status_closed s = false /\ List.length (status s) < status_cap r
  | OpResult _ =>
      results_closed s = false /\ List.length (results s) < results_cap r
  | _ => True
  end.

Inductive transition (r : run) (s : state) : state -> Prop :=
| t_start i f :
    nth_error (threads s) i = Some Pending ->
    nth_error (fns r) i = Some f ->
    can_start r s i = true ->
    transition r s (set_thread s i (Running f))
| t_skip i :
    nth_error (threads s) i = Some Pending ->
    must_skip r s i = true ->
    transition r s (set_thread s i Skipped)
| t_return i e :
    nth_error (threads s) i = Some (Running (Return e)) ->
    transition r s (set_thread s i (Finished e))
| t_perform i p o p' :
    nth_error (threads s) i = Some (Running p) ->
    op_step p o p' -> room r s o ->
    transition r s (performs s i o p')
| t_close :
    results_closed s = false -> scheduler_returned r s = true ->
    transition r s (set_channels s (status s) (results s) true
                                 (range_status_ended s))
| t_receive_status x rest :
    status s = x :: rest ->
    transition r s (set_channels s rest (results s) (results_closed s)
                                 (range_status_ended s))
| t_receive_result x rest :
    results s = x :: rest ->
    transition r s (set_channels s (status s) rest (results_closed s)
                                 (range_status_ended s))
| t_range_ends :
    status s = [] -> status_closed s = true ->
    transition r s (set_channels s [] (results s) (results_closed s) true)
| t_deliver sig :
    List.length (signalChan s) < 1 ->
    transition r s (set_signals s (signalChan s ++ [sig]) (handler s)
                                (ctx_done s) (stdout s))
| t_lost : transition r s s
| t_receive_signal sig rest :
    handler s = Listening -> signalChan s = sig :: rest ->
    transition r s (set_signals s rest (Received sig) (ctx_done s) (stdout s))
| t_print sig :
    handler s = Received sig ->
    transition r s (set_signals s (signalChan s) (Printed sig) (ctx_done s)
                                (stdout s ++ [notice sig]))
| t_cancel sig :
    handler s = Printed sig ->
    transition r s (set_signals s (signalChan s) (Cancelled sig) true
                                (stdout s)).

Lemma do_action_transition (r : run) (s s' : state) (a : action) :
  do_action r s a = Some s' -> transition r s s'.
Proof.
  destruct a as [i|i|i result e| | | | |sig|]; cbn [do_action].
  - destruct (nth_error (threads s) i) as [[| | |]|] eqn:Ht; try discriminate.
    destruct (nth_error (fns r) i) as [f|] eqn:Hf; try discriminate.
    destruct (can_start r s i) eqn:Hc; try discriminate.
    intros [= <-]. eapply t_start; eauto.
  - destruct (nth_error (threads s) i) as [[| | |]|] eqn:Ht; try discriminate.
    destruct (must_skip r s i) eqn:Hc; try discriminate.
    intros [= <-]. eapply t_skip; eauto.
  - unfold step_closure.
    destruct (nth_error (threads s) i) as [[|p| |]|] eqn:Ht; try discriminate.
    destruct p as [e'|line k|res k|b k|dir hook k|c b k].
    + intros [= <-]. eapply t_return; eauto.
    + destruct (status_closed s) eqn:Hc; try discriminate.
      destruct (Nat.ltb_spec (List.length (status s)) (status_cap r));
        try discriminate.
      intros [= <-]. eapply t_perform; eauto; [constructor|split; auto].
    + destruct (results_closed s) eqn:Hc; try discriminate.
      destruct (Nat.ltb_spec (List.length (results s)) (results_cap r));
        try discriminate.
      intros [= <-]. eapply t_perform; eauto; [constructor|split; auto].
    + intros [= <-]. eapply t_perform; eauto; [constructor|exact I].
    + intros [= <-]. eapply t_perform; eauto; [constructor|exact I].
    + intros [= <-]. eapply t_perform; eauto; [constructor|exact I].
  - destruct (results_closed s) eqn:Hc; cbn [negb andb]; try discriminate.
    destruct (scheduler_returned r s) eqn:Hr; try discriminate.
    intros [= <-]. apply t_close; auto.
  - destruct (status s) eqn:E; try discriminate.
    intros [= <-]. eapply t_receive_status; eauto.
  - destruct (results s) eqn:E; try discriminate.
    intros [= <-]. eapply t_receive_result; eauto.
  - destruct (status s) eqn:E; try discriminate.
    destruct (status_closed s) eqn:Hc; try discriminate.
    intros [= <-]. apply t_range_ends; auto.
  - destruct (Nat.ltb_spec (List.length (signalChan s)) 1); intros [= <-].
    + apply t_deliver; auto.
    + apply t_lost.
  - unfold step_handler.
    destruct (handler s) eqn:Hh; try discriminate.
    + destruct (signalChan s) eqn:E; try discriminate.
      intros [= <-]. eapply t_receive_signal; eauto.
    + intros [= <-]. apply t_print; auto.
    + intros [= <-]. apply t_cancel; auto.
Qed.

Lemma run_actions_app (r : run) (s : state) (acts acts' : list action) :
  run_actions r s (acts ++ acts') =
  match run_actions r s acts with
  | Some s' => run_actions r s' acts'
  | None => None
  end.
Proof.
  revert s. induction acts as [|a acts IH]; intros s; cbn [app run_actions]; auto.
  destruct (do_action r s a); auto.
Qed.

Lemma reaches_refl (r : run) (s : state) : reaches r s s.
Proof. exists []. reflexivity. Qed.

Lemma reaches_trans (r : run) (s1 s2 s3 : state) :
  reaches r s1 s2 -> reaches r s2 s3 -> reaches r s1 s3.
Proof.
  intros [a1 H1] [a2 H2]. exists (a1 ++ a2).
  rewrite run_actions_app, H1. exact H2.
Qed.

Lemma reaches_step (r : run) (s s' : state) (a : action) :
  do_action r s a = Some s' -> reaches r s s'.
Proof. intros H. exists [a]. cbn [run_actions]. rewrite H. reflexivity. Qed.

(** Induction over the states met along a run. *)
Lemma reaches_ind_strong (r : run) (s0 : state) (P : state -> Prop) :
  P s0 ->
  (forall s s', reaches r s0 s -> reaches r s0 s' -> P s ->
                transition r s s' -> P s') ->
  forall s, reaches r s0 s -> P s.
Proof.
  intros H0 Hstep s [acts Hacts]. revert s Hacts.
  induction acts as [|a acts IH] using rev_ind; intros s Hacts.
  - cbn in Hacts. injection Hacts as <-. exact H0.
  - pose proof Hacts as Hfull. rewrite run_actions_app in Hacts.
    destruct (run_actions r s0 acts) as [s1|] eqn:E; [|discriminate].
    cbn [run_actions] in Hacts.
    destruct (do_action r s1 a) as [s2|] eqn:Ha; [|discriminate].
    injection Hacts as <-.
    apply (Hstep s1 s2);
      [exists acts; exact E | exists (acts ++ [a]); exact Hfull
      | apply IH; reflexivity |].
    eapply do_action_transition; eauto.
Qed.

Lemma reaches_ind (r : run) (s0 : state) (P : state -> Prop) :
  P s0 ->
  (forall s s', reaches r s0 s -> P s -> transition r s s' -> P s') ->
  forall s, reaches r s0 s -> P s.
Proof.
  intros H0 Hstep. apply reaches_ind_strong; [exact H0|].
  intros s s' Hs _. apply Hstep. exact Hs.
Qed.

(** ** Lists updated in place *)

Lemma update_length {A} (l : list A) (i : nat) (x : A) :
  List.length (update l i x) = List.length l.
Proof.
  revert i. induction l as [|y l IH]; intros [|i]; cbn [update List.length]; auto.
Qed.

Lemma update_same {A} (l : list A) (i : nat) (x y : A) :
  nth_error l i = Some y -> nth_error (update l i x) i = Some x.
Proof.
  revert i. induction l as [|z l IH]; intros [|i]; cbn; try discriminate; auto.
Qed.

Lemma update_other {A} (l : list A) (i j : nat) (x : A) :
  i <> j -> nth_error (update l i x) j = nth_error l j.
Proof.
  revert i j. induction l as [|z l IH]; intros [|i] [|j] H; cbn; auto.
  congruence.
Qed.

Lemma update_lookup {A} (l : list A) (i j : nat) (x : A) :
  nth_error (update l i x) j =
  if Nat.eqb i j then match nth_error l i with
                      | Some _ => Some x
                      | None => None
                      end
  else nth_error l j.
Proof.
  destruct (Nat.eqb_spec i j) as [<-|Hne].
  - destruct (nth_error l i) eqn:E.
    + eapply update_same; eauto.
    + apply nth_error_None. rewrite update_length. apply nth_error_None. auto.
  - apply update_other. auto.
Qed.

(** ** What a closure has done so far *)

(** [exec f ops p]: starting as [f], a closure performs [ops] and has [p]
    left to do. *)
Inductive exec : prog -> list op -> prog -> Prop :=
| exec_nil p : exec p [] p
| exec_cons p o p' ops p'' :
    op_step p o p' -> exec p' ops p'' -> exec p (o :: ops) p''.

Lemma exec_snoc (f p p' : prog) (ops : list op) (o : op) :
  exec f ops p -> op_step p o p' -> exec f (ops ++ [o]) p'.
Proof.
  induction 1 as [q|q o1 q1 ops q2 Hs He IH]; intros Ho; cbn [app].
  - econstructor; [eauto|constructor].
  - econstructor; eauto.
Qed.

(** The operations of closure [i] within a trace. *)
Definition ops_of (i : nat) (tr : list (nat * op)) : list op :=
  map snd (filter (fun x => Nat.eqb (fst x) i) tr).

Lemma ops_of_snoc (i j : nat) (o : op) (tr : list (nat * op)) :
  ops_of i (tr ++ [(j, o)]) =
  if Nat.eqb j i then ops_of i tr ++ [o] else ops_of i tr.
Proof.
  unfold ops_of. rewrite filter_app, map_app. cbn [filter fst].
  destruct (Nat.eqb j i); cbn [map snd]; auto using app_nil_r.
Qed.

Lemma ops_of_In (i : nat) (o : op) (tr : list (nat * op)) :
  In o (ops_of i tr) <-> In (i, o) tr.
Proof.
  unfold ops_of. rewrite in_map_iff. split.
  - intros ([j o'] & E & H). cbn in E. subst o'.
    apply filter_In in H as [H Hj]. cbn in Hj.
    apply Nat.eqb_eq in Hj. subst j. exact H.
  - intros H. exists (i, o). split; auto. apply filter_In. split; auto.
    cbn. apply Nat.eqb_refl.
Qed.

Definition thread_trace (f : prog) (t : tstate) (ops : list op) : Prop :=
  match t with
  | Pending | Skipped => ops = []
  | Running p => exec f ops p
  | Finished e => exec f ops (Return e)
  end.

(** Every closure is where its own operations in the trace lead. *)
Definition coherent (r : run) (s : state) : Prop :=
  List.length (threads s) = List.length (fns r) /\
  forall i f t,
    nth_error (fns r) i = Some f -> nth_error (threads s) i = Some t ->
    thread_trace f t (ops_of i (trace s)).

Lemma coherent_init (r : run) : coherent r (init r).
Proof.
  split; cbn [init threads trace].
  - apply length_map.
  - intros i f t _ Ht. rewrite nth_error_map in Ht.
    destruct (nth_error (fns r) i); cbn in Ht; [|discriminate].
    injection Ht as <-. reflexivity.
Qed.

Lemma coherent_step (r : run) (s s' : state) :
  coherent r s -> transition r s s' -> coherent r s'.
Proof.
  intros [Hlen Hc] Ht.
  destruct Ht as [i f Hi Hf Hs|i Hi Hs|i e Hi|i p o p' Hi Ho Hroom| | | | | | | | |];
    try (split; [exact Hlen|exact Hc]).
  - split; cbn [set_thread threads trace]; [rewrite update_length; auto|].
    intros j g t Hg Hj. rewrite update_lookup in Hj.
    destruct (Nat.eqb_spec i j) as [<-|Hne]; [|eauto].
    rewrite Hi in Hj. injection Hj as <-.
    specialize (Hc i g Pending Hg Hi). cbn in Hc. rewrite Hc.
    assert (f = g) by congruence. subst g. constructor.
  - split; cbn [set_thread threads trace]; [rewrite update_length; auto|].
    intros j g t Hg Hj. rewrite update_lookup in Hj.
    destruct (Nat.eqb_spec i j) as [<-|Hne]; [|eauto].
    rewrite Hi in Hj. injection Hj as <-.
    exact (Hc i g Pending Hg Hi).
  - split; cbn [set_thread threads trace]; [rewrite update_length; auto|].
    intros j g t Hg Hj. rewrite update_lookup in Hj.
    destruct (Nat.eqb_spec i j) as [<-|Hne]; [|eauto].
    rewrite Hi in Hj. injection Hj as <-.
    exact (Hc i g _ Hg Hi).
  - split; cbn [performs threads trace]; [rewrite update_length; auto|].
    intros j g t Hg Hj. rewrite update_lookup in Hj. rewrite ops_of_snoc.
    destruct (Nat.eqb_spec i j) as [<-|Hne]; [|eauto].
    rewrite Hi in Hj. injection Hj as <-.
    specialize (Hc i g _ Hg Hi). cbn in Hc |- *.
    eapply exec_snoc; eauto.
Qed.

Lemma reachable_coherent (r : run) (s : state) :
  reachable r s -> coherent r s.
Proof.
  apply reaches_ind; [apply coherent_init|].
  intros s1 s2 _. apply coherent_step.
Qed.

(** ** How many sends a closure may still make *)

(** [bounded p n m]: whatever the collaborators answer, [p] sends at most
    [n] status lines and at most [m] results. *)
Inductive bounded : prog -> nat -> nat -> Prop :=
| bounded_return e n m : bounded (Return e) n m
| bounded_status line k n m :
    bounded k n m -> bounded (SendStatus line k) (S n) m
| bounded_result res k n m :
    bounded k n m -> bounded (SendResult res k) n (S m)
| bounded_session b k n m :
    (forall e, bounded (k e) n m) -> bounded (newTerraformSession b k) n m
| bounded_command dir hook k n m :
    (forall e, bounded (k e) n m) ->
    bounded (runCommandkAndSetEnvironment dir hook k) n m
| bounded_terraform c b k n m :
    (forall result e, bounded (k result e) n m) -> bounded (terraform c b k) n m.

Lemma bounded_weaken (p : prog) (n m n' m' : nat) :
  bounded p n m -> n <= n' -> m <= m' -> bounded p n' m'.
Proof.
  intros H. revert n' m'.
  induction H; intros n' m' Hn Hm; try (constructor; eauto; fail).
  - destruct n' as [|n']; [lia|]. constructor. apply IHbounded; lia.
  - destruct m' as [|m']; [lia|]. constructor. apply IHbounded; lia.
Qed.

Definition status_sends (o : op) : nat :=
  match o with OpStatus _ => 1 | _ => 0 end.
Definition result_sends (o : op) : nat :=
  match o with OpResult _ => 1 | _ => 0 end.

Lemma bounded_step (p p' : prog) (o : op) (n m : nat) :
  bounded p n m -> op_step p o p' ->
  exists n' m', bounded p' n' m' /\
                n' + status_sends o = n /\ m' + result_sends o = m.
Proof.
  intros Hb Hs. destruct Hs; inversion Hb; subst; cbn [status_sends result_sends];
    eexists _, _; (split; [eauto|]); lia.
Qed.

Lemma bounded_hooks (session : Session) (b : boundExecution)
      (hooks : list string) (ret : error -> option error) (rest : prog)
      (n m : nat) :
  bounded rest n (S m) ->
  bounded (preModuleRun session b hooks ret rest) (List.length hooks + n) (S m).
Proof.
  intros Hrest. induction hooks as [|hook hooks IH]; cbn [preModuleRun List.length];
    [exact Hrest|].
  cbn [Nat.add]. constructor. constructor. intros [e|].
  - constructor. constructor.
  - exact IH.
Qed.

Ltac bound_sends :=
  repeat first
    [ apply bounded_return
    | apply bounded_status
    | apply bounded_result
    | apply bounded_session; intros [?|]
    | apply bounded_command; intros [?|]
    | apply bounded_terraform; intros ? [?|] ].

Lemma bounded_apply_fn (b : boundExecution) : bounded (apply_fn b) 2 1.
Proof. unfold apply_fn. bound_sends. Qed.

Definition hooks_of (b : boundExecution) : list string :=
  PreModuleRun (Hooks (moduleConfig b)).

Definition walk_status_bound (v : Vertex) : nat :=
  match v with
  | graphNodeRoot => 0
  | execution b => List.length (hooks_of b) + 2
  end.

Definition walk_result_bound (v : Vertex) : nat :=
  match v with
  | graphNodeRoot => 0
  | execution _ => 1
  end.

Lemma bounded_walk_fn (session : Session) (v : Vertex) :
  bounded (walk_fn session v) (walk_status_bound v) (walk_result_bound v).
Proof.
  destruct v as [|b]; cbn [walk_fn walk_status_bound walk_result_bound].
  - constructor.
  - apply bounded_session. intros [e|]; [bound_sends|].
    apply bounded_hooks. bound_sends.
Qed.

(** The sends all the closures of a run may still make, added up. *)
Definition thread_budget (t : tstate) (f : prog) (n m : nat) : Prop :=
  match t with
  | Pending => bounded f n m
  | Running p => bounded p n m
  | Finished _ | Skipped => True
  end.

Inductive budgeted : list tstate -> list prog -> nat -> nat -> Prop :=
| budgeted_nil : budgeted [] [] 0 0
| budgeted_cons t f ts fs n m N M :
    thread_budget t f n m -> budgeted ts fs N M ->
    budgeted (t :: ts) (f :: fs) (n + N) (m + M).

Lemma budgeted_lookup ts fs N M i t :
  budgeted ts fs N M -> nth_error ts i = Some t ->
  exists f n m, nth_error fs i = Some f /\ thread_budget t f n m /\
                n <= N /\ m <= M.
Proof.
  intros Hb. revert i. induction Hb as [|t0 f ts fs n m N M Ht Hb IH];
    intros [|i] Hi; cbn in Hi; try discriminate.
  - injection Hi as <-. exists f, n, m. cbn. repeat split; auto; lia.
  - destruct (IH i Hi) as (g & n' & m' & Hg & Hbud & Hn & Hm).
    exists g, n', m'. cbn. repeat split; auto; lia.
Qed.

Lemma budgeted_update ts fs N M i t t' dn dm :
  budgeted ts fs N M -> nth_error ts i = Some t ->
  (forall f n m, nth_error fs i = Some f -> thread_budget t f n m ->
     exists n' m', thread_budget t' f n' m' /\ n' + dn <= n /\ m' + dm <= m) ->
  exists N' M', budgeted (update ts i t') fs N' M' /\
                N' + dn <= N /\ M' + dm <= M.
Proof.
  intros Hb. revert i. induction Hb as [|t0 f ts fs n m N M Ht Hb IH];
    intros [|i] Hi Hstep; cbn in Hi; try discriminate.
  - injection Hi as ->.
    destruct (Hstep f n m eq_refl Ht) as (n' & m' & Ht' & Hn & Hm).
    exists (n' + N), (m' + M). cbn [update].
    split; [constructor; auto|]. lia.
  - destruct (IH i Hi) as (N' & M' & Hb' & HN & HM).
    { intros g. apply (Hstep g). }
    exists (n + N'), (m + M'). cbn [update].
    split; [constructor; auto|]. lia.
Qed.

Inductive static_budget : list prog -> nat -> nat -> Prop :=
| static_nil : static_budget [] 0 0
| static_cons f fs n m N M :
    bounded f n m -> static_budget fs N M ->
    static_budget (f :: fs) (n + N) (m + M).

Lemma budgeted_init (fs : list prog) (N M : nat) :
  static_budget fs N M -> budgeted (map (fun _ => Pending) fs) fs N M.
Proof. induction 1; cbn [map]; constructor; auto. Qed.

(** The buffers have room for everything that may still be sent. *)
Definition within_budget (r : run) (s : state) : Prop :=
  exists N M,
    budgeted (threads s) (fns r) N M /\
    List.length (status s) + N <= status_cap r /\
    List.length (results s) + M <= results_cap r.

Lemma within_budget_step (r : run) (s s' : state) :
  within_budget r s -> transition r s s' -> within_budget r s'.
Proof.
  intros (N & M & Hb & HN & HM) Ht.
  destruct Ht as [i f Hi Hf Hs|i Hi Hs|i e Hi|i p o p' Hi Ho Hroom| |x rest E
                 |x rest E|E Hc| | | | |];
    try (exists N, M; repeat split; auto; fail).
  - destruct (budgeted_update _ _ _ _ i Pending (Running f) 0 0 Hb Hi)
      as (N' & M' & Hb' & HN' & HM').
    { intros g n m Hg Hbud. exists n, m. cbn in *.
      assert (g = f) by congruence. subst g. repeat split; auto; lia. }
    exists N', M'. cbn [set_thread threads status results]. repeat split; auto; lia.
  - destruct (budgeted_update _ _ _ _ i Pending Skipped 0 0 Hb Hi)
      as (N' & M' & Hb' & HN' & HM').
    { intros g n m _ _. exists 0, 0. cbn. repeat split; auto; lia. }
    exists N', M'. cbn [set_thread threads status results]. repeat split; auto; lia.
  - destruct (budgeted_update _ _ _ _ i _ (Finished e) 0 0 Hb Hi)
      as (N' & M' & Hb' & HN' & HM').
    { intros g n m _ _. exists 0, 0. cbn. repeat split; auto; lia. }
    exists N', M'. cbn [set_thread threads status results]. repeat split; auto; lia.
  - destruct (budgeted_update _ _ _ _ i _ (Running p')
                              (status_sends o) (result_sends o) Hb Hi)
      as (N' & M' & Hb' & HN' & HM').
    { intros g n m _ Hbud. cbn in Hbud.
      destruct (bounded_step _ _ _ _ _ Hbud Ho) as (n' & m' & Hb' & Hn & Hm).
      exists n', m'. cbn. repeat split; auto; lia. }
    exists N', M'. cbn [performs threads status results].
    split; [exact Hb'|].
    destruct o; cbn [status_sends result_sends] in *;
      rewrite ?length_app; cbn [List.length]; lia.
  - exists N, M. cbn [set_channels threads status results].
    rewrite E in HN. cbn [List.length] in HN. repeat split; auto; lia.
  - exists N, M. cbn [set_channels threads status results].
    rewrite E in HM. cbn [List.length] in HM. repeat split; auto; lia.
  - exists N, M. cbn [set_channels threads status results].
    rewrite E in HN. repeat split; auto.
Qed.

(** ** Channels and signals along a run *)

Lemma forallb_nth {A} (f : A -> bool) (l : list A) (i : nat) (x : A) :
  forallb f l = true -> nth_error l i = Some x -> f x = true.
Proof.
  intros H Hi. rewrite forallb_forall in H. apply H.
  eapply nth_error_In; eauto.
Qed.

Lemma returned_no_running (r : run) (s : state) (i : nat) (p : prog) :
  scheduler_returned r s = true ->
  nth_error (threads s) i = Some (Running p) -> False.
Proof.
  unfold scheduler_returned. intros H Hi.
  destruct (sched r); pose proof (forallb_nth _ _ _ _ H Hi) as Hf;
    cbn in Hf; discriminate.
Qed.

Lemma returned_no_start (r : run) (s : state) (i : nat) :
  scheduler_returned r s = true ->
  nth_error (threads s) i = Some Pending -> can_start r s i = false.
Proof.
  unfold scheduler_returned, can_start. intros H Hi.
  destruct (sched r); pose proof (forallb_nth _ _ _ _ H Hi) as Hf; cbn in Hf.
  - rewrite orb_false_r in Hf. rewrite Hf. reflexivity.
  - discriminate.
Qed.

Lemma returned_no_skip (r : run) (s : state) (i : nat) :
  scheduler_returned r s = true ->
  nth_error (threads s) i = Some Pending -> must_skip r s i = false.
Proof.
  unfold scheduler_returned, must_skip. intros H Hi.
  destruct (sched r); [reflexivity|].
  pose proof (forallb_nth _ _ _ _ H Hi) as Hf. discriminate.
Qed.

Lemma returned_after_cancel (r : run) (s : state) ch h out :
  scheduler_returned r s = true ->
  scheduler_returned r (set_signals s ch h true out) = true.
Proof.
  unfold scheduler_returned. cbn [set_signals threads ctx_done].
  destruct (sched r); auto.
  rewrite !forallb_forall. intros H t Ht. specialize (H t Ht).
  apply andb_true_iff in H as [H _]. rewrite H. reflexivity.
Qed.

(** The status channel is never closed, no range over it ends, and results
    is closed only once the scheduler has returned. *)
Definition channels_ok (r : run) (s : state) : Prop :=
  status_closed s = false /\
  range_status_ended s = false /\
  (results_closed s = true -> scheduler_returned r s = true).

Lemma channels_ok_step (r : run) (s s' : state) :
  channels_ok r s -> transition r s s' -> channels_ok r s'.
Proof.
  intros (Hs & Hr & Hc) Ht.
  destruct Ht as [i f Hi Hf Hst|i Hi Hsk|i e Hi|i p o p' Hi Ho Hroom|Hcl Hret
                 |x rest E|x rest E|E Hcs|sig Hlen| |sig rest Hh E|sig Hh|sig Hh];
    try (repeat split; auto; fail).
  - repeat split; auto. cbn [set_thread results_closed]. intros Hcl.
    rewrite (returned_no_start r s i (Hc Hcl) Hi) in Hst. discriminate.
  - repeat split; auto. cbn [set_thread results_closed]. intros Hcl.
    rewrite (returned_no_skip r s i (Hc Hcl) Hi) in Hsk. discriminate.
  - repeat split; auto. cbn [set_thread results_closed]. intros Hcl.
    destruct (returned_no_running r s i _ (Hc Hcl) Hi).
  - repeat split; auto. cbn [performs results_closed]. intros Hcl.
    destruct (returned_no_running r s i _ (Hc Hcl) Hi).
  - congruence.
  - repeat split; auto. cbn [set_signals results_closed]. intros Hcl.
    apply returned_after_cancel. auto.
Qed.

Lemma channels_ok_init (r : run) : channels_ok r (init r).
Proof. repeat split. cbn. discriminate. Qed.

Lemma reachable_channels_ok (r : run) (s : state) :
  reachable r s -> channels_ok r s.
Proof.
  apply reaches_ind; [apply channels_ok_init|].
  intros s1 s2 _. apply channels_ok_step.
Qed.

(** Where the signal goroutine stands, and what it has done by then. *)
Definition signals_ok (r : run) (s : state) : Prop :=
  match handler s with
  | Absent => handles_signals r = false /\ stdout s = [] /\ ctx_done s = false
  | Listening | Received _ =>
      handles_signals r = true /\ stdout s = [] /\ ctx_done s = false
  | Printed sig =>
      handles_signals r = true /\ stdout s = [notice sig] /\ ctx_done s = false
  | Cancelled sig =>
      handles_signals r = true /\ stdout s = [notice sig] /\ ctx_done s = true
  end.

Lemma signals_ok_step (r : run) (s s' : state) :
  signals_ok r s -> transition r s s' -> signals_ok r s'.
Proof.
  unfold signals_ok. intros H Ht.
  destruct Ht as [i f Hi Hf Hst|i Hi Hsk|i e Hi|i p o p' Hi Ho Hroom|Hcl Hret
                 |x rest E|x rest E|E Hcs|sig Hlen| |sig rest Hh E|sig Hh|sig Hh];
    try exact H;
    cbn [set_signals handler stdout ctx_done]; rewrite Hh in H;
    destruct H as (H1 & H2 & H3); rewrite ?H2; auto.
Qed.

Lemma signals_ok_init (r : run) : signals_ok r (init r).
Proof.
  unfold signals_ok. cbn [init handler stdout ctx_done].
  destruct (handles_signals r); auto.
Qed.

Lemma reachable_signals_ok (r : run) (s : state) :
  reachable r s -> signals_ok r s.
Proof.
  apply reaches_ind; [apply signals_ok_init|].
  intros s1 s2 _. apply signals_ok_step.
Qed.

(** Once the token is cancelled it stays so, and under the pool a closure
    that has not started stays that way. *)
Lemma cancelled_step (r : run) (s s' : state) (width : nat) :
  sched r = Parallel width -> ctx_done s = true -> transition r s s' ->
  ctx_done s' = true /\
  forall i, nth_error (threads s) i = Some Pending ->
            nth_error (threads s') i = Some Pending.
Proof.
  intros Hsched Hdone Ht.
  destruct Ht as [i f Hi Hf Hst|i Hi Hsk|i e Hi|i p o p' Hi Ho Hroom|Hcl Hret
                 |x rest E|x rest E|E Hcs|sig Hlen| |sig rest Hh E|sig Hh|sig Hh];
    try (split; [assumption|auto]; fail).
  - unfold can_start in Hst. rewrite Hsched, Hdone in Hst. discriminate.
  - unfold must_skip in Hsk. rewrite Hsched in Hsk. discriminate.
  - split; [assumption|]. cbn [set_thread threads]. intros j Hj.
    rewrite update_other; auto. congruence.
  - split; [assumption|]. cbn [performs threads]. intros j Hj.
    rewrite update_other; auto. congruence.
  - split; [reflexivity|auto].
Qed.

Lemma cancelled_for_good (r : run) (s : state) (width : nat) :
  sched r = Parallel width -> ctx_done s = true ->
  forall s', reaches r s s' ->
    ctx_done s' = true /\
    forall i, nth_error (threads s) i = Some Pending ->
              nth_error (threads s') i = Some Pending.
Proof.
  intros Hsched Hdone. apply reaches_ind; [auto|].
  intros s1 s2 _ [Hd Hp] Ht.
  destruct (cancelled_step r s1 s2 width Hsched Hd Ht) as [Hd' Hp'].
  split; auto.
Qed.

(** After results is closed and status is drained nothing is sent any more. *)
Lemma quiet_after_close (r : run) (s : state) :
  reachable r s -> results_closed s = true -> status s = [] ->
  forall s', reaches r s s' -> results_closed s' = true /\ status s' = [].
Proof.
  intros Hs Hc He. apply reaches_ind_strong; [auto|].
  intros s1 s2 H1 _ (Hc1 & He1) Ht.
  assert (Hr1 : reachable r s1) by (eapply reaches_trans; eauto).
  destruct (reachable_channels_ok r s1 Hr1) as (Hsc & _ & Hret).
  specialize (Hret Hc1).
  destruct Ht as [i f Hi Hf Hst|i Hi Hsk|i e Hi|i p o p' Hi Ho Hroom|Hcl Hrt
                 |x rest E|x rest E|E Hcs|sig Hlen| |sig rest Hh E|sig Hh|sig Hh];
    try (split; assumption).
  - destruct (returned_no_running r s1 i _ Hret Hi).
  - congruence.
  - congruence.
  - split; [assumption|reflexivity].
Qed.

(** ** The three runners, side by side *)

Inductive route :=
| FlatApply                                  (* session.apply *)
| FlatPlan (lv : loopvar) (detach : bool)    (* session.plan *)
| DagApply (graph : Graph).                  (* session.applyWithGraph *)

Definition run_of (session : Session) (boundExecutions : list boundExecution)
           (rt : route) : run :=
  match rt with
  | FlatApply => apply_run boundExecutions
  | FlatPlan lv detach => plan_run lv session boundExecutions detach
  | DagApply graph =>
      graph_run session (List.length boundExecutions) graph
  end.

(** The executions among the vertices of a graph, in vertex order. *)
Definition executions_of (graph : Graph) : list boundExecution :=
  flat_map (fun v => match v with
                     | execution b => [b]
                     | graphNodeRoot => []
                     end) (vertices graph).

(** A small project: [users] has no dependency, [app] depends on [users]
    and runs one hook, [network] stands alone. *)
Definition demo_session : Session := {| path := "/repo/.astro/01A" |}.
Definition users : boundExecution :=
  {| ID := "users";
     moduleConfig := {| Name := "users"; Dependencies := [];
                        Hooks := {| PreModuleRun := [] |} |} |}.
Definition app : boundExecution :=
  {| ID := "app-east1-dev";
     moduleConfig := {| Name := "app"; Dependencies := ["users"];
                        Hooks := {| PreModuleRun := ["make assets"] |} |} |}.
Definition network : boundExecution :=
  {| ID := "network-east1-dev";
     moduleConfig := {| Name := "network"; Dependencies := [];
                        Hooks := {| PreModuleRun := [] |} |} |}.
Definition demo_executions : list boundExecution := [users; app; network].
Definition demo_graph : Graph :=
  {| vertices := [graphNodeRoot; execution users; execution app;
                  execution network];
     edges := [(0, 1); (0, 3); (1, 2)] |}.

(** The collaborator's answer "no result, no error". *)
Definition ok (i : nat) : action := Step i None None.
Definition fail (i : nat) (e : error) : action := Step i None (Some e).

(** C10. On the three paths (flat apply, flat plan, DAG apply) the status
    channel is never closed: results alone is closed, and only once no
    closure is in flight and none will start any more.  A consumer that
    ranges over status never sees the loop end, and once results is closed
    and status is drained it can neither receive nor leave the loop, in
    that state and in every later one. *)
Theorem status_never_closed
    (session : Session) (boundExecutions : list boundExecution) (rt : route)
    (s : state) :
  reachable (run_of session boundExecutions rt) s ->
  status_closed s = false /\
  range_status_ended s = false /\
  (results_closed s = true ->
     scheduler_returned (run_of session boundExecutions rt) s = true /\
     forall i p, nth_error (threads s) i <> Some (Running p)) /\
  (results_closed s = true -> status s = [] ->
     forall s', reaches (run_of session boundExecutions rt) s s' ->
       results_closed s' = true /\ status s' = [] /\
       do_action (run_of session boundExecutions rt) s' ReceiveStatus = None /\
       do_action (run_of session boundExecutions rt) s' RangeStatusEnds = None).
Proof.
  set (r := run_of session boundExecutions rt). intros Hs.
  destruct (reachable_channels_ok r s Hs) as (Hsc & Hre & Hret).
  split; [exact Hsc|]. split; [exact Hre|]. split.
  - intros Hc. split; [auto|].
    intros i p Hi. eapply returned_no_running; eauto.
  - intros Hc He s' Hs'.
    destruct (quiet_after_close r s Hs Hc He s' Hs') as [Hc' He'].
    assert (Hr' : reachable r s') by (eapply reaches_trans; eauto).
    destruct (reachable_channels_ok r s' Hr') as (Hsc' & _ & _).
    repeat split; auto; cbn [do_action]; rewrite He'; [|rewrite Hsc'];
      reflexivity.
Qed.

(** A flat plan of [users] run to its end, with the consumer of status
    having drained the two lines. *)
Definition plan_users_to_the_end : list action :=
  [Start 0; ok 0; ok 0; ok 0; ok 0; ok 0; ok 0; ok 0; CloseResults;
   ReceiveStatus; ReceiveStatus].

Lemma status_never_closed_witness :
  exists s,
    run_actions (run_of demo_session [users] (FlatPlan PerIteration false))
                (init (run_of demo_session [users] (FlatPlan PerIteration false)))
                plan_users_to_the_end = Some s /\
    results_closed s = true /\ status s = [] /\
    status_closed s = false /\
    do_action (run_of demo_session [users] (FlatPlan PerIteration false)) s
              RangeStatusEnds = None.
Proof.
  eexists. split; [vm_compute; reflexivity|].
  split; [reflexivity|]. split; [reflexivity|].
  match goal with
  | |- status_closed ?s = false /\ _ =>
      destruct (status_never_closed demo_session [users]
                  (FlatPlan PerIteration false) s) as (H1 & H2 & H3 & H4)
  end.
  - exists plan_users_to_the_end. vm_compute. reflexivity.
  - split; [exact H1|].
    apply (H4 eq_refl eq_refl). apply reaches_refl.
Defined.

(** ** Signals *)

(** X20. What [plan] and [apply] do with a signal when the run is alone on
    its session: the session is as NewSession made it, its channel empty and
    no goroutine of an earlier run waiting on it, which is the state [init]
    starts from.  The goroutine started by either takes the signal from
    session.signalChan, prints the notice once and cancels the token; from
    then on the pool starts nothing.  (What happens on a session that several
    runs share is the matter of [signals_on_a_shared_session].) *)
Lemma flat_runs_handle_signals
    (session : Session) (boundExecutions : list boundExecution)
    (lv : loopvar) (detach : bool) (r : run) (s : state) :
  r = apply_run boundExecutions \/
  r = plan_run lv session boundExecutions detach ->
  reachable r s ->
  (* the notice is printed at most once, and before the token is cancelled *)
  (stdout s = [] /\ ctx_done s = false \/
   exists sig, stdout s = [notice sig]) /\
  (* a signal in the channel is taken, announced and acted upon *)
  (forall sig rest, handler s = Listening -> signalChan s = sig :: rest ->
     exists s', run_actions r s [Handle; Handle; Handle] = Some s' /\
                stdout s' = [notice sig] /\ ctx_done s' = true /\
                threads s' = threads s) /\
  (* after the cancellation no closure starts *)
  (ctx_done s = true ->
     forall s', reaches r s s' ->
       ctx_done s' = true /\
       forall i, nth_error (threads s) i = Some Pending ->
                 nth_error (threads s') i = Some Pending).
Proof.
  intros Hr Hs. pose proof (reachable_signals_ok r s Hs) as Hok.
  assert (Hsched : sched r = Parallel 10) by (destruct Hr; subst; reflexivity).
  split; [|split].
  - unfold signals_ok in Hok.
    destruct (handler s); destruct Hok as (_ & Ho & Hc); eauto.
  - intros sig rest Hl Hch. unfold signals_ok in Hok. rewrite Hl in Hok.
    destruct Hok as (_ & Ho & _).
    cbn [run_actions do_action]. unfold step_handler. rewrite Hl, Hch.
    cbn [set_signals handler signalChan stdout ctx_done].
    eexists. split; [reflexivity|]. cbn. rewrite Ho. auto.
  - intros Hd. eapply cancelled_for_good; eauto.
Qed.

(** C5 on the third path.  [applyWithGraph] starts no goroutine on
    session.signalChan: a signal delivered during the walk stays in the
    channel, nothing is printed, nothing is cancelled, and vertices go on
    being started. *)
Theorem applyWithGraph_ignores_signals
    (session : Session) (numberOfExecutions : nat) (graph : Graph) (s : state) :
  reachable (graph_run session numberOfExecutions graph) s ->
  handler s = Absent /\ stdout s = [] /\ ctx_done s = false /\
  do_action (graph_run session numberOfExecutions graph) s Handle = None.
Proof.
  intros Hs. pose proof (reachable_signals_ok _ s Hs) as Hok.
  unfold signals_ok in Hok. cbn [graph_run handles_signals] in Hok.
  destruct (handler s) eqn:Hh; destruct Hok as (Hf & Ho & Hc);
    try discriminate.
  repeat split; auto. cbn [do_action]. unfold step_handler. rewrite Hh.
  reflexivity.
Qed.

(** SIGINT arrives while [users] is being applied under the graph. *)
Definition interrupted_walk : list action :=
  [Start 0; ok 0; Start 1; ok 1; ok 1; Deliver SIGINT; Start 3].

Lemma applyWithGraph_ignores_signals_witness :
  exists s,
    run_actions (graph_run demo_session 3 demo_graph)
                (init (graph_run demo_session 3 demo_graph))
                interrupted_walk = Some s /\
    signalChan s = [SIGINT] /\ stdout s = [] /\ ctx_done s = false /\
    thread_is is_running s 3 = true.
Proof.
  eexists. split; [vm_compute; reflexivity|].
  split; [reflexivity|].
  match goal with
  | |- stdout ?s = [] /\ _ =>
      destruct (applyWithGraph_ignores_signals demo_session 3 demo_graph s)
        as (H1 & H2 & H3 & H4)
  end.
  - exists interrupted_walk. vm_compute. reflexivity.
  - split; [exact H2|]. split; [exact H3|]. reflexivity.
Defined.

(** The same signal during a flat plan. *)
Example TestPlanInterrupted :
  exists s,
    run_actions (plan_run PerIteration demo_session demo_executions false)
                (init (plan_run PerIteration demo_session demo_executions false))
                [Start 0; ok 0; ok 0; Deliver SIGINT; Handle; Handle; Handle]
      = Some s /\
    stdout s = [notice SIGINT] /\
    notice_line SIGINT
      = "Received signal: interrupt, cancelling all operations..." /\
    ctx_done s = true /\
    do_action (plan_run PerIteration demo_session demo_executions false) s
              (Start 1) = None.
Proof. eexists. split; [vm_compute; reflexivity|]. repeat split. Qed.

(** ** Graph construction failing *)

(** C6. When executions.graph() fails, [applyWithGraph] returns that error
    at once: the status and the results channel it returns are both nil, and
    it has started nothing, so no execution closure runs. *)
Theorem applyWithGraph_graph_error
    (graph : list boundExecution -> error + Graph)
    (session : Session) (boundExecutions : list boundExecution) (e : error) :
  graph boundExecutions = inl e ->
  ret_err (applyWithGraph graph session boundExecutions) = Some e /\
  ret_status (applyWithGraph graph session boundExecutions) = None /\
  ret_results (applyWithGraph graph session boundExecutions) = None /\
  spawned (applyWithGraph graph session boundExecutions) = None.
Proof.
  intros Hg. unfold applyWithGraph. rewrite Hg. repeat split.
Qed.

(** A stand-in for executions.graph(): it reports the smallest cycle, a
    module that lists itself among its dependencies, and otherwise hangs
    every execution below the root. *)
Definition depends_on_itself (b : boundExecution) : bool :=
  existsb (fun d => d =? Name (moduleConfig b))%string
          (Dependencies (moduleConfig b)).

Definition demo_graph_builder (bs : list boundExecution) : error + Graph :=
  if existsb depends_on_itself bs
  then inl "cycle detected in dependency graph"
  else inr {| vertices := graphNodeRoot :: map execution bs;
              edges := map (fun i => (0, S i)) (seq 0 (List.length bs)) |}.

Definition ouroboros : boundExecution :=
  {| ID := "ouroboros";
     moduleConfig := {| Name := "ouroboros"; Dependencies := ["ouroboros"];
                        Hooks := {| PreModuleRun := [] |} |} |}.

Lemma applyWithGraph_graph_error_witness :
  ret_err (applyWithGraph demo_graph_builder demo_session [users; ouroboros])
    = Some "cycle detected in dependency graph" /\
  spawned (applyWithGraph demo_graph_builder demo_session [users; ouroboros])
    = None.
Proof.
  destruct (applyWithGraph_graph_error demo_graph_builder demo_session
              [users; ouroboros] "cycle detected in dependency graph" eq_refl)
    as (H1 & _ & _ & H4).
  split; [exact H1|exact H4].
Defined.

(** ** Buffer sizes *)

Lemma bounded_plan_fn_detach (session : Session) (detach : bool)
      (b e : boundExecution) :
  bounded (plan_fn session detach b e)
          (List.length (hooks_of e) + (if detach then 3 else 2)) 1.
Proof.
  unfold plan_fn. apply bounded_session. intros [er|]; [bound_sends|].
  apply bounded_hooks. destruct detach; bound_sends.
Qed.

(** The status lines one execution may need on each path. *)
Definition status_demand (rt : route) (b : boundExecution) : nat :=
  match rt with
  | FlatApply => 2
  | FlatPlan _ detach => List.length (hooks_of b) + (if detach then 3 else 2)
  | DagApply _ => List.length (hooks_of b) + 2
  end.

Lemma static_budget_uniform (fs : list prog) (c d : nat) :
  Forall (fun f => bounded f c d) fs ->
  static_budget fs (List.length fs * c) (List.length fs * d).
Proof.
  induction 1 as [|f fs Hf _ IH]; cbn [List.length Nat.mul]; constructor; auto.
Qed.

Lemma static_budget_walk (session : Session) (vs : list Vertex) :
  Forall (fun v => walk_status_bound v <= 10) vs ->
  static_budget (map (walk_fn session) vs)
    (List.length (executions_of {| vertices := vs; edges := [] |}) * 10)
    (List.length (executions_of {| vertices := vs; edges := [] |})).
Proof.
  unfold executions_of. cbn [vertices].
  induction 1 as [|v vs Hv _ IH]; cbn [map flat_map]; [constructor|].
  destruct v as [|b]; cbn [app List.length Nat.mul].
  - apply (static_cons _ _ 0 0); [constructor|exact IH].
  - apply (static_cons _ _ 10 1); [|exact IH].
    eapply bounded_weaken; [apply bounded_walk_fn|exact Hv|cbn; lia].
Qed.

Lemma last_In {A} (l : list A) (d : A) : l <> [] -> In (last l d) l.
Proof.
  induction l as [|x [|y l] IH]; intros H; [congruence|left; reflexivity|].
  right. apply IH. discriminate.
Qed.

Lemma captured_In (lv : loopvar) (bs : list boundExecution) (b : boundExecution) :
  In b bs -> In (captured lv bs b) bs.
Proof.
  intros Hb. destruct lv; cbn [captured]; auto.
  apply last_In. intros ->. destruct Hb.
Qed.

Lemma executions_of_In (g : Graph) (b : boundExecution) :
  In (execution b) (vertices g) -> In b (executions_of g).
Proof.
  intros H. unfold executions_of. apply in_flat_map.
  exists (execution b). split; [exact H|left; reflexivity].
Qed.

Lemma run_of_budget (session : Session) (bs : list boundExecution) (rt : route) :
  Forall (fun b => status_demand rt b <= 10) bs ->
  (forall g, rt = DagApply g -> executions_of g = bs) ->
  within_budget (run_of session bs rt) (init (run_of session bs rt)).
Proof.
  intros Hdem Hg. rewrite Forall_forall in Hdem.
  exists (List.length bs * 10), (List.length bs * 1).
  split; [|cbn [init status results List.length]; destruct rt; cbn; lia].
  apply budgeted_init. destruct rt as [|lv detach|g]; cbn [run_of].
  - cbn [apply_run fns].
    rewrite <- (length_map apply_fn bs) at 1 2.
    apply static_budget_uniform. apply Forall_forall. intros f Hf.
    apply in_map_iff in Hf as (b & <- & Hb).
    eapply bounded_weaken; [apply bounded_apply_fn|lia|lia].
  - cbn [plan_run fns].
    rewrite <- (length_map (fun b => plan_fn session detach b (captured lv bs b)) bs)
      at 1 2.
    apply static_budget_uniform. apply Forall_forall. intros f Hf.
    apply in_map_iff in Hf as (b & <- & Hb).
    eapply bounded_weaken; [apply bounded_plan_fn_detach| |lia].
    apply (Hdem (captured lv bs b)). apply captured_In; auto.
  - cbn [graph_run fns]. specialize (Hg g eq_refl).
    rewrite Nat.mul_1_r. rewrite <- Hg.
    pose proof (static_budget_walk session (vertices g)) as Hw.
    unfold executions_of in *. cbn [vertices] in Hw. apply Hw.
    apply Forall_forall. intros [|b] Hv; cbn [walk_status_bound]; [lia|].
    apply (Hdem b). rewrite <- Hg. apply executions_of_In. exact Hv.
Qed.

Lemma reachable_within_budget (session : Session) (bs : list boundExecution)
      (rt : route) (s : state) :
  Forall (fun b => status_demand rt b <= 10) bs ->
  (forall g, rt = DagApply g -> executions_of g = bs) ->
  reachable (run_of session bs rt) s ->
  within_budget (run_of session bs rt) s.
Proof.
  intros Hdem Hg. apply reaches_ind; [apply run_of_budget; auto|].
  intros s1 s2 _. apply within_budget_step.
Qed.

(** An execution whose module declares nine hooks. *)
Definition busy : boundExecution :=
  {| ID := "busy";
     moduleConfig :=
       {| Name := "busy"; Dependencies := [];
          Hooks := {| PreModuleRun :=
            ["h1"; "h2"; "h3"; "h4"; "h5"; "h6"; "h7"; "h8"; "h9"] |} |} |}.

(** C4 at a module with nine PreModuleRun hooks.  Plan one such execution
    and let nobody read the channels: status is created with capacity 10 (and
    results with capacity 1), the nine hook lines and [Initializing] fill
    status, and the closure then blocks on the send of [Planning], whatever
    the collaborators answer. *)
Lemma send_blocks_with_nine_hooks :
  exists s k,
    run_actions (plan_run PerIteration demo_session [busy] false)
                (init (plan_run PerIteration demo_session [busy] false))
                (Start 0 :: repeat (ok 0) 21) = Some s /\
    ret_status (plan PerIteration demo_session [busy] false) = Some 10 /\
    nth_error (threads s) 0
      = Some (Running (SendStatus (status_line "busy" Planning) k)) /\
    List.length (status s) = 10 /\
    forall result e,
      do_action (plan_run PerIteration demo_session [busy] false) s
                (Step 0 result e) = None.
Proof.
  eexists. eexists. split; [vm_compute; reflexivity|].
  split; [reflexivity|]. split; [reflexivity|]. split; [reflexivity|].
  intros result e. reflexivity.
Qed.

(** Where the buffers do suffice.  On each of the three paths the status
    channel is created with capacity 10 x N and the results channel with
    capacity N, for N bound executions.  When no execution needs more than
    ten status lines (which always holds for the flat apply, and holds for
    plan and for applyWithGraph when a module has at most 7, resp. 8,
    PreModuleRun hooks), no send blocks: every closure that was started can
    always perform its next operation, even when nobody reads the
    channels. *)
Theorem sends_never_block
    (session : Session) (boundExecutions : list boundExecution) (rt : route)
    (s : state) :
  Forall (fun b => status_demand rt b <= 10) boundExecutions ->
  (forall g, rt = DagApply g -> executions_of g = boundExecutions) ->
  reachable (run_of session boundExecutions rt) s ->
  status_cap (run_of session boundExecutions rt)
    = List.length boundExecutions * 10 /\
  results_cap (run_of session boundExecutions rt)
    = List.length boundExecutions /\
  (forall i p,
     nth_error (threads s) i = Some (Running p) ->
     forall result e,
       exists s', do_action (run_of session boundExecutions rt) s
                            (Step i result e) = Some s').
Proof.
  intros Hdem Hg Hs. set (r := run_of session boundExecutions rt) in *.
  split; [destruct rt; reflexivity|]. split; [destruct rt; reflexivity|].
  intros i p Hi result e.
  destruct (reachable_within_budget session boundExecutions rt s Hdem Hg Hs)
    as (N & M & Hb & HN & HM).
  destruct (reachable_channels_ok r s Hs) as (Hsc & _ & Hret).
  assert (Hrc : results_closed s = false).
  { destruct (results_closed s) eqn:E; auto.
    destruct (returned_no_running r s i p (Hret eq_refl) Hi). }
  destruct (budgeted_lookup _ _ _ _ i _ Hb Hi) as (f & n & m & _ & Hbud & Hn & Hm).
  cbn [thread_budget] in Hbud.
  cbn [do_action]. unfold step_closure. rewrite Hi.
  destruct p as [e'|line k|res k|b k|dir hook k|c b k]; eauto.
  - rewrite Hsc. inversion Hbud; subst.
    fold r in HN |- *.
    destruct (Nat.ltb_spec (List.length (status s)) (status_cap r)); eauto. lia.
  - rewrite Hrc. inversion Hbud; subst.
    fold r in HM |- *.
    destruct (Nat.ltb_spec (List.length (results s)) (results_cap r)); eauto. lia.
Qed.

Lemma sends_never_block_witness :
  exists s,
    run_actions (run_of demo_session demo_executions (DagApply demo_graph))
                (init (run_of demo_session demo_executions (DagApply demo_graph)))
                [Start 0; ok 0; Start 1; ok 1] = Some s /\
    exists s', do_action (run_of demo_session demo_executions (DagApply demo_graph))
                         s (Step 1 None None) = Some s'.
Proof.
  eexists. split; [vm_compute; reflexivity|].
  match goal with
  | |- exists s', do_action _ ?s _ = _ =>
      destruct (sends_never_block demo_session demo_executions
                  (DagApply demo_graph) s) as (_ & _ & H)
  end.
  - repeat constructor; cbn; lia.
  - intros g [= <-]. reflexivity.
  - exists [Start 0; ok 0; Start 1; ok 1]. vm_compute. reflexivity.
  - eapply (H 1). reflexivity.
Defined.

(** ** What the status lines of a closure look like *)

Definition statuses (ops : list op) : list string :=
  flat_map (fun o => match o with OpStatus line => [line] | _ => [] end) ops.

(** [scripted p l]: whatever the collaborators answer, the status lines [p]
    sends are, in order, the first lines of [l]. *)
Inductive scripted : prog -> list string -> Prop :=
| scripted_return e l : scripted (Return e) l
| scripted_status line k l :
    scripted k l -> scripted (SendStatus line k) (line :: l)
| scripted_result res k l : scripted k l -> scripted (SendResult res k) l
| scripted_session b k l :
    (forall e, scripted (k e) l) -> scripted (newTerraformSession b k) l
| scripted_command dir hook k l :
    (forall e, scripted (k e) l) ->
    scripted (runCommandkAndSetEnvironment dir hook k) l
| scripted_terraform c b k l :
    (forall result e, scripted (k result e) l) -> scripted (terraform c b k) l.

Lemma scripted_exec (f p : prog) (ops : list op) (l : list string) :
  exec f ops p -> scripted f l ->
  exists later, l = statuses ops ++ later /\ scripted p later.
Proof.
  intros He. revert l.
  induction He as [q|q o q' ops q'' Hs He IH]; intros l Hl.
  - exists l. split; auto.
  - destruct Hs; inversion Hl; subst;
      match goal with
      | H : scripted ?k ?l' |- _ => destruct (IH _ H) as (later & -> & Hp)
      | H : forall e, scripted _ ?l' |- _ =>
          destruct (IH l' (H _)) as (later & -> & Hp)
      | H : forall result e, scripted _ ?l' |- _ =>
          destruct (IH l' (H _ _)) as (later & -> & Hp)
      end;
      exists later; split; auto.
Qed.

Lemma scripted_hooks (session : Session) (b : boundExecution)
      (hooks : list string) (ret : error -> option error) (rest : prog)
      (l : list string) :
  scripted rest l ->
  scripted (preModuleRun session b hooks ret rest)
           (repeat (status_line (ID b) RunningPreModuleRunHook)
                   (List.length hooks) ++ l).
Proof.
  intros Hrest. induction hooks as [|hook hooks IH];
    cbn [preModuleRun List.length repeat app]; [exact Hrest|].
  constructor. constructor. intros [e|]; [|exact IH].
  constructor. constructor.
Qed.

Ltac follow_script :=
  repeat first
    [ apply scripted_return
    | apply scripted_status
    | apply scripted_result
    | apply scripted_session; intros [?|]
    | apply scripted_command; intros [?|]
    | apply scripted_terraform; intros ? [?|] ].

(** The phases of one execution on each path, in order.  On the plan path
    the hooks are those of the execution [e] the closure finds in the range
    variable. *)
Definition phases (rt : route) (boundExecutions : list boundExecution)
           (b : boundExecution) : list phase :=
  match rt with
  | FlatApply => [Initializing; Applying]
  | FlatPlan lv detach =>
      repeat RunningPreModuleRunHook
             (List.length (hooks_of (captured lv boundExecutions b)))
      ++ [Initializing]
      ++ (if detach then [DisconnectingRemoteState] else [])
      ++ [Planning]
  | DagApply _ =>
      repeat RunningPreModuleRunHook (List.length (hooks_of b))
      ++ [Initializing; Applying]
  end.

(** The closure that stands for execution [b] on a path. *)
Definition closure_of (session : Session) (rt : route)
           (boundExecutions : list boundExecution) (b : boundExecution) : prog :=
  match rt with
  | FlatApply => apply_fn b
  | FlatPlan lv detach =>
      plan_fn session detach b (captured lv boundExecutions b)
  | DagApply _ => walk_fn session (execution b)
  end.

(** Closure number [i] of the run stands for execution [b]. *)
Definition execution_at (rt : route) (boundExecutions : list boundExecution)
           (i : nat) (b : boundExecution) : Prop :=
  match rt with
  | FlatApply | FlatPlan _ _ => nth_error boundExecutions i = Some b
  | DagApply g => nth_error (vertices g) i = Some (execution b)
  end.

Lemma execution_closure (session : Session) (rt : route)
      (bs : list boundExecution) (i : nat) (b : boundExecution) :
  execution_at rt bs i b ->
  nth_error (fns (run_of session bs rt)) i = Some (closure_of session rt bs b).
Proof.
  destruct rt as [|lv detach|g]; cbn [execution_at run_of closure_of];
    intros H; cbn [apply_run plan_run graph_run fns];
    rewrite nth_error_map, H; reflexivity.
Qed.

Lemma map_repeat {A B} (f : A -> B) (x : A) (n : nat) :
  map f (repeat x n) = repeat (f x) n.
Proof. induction n; cbn; congruence. Qed.

Lemma scripted_closure (session : Session) (rt : route)
      (bs : list boundExecution) (b : boundExecution) :
  scripted (closure_of session rt bs b)
           (map (status_line (ID b)) (phases rt bs b)).
Proof.
  destruct rt as [|lv detach|g]; cbn [closure_of phases].
  - unfold apply_fn. cbn [map]. follow_script.
  - unfold plan_fn. rewrite map_app, map_repeat.
    apply scripted_session. intros [er|]; [follow_script|].
    apply scripted_hooks. destruct detach; cbn [map app]; follow_script.
  - cbn [walk_fn]. rewrite map_app, map_repeat.
    apply scripted_session. intros [er|]; [follow_script|].
    apply scripted_hooks. cbn [map]. follow_script.
Qed.

(** The status channel is first-in first-out: it holds the lines sent so
    far, in the order they were sent, less those already received. *)
Definition lines_sent (tr : list (nat * op)) : list string :=
  statuses (map snd tr).

Lemma status_fifo (r : run) (s : state) :
  reachable r s -> exists received, lines_sent (trace s) = received ++ status s.
Proof.
  apply (reaches_ind r (init r)
           (fun s => exists received,
                       lines_sent (trace s) = received ++ status s));
    [exists []; reflexivity|].
  intros s1 s2 _ (received & E) Ht.
  destruct Ht as [i f Hi Hf Hst|i Hi Hsk|i e Hi|i p o p' Hi Ho Hroom|Hcl Hret
                 |x rest Ex|x rest Ex|Ex Hcs|sig Hlen| |sig rest Hh Ex|sig Hh|sig Hh];
    try (exists received; exact E).
  - cbn [performs trace status]. unfold lines_sent, statuses in *.
    rewrite map_app, flat_map_app, E. cbn [map snd flat_map].
    destruct o; rewrite ?app_nil_r; try (exists received; reflexivity).
    exists received. rewrite <- app_assoc. reflexivity.
  - cbn [set_channels trace status]. exists (received ++ [x]).
    rewrite E, Ex, <- app_assoc. reflexivity.
  - cbn [set_channels trace status]. exists received. rewrite E, Ex. reflexivity.
Qed.

Lemma string_app_inv_head (a x y : string) :
  (a ++ x)%string = (a ++ y)%string -> x = y.
Proof. induction a as [|c a IH]; cbn; intros H; [auto|]. injection H. auto. Qed.

Lemma status_line_phase (i : string) (ph ph' : phase) :
  status_line i ph = status_line i ph' -> ph = ph'.
Proof.
  unfold status_line. intros H.
  apply (string_app_inv_head "[") in H. apply string_app_inv_head in H.
  apply (string_app_inv_head "] ") in H.
  destruct ph, ph'; try reflexivity; discriminate.
Qed.

(** C8. On every path the status lines of one execution go out in phase
    order: they are, at any moment, the first lines of
    (one [Running PreModuleRun hook] per hook,) [Initializing],
    ([Disconnecting remote state] when detach is requested,) [Planning]
    on the plan path, and of (the hook lines,) [Initializing], [Applying] on
    the apply paths; [Disconnecting remote state] is sent only by a plan
    with detach; each line reads [<id>] <phase>...; and the channel hands
    the lines over in the order they were sent. *)
Theorem status_phase_order
    (session : Session) (boundExecutions : list boundExecution) (rt : route)
    (s : state) (i : nat) (b : boundExecution) :
  reachable (run_of session boundExecutions rt) s ->
  execution_at rt boundExecutions i b ->
  (exists later,
     map (fun ph => "[" ++ ID b ++ "] " ++ phase_text ph ++ "...")%string
         (phases rt boundExecutions b)
     = statuses (ops_of i (trace s)) ++ later) /\
  (In (status_line (ID b) DisconnectingRemoteState)
      (statuses (ops_of i (trace s))) ->
   exists lv, rt = FlatPlan lv true) /\
  (exists received, lines_sent (trace s) = received ++ status s).
Proof.
  intros Hs Hb.
  assert (Hpre : exists later,
             map (status_line (ID b)) (phases rt boundExecutions b)
             = statuses (ops_of i (trace s)) ++ later).
  { destruct (reachable_coherent _ s Hs) as [Hlen Hc].
    pose proof (execution_closure session rt boundExecutions i b Hb) as Hf.
    destruct (nth_error (threads s) i) as [t|] eqn:Ht.
    - specialize (Hc i _ t Hf Ht).
      pose proof (scripted_closure session rt boundExecutions b) as Hscr.
      destruct t as [|p|e|]; cbn [thread_trace] in Hc.
      + rewrite Hc. eexists. reflexivity.
      + destruct (scripted_exec _ _ _ _ Hc Hscr) as (later & E & _). eauto.
      + destruct (scripted_exec _ _ _ _ Hc Hscr) as (later & E & _). eauto.
      + rewrite Hc. eexists. reflexivity.
    - exfalso. apply nth_error_None in Ht.
      assert (i < List.length (fns (run_of session boundExecutions rt)))
        by (apply nth_error_Some; congruence).
      lia. }
  split; [exact Hpre|]. split; [|eapply status_fifo; eauto].
  intros Hin. destruct Hpre as (later & E).
  assert (Hin' : In (status_line (ID b) DisconnectingRemoteState)
                    (map (status_line (ID b)) (phases rt boundExecutions b)))
    by (rewrite E; apply in_or_app; left; exact Hin).
  apply in_map_iff in Hin' as (ph & Hph & Hin').
  apply status_line_phase in Hph. subst ph.
  destruct rt as [|lv detach|g]; cbn [phases] in Hin'.
  - destruct Hin' as [H|[H|[]]]; discriminate.
  - exists lv. destruct detach; [reflexivity|].
    apply in_app_or in Hin' as [H|H].
    + apply repeat_spec in H. discriminate.
    + destruct H as [H|[H|[]]]; discriminate.
  - apply in_app_or in Hin' as [H|H].
    + apply repeat_spec in H. discriminate.
    + destruct H as [H|[H|[]]]; discriminate.
Qed.

(** A plan with detach of [app], which has one hook, run to its end. *)
Lemma status_phase_order_witness :
  exists s,
    run_actions (run_of demo_session [app] (FlatPlan PerIteration true))
                (init (run_of demo_session [app] (FlatPlan PerIteration true)))
                (Start 0 :: repeat (ok 0) 11) = Some s /\
    lines_sent (trace s) =
      ["[app-east1-dev] Running PreModuleRun hook...";
       "[app-east1-dev] Initializing...";
       "[app-east1-dev] Disconnecting remote state...";
       "[app-east1-dev] Planning..."] /\
    exists later,
      ["[app-east1-dev] Running PreModuleRun hook...";
       "[app-east1-dev] Initializing...";
       "[app-east1-dev] Disconnecting remote state...";
       "[app-east1-dev] Planning..."]
      = statuses (ops_of 0 (trace s)) ++ later.
Proof.
  eexists. split; [vm_compute; reflexivity|]. split; [reflexivity|].
  match goal with
  | |- exists later, _ = statuses (ops_of 0 (trace ?s)) ++ later =>
      destruct (status_phase_order demo_session [app]
                  (FlatPlan PerIteration true) s 0 app) as (H & _)
  end.
  - exists (Start 0 :: repeat (ok 0) 11). vm_compute. reflexivity.
  - reflexivity.
  - exact H.
Defined.

(** ** Hooks *)

Lemma trace_in_range (r : run) (s : state) :
  reachable r s ->
  forall j o, In (j, o) (trace s) -> j < List.length (fns r).
Proof.
  apply (reaches_ind_strong r (init r)
           (fun s => forall j o, In (j, o) (trace s) -> j < List.length (fns r)));
    [intros j o []|].
  intros s1 s2 H1 _ IH Ht.
  destruct (reachable_coherent r s1 H1) as [Hlen _].
  destruct Ht as [i f Hi Hf Hst|i Hi Hsk|i e Hi|i p o p' Hi Ho Hroom|Hcl Hret
                 |x rest Ex|x rest Ex|Ex Hcs|sig Hlen'| |sig rest Hh Ex|sig Hh|sig Hh];
    try exact IH.
  cbn [performs trace]. intros j o' Hin. apply in_app_or in Hin as [Hin|Hin];
    [eauto|].
  destruct Hin as [[= <- <-]|[]]. rewrite <- Hlen.
  apply nth_error_Some. congruence.
Qed.
















(** ** Results *)

Definition sent_results (ops : list op) : list Result :=
  flat_map (fun o => match o with OpResult r => [r] | _ => [] end) ops.

(** [reports i p n]: whatever happens, [p] sends exactly [n] more results
    before it returns, each under the id [i]. *)
Inductive reports (i : string) : prog -> nat -> Prop :=
| reports_return e : reports i (Return e) 0
| reports_status line k n : reports i k n -> reports i (SendStatus line k) n
| reports_result res k n :
    id res = i -> reports i k n -> reports i (SendResult res k) (S n)
| reports_session b k n :
    (forall e, reports i (k e) n) -> reports i (newTerraformSession b k) n
| reports_command dir hook k n :
    (forall e, reports i (k e) n) ->
    reports i (runCommandkAndSetEnvironment dir hook k) n
| reports_terraform c b k n :
    (forall result e, reports i (k result e) n) -> reports i (terraform c b k) n.

Lemma reports_exec (i : string) (f p : prog) (ops : list op) (n : nat) :
  exec f ops p -> reports i f n ->
  exists m, reports i p m /\
            List.length (sent_results ops) + m = n /\
            forall r, In r (sent_results ops) -> id r = i.
Proof.
  intros He. revert n.
  induction He as [q|q o q' ops q'' Hs He IH]; intros n Hf.
  - exists n. repeat split; auto. intros r [].
  - destruct Hs; inversion Hf; subst;
      match goal with
      | H : reports _ ?k ?n' |- _ => destruct (IH _ H) as (m & Hp & Hl & Hid)
      | H : forall e, reports _ _ ?n' |- _ =>
          destruct (IH n' (H _)) as (m & Hp & Hl & Hid)
      | H : forall result e, reports _ _ ?n' |- _ =>
          destruct (IH n' (H _ _)) as (m & Hp & Hl & Hid)
      end;
      exists m; cbn [sent_results flat_map app List.length];
      fold (sent_results ops); repeat split; auto; try lia.
    + change (S (List.length (sent_results ops)) + m = S n0). lia.
    + intros r [<-|Hr]; auto.
Qed.

Lemma reports_hooks (session : Session) (b : boundExecution)
      (hooks : list string) (ret : error -> option error) (rest : prog) :
  reports (ID b) rest 1 ->
  reports (ID b) (preModuleRun session b hooks ret rest) 1.
Proof.
  intros Hrest. induction hooks as [|hook hooks IH]; cbn [preModuleRun];
    [exact Hrest|].
  constructor. constructor. intros [e|]; [|exact IH].
  constructor; [reflexivity|constructor].
Qed.

Ltac one_result :=
  repeat first
    [ apply reports_return
    | apply reports_status
    | apply reports_result; [reflexivity|]
    | apply reports_session; intros [?|]
    | apply reports_command; intros [?|]
    | apply reports_terraform; intros ? [?|] ].

(** Every closure delivers exactly one Result, under the id of its
    execution. *)
Lemma reports_closure (session : Session) (rt : route)
      (bs : list boundExecution) (b : boundExecution) :
  reports (ID b) (closure_of session rt bs b) 1.
Proof.
  destruct rt as [|lv detach|g]; cbn [closure_of].
  - unfold apply_fn. one_result.
  - unfold plan_fn. apply reports_session. intros [er|]; [one_result|].
    apply reports_hooks. destruct detach; one_result.
  - cbn [walk_fn]. apply reports_session. intros [er|]; [one_result|].
    apply reports_hooks. one_result.
Qed.

Lemma sent_results_In (ops : list op) (r : Result) :
  In r (sent_results ops) <-> In (OpResult r) ops.
Proof.
  unfold sent_results. rewrite in_flat_map. split.
  - intros (o & Ho & Hr). destruct o; cbn in Hr; try contradiction.
    destruct Hr as [<-|[]]. exact Ho.
  - intros H. exists (OpResult r). split; [exact H|left; reflexivity].
Qed.

(** ** The walk *)

Definition started (t : tstate) : bool :=
  match t with Running _ | Finished _ => true | _ => false end.

Lemma preds_In (deps : list (nat * nat)) (a b : nat) :
  In a (preds deps b) <-> In (a, b) deps.
Proof.
  unfold preds. rewrite in_map_iff. split.
  - intros ([a' b'] & E & H). cbn in E. subst a'.
    apply filter_In in H as [H Hb]. cbn in Hb. apply Nat.eqb_eq in Hb.
    subst b'. exact H.
  - intros H. exists (a, b). split; auto. apply filter_In. split; auto.
    cbn. apply Nat.eqb_refl.
Qed.

Lemma thread_is_update (f : tstate -> bool) (s : state) (i j : nat)
      (t t' : tstate) (s' : state) :
  threads s' = update (threads s) i t' ->
  nth_error (threads s) i = Some t ->
  thread_is f s' j = if Nat.eqb i j then f t' else thread_is f s j.
Proof.
  intros E Hi. unfold thread_is. rewrite E, update_lookup, Hi.
  destruct (Nat.eqb i j); reflexivity.
Qed.

(** Under the walker a vertex is started only after all its predecessors
    have returned without error. *)
Definition deps_respected (deps : list (nat * nat)) (s : state) : Prop :=
  forall a b, In (a, b) deps ->
    thread_is started s b = true -> thread_is succeeded s a = true.

Lemma deps_respected_update (deps : list (nat * nat)) (s s' : state)
      (i : nat) (t t' : tstate) :
  deps_respected deps s ->
  threads s' = update (threads s) i t' ->
  nth_error (threads s) i = Some t ->
  succeeded t = false ->
  (started t' = true ->
   started t = true \/ forallb (thread_is succeeded s) (preds deps i) = true) ->
  deps_respected deps s'.
Proof.
  intros Hd E Hi Hns Hst a b Hab Hb.
  rewrite (thread_is_update _ s i b t t' s' E Hi) in Hb.
  rewrite (thread_is_update _ s i a t t' s' E Hi).
  assert (Ha : thread_is succeeded s a = true).
  { destruct (Nat.eqb_spec i b) as [<-|Hne].
    - destruct (Hst Hb) as [H|H].
      + apply (Hd a i Hab). unfold thread_is. rewrite Hi. exact H.
      + rewrite forallb_forall in H. apply H. apply preds_In. exact Hab.
    - apply (Hd a b Hab Hb). }
  destruct (Nat.eqb_spec i a) as [<-|Hne]; [|exact Ha].
  unfold thread_is in Ha. rewrite Hi in Ha. congruence.
Qed.

Lemma deps_respected_step (r : run) (deps : list (nat * nat)) (s s' : state) :
  sched r = Walk deps ->
  deps_respected deps s -> transition r s s' -> deps_respected deps s'.
Proof.
  intros Hsched Hd Ht.
  destruct Ht as [i f Hi Hf Hst|i Hi Hsk|i e Hi|i p o p' Hi Ho Hroom|Hcl Hret
                 |x rest Ex|x rest Ex|Ex Hcs|sig Hlen| |sig rest Hh Ex|sig Hh|sig Hh];
    try exact Hd.
  - apply (deps_respected_update deps s (set_thread s i (Running f)) i Pending (Running f)
             Hd eq_refl Hi eq_refl).
    intros _. right. unfold can_start in Hst. rewrite Hsched in Hst. exact Hst.
  - apply (deps_respected_update deps s (set_thread s i Skipped) i Pending Skipped
             Hd eq_refl Hi eq_refl).
    discriminate.
  - apply (deps_respected_update deps s (set_thread s i (Finished e)) i
             (Running (Return e)) (Finished e)
             Hd eq_refl Hi eq_refl).
    auto.
  - apply (deps_respected_update deps s (performs s i o p') i (Running p) (Running p')
             Hd eq_refl Hi eq_refl).
    auto.
Qed.

Lemma reachable_deps_respected (r : run) (deps : list (nat * nat)) (s : state) :
  sched r = Walk deps -> reachable r s -> deps_respected deps s.
Proof.
  intros Hsched.
  apply (reaches_ind r (init r) (deps_respected deps)).
  - intros a b _ Hb. unfold thread_is in Hb. cbn [init threads] in Hb.
    rewrite nth_error_map in Hb. destruct (nth_error (fns r) b); discriminate.
  - intros s1 s2 _. apply deps_respected_step. exact Hsched.
Qed.

(** [above deps a b]: vertex [b] can be reached from vertex [a] along at
    least one edge. *)
Inductive above (deps : list (nat * nat)) : nat -> nat -> Prop :=
| above_edge a b : In (a, b) deps -> above deps a b
| above_more a b c : above deps a b -> In (b, c) deps -> above deps a c.

(** A vertex that returned, or was skipped, stays as it is. *)
Lemma settled_stable (r : run) (s : state) (i : nat) (t : tstate) :
  nth_error (threads s) i = Some t -> settled t = true ->
  forall s', reaches r s s' -> nth_error (threads s') i = Some t.
Proof.
  intros Hi Hset.
  apply (reaches_ind r s (fun s' => nth_error (threads s') i = Some t));
    [exact Hi|].
  intros s1 s2 _ H1 Ht.
  destruct Ht as [j f Hj Hf Hst|j Hj Hsk|j e Hj|j p o p' Hj Ho Hroom|Hcl Hret
                 |x rest Ex|x rest Ex|Ex Hcs|sig Hlen| |sig rest Hh Ex|sig Hh|sig Hh];
    try exact H1;
    cbn [set_thread performs threads]; rewrite update_other; auto;
    intros <-; rewrite H1 in Hj; injection Hj as ->; discriminate.
Qed.

(** A skipped vertex lies below a vertex whose callback returned an error. *)
Definition skips_justified (deps : list (nat * nat)) (s : state) : Prop :=
  forall b, nth_error (threads s) b = Some Skipped ->
    exists a e, above deps a b /\
                nth_error (threads s) a = Some (Finished (Some e)).

Lemma skips_justified_update (deps : list (nat * nat)) (s s' : state)
      (i : nat) (t t' : tstate) :
  skips_justified deps s ->
  threads s' = update (threads s) i t' ->
  nth_error (threads s) i = Some t ->
  settled t = false ->
  (t' = Skipped ->
   exists a e, above deps a i /\
               nth_error (threads s) a = Some (Finished (Some e))) ->
  skips_justified deps s'.
Proof.
  intros Hj E Hi Hns Hsk b Hb. rewrite E in Hb |- *.
  assert (Hold : exists a e, above deps a b /\
                   nth_error (threads s) a = Some (Finished (Some e))).
  { rewrite update_lookup, Hi in Hb.
    destruct (Nat.eqb_spec i b) as [Heq|Hne].
    - subst b. injection Hb as Hb. auto.
    - apply Hj. exact Hb. }
  destruct Hold as (a & e & Hab & Ha). exists a, e. split; auto.
  rewrite update_other; auto. intros <-. rewrite Hi in Ha.
  injection Ha as ->. discriminate.
Qed.

Lemma skips_justified_step (r : run) (deps : list (nat * nat)) (s s' : state) :
  sched r = Walk deps ->
  skips_justified deps s -> transition r s s' -> skips_justified deps s'.
Proof.
  intros Hsched Hj Ht.
  destruct Ht as [i f Hi Hf Hst|i Hi Hsk|i e Hi|i p o p' Hi Ho Hroom|Hcl Hret
                 |x rest Ex|x rest Ex|Ex Hcs|sig Hlen| |sig rest Hh Ex|sig Hh|sig Hh];
    try exact Hj.
  - apply (skips_justified_update deps s (set_thread s i (Running f)) i Pending (Running f)
             Hj eq_refl Hi eq_refl).
    discriminate.
  - apply (skips_justified_update deps s (set_thread s i Skipped) i Pending Skipped
             Hj eq_refl Hi eq_refl).
    intros _. unfold must_skip in Hsk. rewrite Hsched in Hsk.
    apply existsb_exists in Hsk as (a & Ha & Hf).
    apply preds_In in Ha. unfold thread_is in Hf.
    destruct (nth_error (threads s) a) as [[| |[e|]|]|] eqn:Hta;
      try discriminate.
    + exists a, e. split; [apply above_edge; auto|exact Hta].
    + destruct (Hj a Hta) as (a' & e & Hab & Ha').
      exists a', e. split; [eapply above_more; eauto|exact Ha'].
  - apply (skips_justified_update deps s (set_thread s i (Finished e)) i
             (Running (Return e)) (Finished e)
             Hj eq_refl Hi eq_refl).
    discriminate.
  - apply (skips_justified_update deps s (performs s i o p') i (Running p) (Running p')
             Hj eq_refl Hi eq_refl).
    discriminate.
Qed.

Lemma reachable_skips_justified (r : run) (deps : list (nat * nat)) (s : state) :
  sched r = Walk deps -> reachable r s -> skips_justified deps s.
Proof.
  intros Hsched.
  apply (reaches_ind r (init r) (skips_justified deps)).
  - intros b Hb. cbn [init threads] in Hb. rewrite nth_error_map in Hb.
    destruct (nth_error (fns r) b); discriminate.
  - intros s1 s2 _. apply skips_justified_step. exact Hsched.
Qed.

(** Nothing below a vertex that did not return without error is started. *)
Lemma below_failure_not_started (deps : list (nat * nat)) (s : state)
      (a b : nat) :
  deps_respected deps s -> above deps a b ->
  thread_is succeeded s a = false -> thread_is started s b = false.
Proof.
  intros Hd Hab Ha. induction Hab as [a b Hab|a b c Hab IH Hbc].
  - destruct (thread_is started s b) eqn:E; auto.
    rewrite (Hd a b Hab E) in Ha. discriminate.
  - specialize (IH Ha).
    destruct (thread_is started s c) eqn:E; auto.
    pose proof (Hd b c Hbc E) as Hb. unfold thread_is in *.
    destruct (nth_error (threads s) b) as [[| |[e|]|]|]; discriminate.
Qed.

Lemma snoc_split {A} (l l1 l2 : list A) (x y : A) :
  l ++ [x] = l1 ++ y :: l2 ->
  (l2 = [] /\ l = l1 /\ x = y) \/
  (exists l2', l2 = l2' ++ [x] /\ l = l1 ++ y :: l2').
Proof.
  induction l2 as [|z l2 _] using rev_ind; intros E.
  - left. apply app_inj_tail in E as [-> ->]. auto.
  - right. exists l2.
    change (l1 ++ y :: l2 ++ [z]) with (l1 ++ (y :: l2) ++ [z]) in E.
    rewrite app_assoc in E. apply app_inj_tail in E as [-> ->].
    split; reflexivity.
Qed.

Lemma reports_return_inv (i : string) (e : option error) (m : nat) :
  reports i (Return e) m -> m = 0.
Proof. inversion 1. reflexivity. Qed.

(** What the trace holds for a closure that stands for execution [b]. *)
Lemma closure_trace (session : Session) (bs : list boundExecution) (rt : route)
      (s : state) (i : nat) (b : boundExecution) :
  reachable (run_of session bs rt) s -> execution_at rt bs i b ->
  exists t, nth_error (threads s) i = Some t /\
            thread_trace (closure_of session rt bs b) t (ops_of i (trace s)).
Proof.
  intros Hs Hb. destruct (reachable_coherent _ s Hs) as [Hlen Hc].
  pose proof (execution_closure session rt bs i b Hb) as Hf.
  destruct (nth_error (threads s) i) as [t|] eqn:Ht.
  - exists t. split; [reflexivity|]. eapply Hc; eauto.
  - exfalso. apply nth_error_None in Ht.
    assert (i < List.length (fns (run_of session bs rt)))
      by (apply nth_error_Some; congruence).
    lia.
Qed.

(** A closure that returned has delivered its Result. *)
Lemma finished_reported (session : Session) (bs : list boundExecution)
      (rt : route) (s : state) (i : nat) (b : boundExecution)
      (e : option error) :
  reachable (run_of session bs rt) s -> execution_at rt bs i b ->
  nth_error (threads s) i = Some (Finished e) ->
  exists r, In (i, OpResult r) (trace s) /\ id r = ID b.
Proof.
  intros Hs Hb Hi.
  destruct (closure_trace session bs rt s i b Hs Hb) as (t & Ht & Htr).
  rewrite Hi in Ht. injection Ht as <-. cbn [thread_trace] in Htr.
  destruct (reports_exec _ _ _ _ _ Htr (reports_closure session rt bs b))
    as (m & Hm & Hlen & Hid).
  apply reports_return_inv in Hm. subst m.
  destruct (sent_results (ops_of i (trace s))) as [|r rs] eqn:E;
    [cbn in Hlen; lia|].
  exists r. split.
  - apply ops_of_In, sent_results_In. rewrite E. left. reflexivity.
  - apply Hid. left. reflexivity.
Qed.

(** Every Result a closure sends carries the id of its execution, and it
    sends at most one. *)
Lemma reported_once (session : Session) (bs : list boundExecution)
      (rt : route) (s : state) (i : nat) (b : boundExecution) :
  reachable (run_of session bs rt) s -> execution_at rt bs i b ->
  List.length (sent_results (ops_of i (trace s))) <= 1 /\
  forall r, In (i, OpResult r) (trace s) -> id r = ID b.
Proof.
  intros Hs Hb.
  destruct (closure_trace session bs rt s i b Hs Hb) as (t & Ht & Htr).
  assert (Hex : exists p, exec (closure_of session rt bs b)
                               (ops_of i (trace s)) p).
  { destruct t; cbn [thread_trace] in Htr;
      try (rewrite Htr; eexists; constructor); eauto. }
  destruct Hex as (p & Hex).
  destruct (reports_exec _ _ _ _ _ Hex (reports_closure session rt bs b))
    as (m & Hm & Hlen & Hid).
  split; [lia|]. intros r Hr. apply Hid.
  apply sent_results_In, ops_of_In. exact Hr.
Qed.

(** The root vertex performs nothing. *)
Lemma root_silent (session : Session) (bs : list boundExecution) (g : Graph)
      (s : state) (i : nat) (o : op) :
  reachable (run_of session bs (DagApply g)) s ->
  nth_error (vertices g) i = Some graphNodeRoot ->
  ~ In (i, o) (trace s).
Proof.
  intros Hs Hv Hin. destruct (reachable_coherent _ s Hs) as [Hlen Hc].
  assert (Hf : nth_error (fns (run_of session bs (DagApply g))) i
               = Some (Return None)).
  { cbn [run_of graph_run fns]. rewrite nth_error_map, Hv. reflexivity. }
  pose proof (trace_in_range _ s Hs i o Hin) as Hi.
  destruct (nth_error (threads s) i) as [t|] eqn:Ht;
    [|apply nth_error_None in Ht; lia].
  specialize (Hc i _ t Hf Ht). apply ops_of_In in Hin.
  destruct t; cbn [thread_trace] in Hc;
    try (rewrite Hc in Hin; destruct Hin);
    inversion Hc; subst;
    try match goal with H : _ = ops_of _ _ |- _ => rewrite <- H in Hin end;
    try destruct Hin;
    match goal with H : op_step (Return _) _ _ |- _ => inversion H end.
Qed.

(** Under the walker the Result of a dependency is sent before the Result
    of what depends on it. *)
Definition results_ordered (g : Graph) (s : state) : Prop :=
  forall a b ba, In (a, b) (edges g) ->
    nth_error (vertices g) a = Some (execution ba) ->
    forall tr1 rb tr2, trace s = tr1 ++ (b, OpResult rb) :: tr2 ->
      exists ra, In (a, OpResult ra) tr1 /\ id ra = ID ba.

Lemma reachable_results_ordered (session : Session)
      (bs : list boundExecution) (g : Graph) (s : state) :
  reachable (run_of session bs (DagApply g)) s -> results_ordered g s.
Proof.
  apply (reaches_ind_strong _ (init _) (results_ordered g)).
  - intros a b ba _ _ tr1 rb tr2 E. destruct tr1; discriminate.
  - intros s1 s2 H1 _ IH Ht.
    destruct Ht as [i f Hi Hf Hst|i Hi Hsk|i e Hi|i p o p' Hi Ho Hroom|Hcl Hret
                   |x rest Ex|x rest Ex|Ex Hcs|sig Hlen| |sig rest Hh Ex|sig Hh|sig Hh];
      try exact IH.
    intros a b ba Hab Hva tr1 rb tr2 E. cbn [performs trace] in E.
    apply snoc_split in E as [(_ & <- & [= -> ->])|(tr2' & _ & E)];
      [|eapply IH; eauto].
    pose proof (reachable_deps_respected (run_of session bs (DagApply g))
                  (edges g) s1 eq_refl H1) as Hd.
    assert (Hsa : thread_is succeeded s1 a = true).
    { apply (Hd a b Hab). unfold thread_is. rewrite Hi. reflexivity. }
    unfold thread_is in Hsa.
    destruct (nth_error (threads s1) a) as [[| |[e|]|]|] eqn:Hta;
      try discriminate.
    eapply (finished_reported session bs (DagApply g)); eauto.
Qed.

(** ** The walk comes to an end *)

Lemma bounded_exec (f p : prog) (ops : list op) (n m : nat) :
  exec f ops p -> bounded f n m -> bounded p n m.
Proof.
  induction 1 as [q|q o q' ops q'' Hs He IH]; intros Hb; [exact Hb|].
  apply IH. destruct (bounded_step _ _ _ _ _ Hb Hs) as (n' & m' & Hb' & Hn & Hm).
  eapply bounded_weaken; [exact Hb'|lia|lia].
Qed.

Lemma update_update {A} (l : list A) (i : nat) (x y : A) :
  update (update l i x) i y = update l i y.
Proof.
  revert i. induction l as [|z l IH]; intros [|i]; cbn [update]; auto.
  f_equal. apply IH.
Qed.

(** A consumer can always empty the two channels. *)
Lemma drain (r : run) (s : state) :
  exists s', reaches r s s' /\ status s' = [] /\ results s' = [] /\
             threads s' = threads s.
Proof.
  remember (List.length (status s) + List.length (results s)) as n eqn:En.
  revert s En. induction n as [|n IH]; intros s En.
  - exists s. split; [apply reaches_refl|].
    destruct (status s), (results s); cbn in En; try lia. auto.
  - destruct (status s) as [|x rest] eqn:Es.
    + destruct (results s) as [|y rest] eqn:Er; [cbn in En; lia|].
      destruct (IH (set_channels s (status s) rest (results_closed s)
                                 (range_status_ended s)))
        as (s' & Hr & H1 & H2 & H3).
      { cbn [set_channels status results]. rewrite Es. cbn in En |- *. lia. }
      exists s'. split; [|auto].
      eapply reaches_trans; [|exact Hr].
      apply (reaches_step r s _ ReceiveResult). cbn [do_action]. rewrite Er.
      reflexivity.
    + destruct (IH (set_channels s rest (results s) (results_closed s)
                                 (range_status_ended s)))
        as (s' & Hr & H1 & H2 & H3).
      { cbn [set_channels status results]. cbn in En. lia. }
      exists s'. split; [|auto].
      eapply reaches_trans; [|exact Hr].
      apply (reaches_step r s _ ReceiveStatus). cbn [do_action]. rewrite Es.
      reflexivity.
Qed.

(** A closure that was started can be driven to its return. *)
Lemma drive (r : run) (p : prog) (n m : nat) :
  bounded p n m ->
  (0 < status_cap r /\ 0 < results_cap r) \/ (n = 0 /\ m = 0) ->
  forall s i, reachable r s ->
    nth_error (threads s) i = Some (Running p) ->
    exists s' e, reaches r s s' /\
                 threads s' = update (threads s) i (Finished e).
Proof.
  induction 1 as [e n m|line k n m Hb IH|res k n m Hb IH|b k n m Hb IH
                 |dir hook k n m Hb IH|c b k n m Hb IH];
    intros Hcap s i Hs Hi.
  - exists (set_thread s i (Finished e)), e. split; [|reflexivity].
    apply (reaches_step r s _ (Step i None None)).
    cbn [do_action]. unfold step_closure. rewrite Hi. reflexivity.
  - destruct Hcap as [[Hc1 Hc2]|[Hn _]]; [|discriminate].
    destruct (drain r s) as (s1 & Hr1 & Hst & Hres & Hth).
    assert (Hs1 : reachable r s1) by (eapply reaches_trans; eauto).
    destruct (reachable_channels_ok r s1 Hs1) as (Hsc & _ & _).
    assert (Hi1 : nth_error (threads s1) i = Some (Running (SendStatus line k)))
      by (rewrite Hth; exact Hi).
    assert (Hdo : do_action r s1 (Step i None None)
                  = Some (performs s1 i (OpStatus line) k)).
    { cbn [do_action]. unfold step_closure. rewrite Hi1, Hsc, Hst.
      cbn [List.length]. destruct (Nat.ltb_spec 0 (status_cap r)); [auto|lia]. }
    destruct (IH (or_introl (conj Hc1 Hc2)) (performs s1 i (OpStatus line) k) i)
      as (s' & e & Hr' & Hth').
    { eapply reaches_trans; [exact Hs1|]. eapply reaches_step; eauto. }
    { cbn [performs threads]. eapply update_same; eauto. }
    exists s', e. split.
    + eapply reaches_trans; [exact Hr1|].
      eapply reaches_trans; [eapply reaches_step; eauto|exact Hr'].
    + rewrite Hth'. cbn [performs threads]. rewrite update_update, Hth.
      reflexivity.
  - destruct Hcap as [[Hc1 Hc2]|[_ Hm]]; [|discriminate].
    destruct (drain r s) as (s1 & Hr1 & Hst & Hres & Hth).
    assert (Hs1 : reachable r s1) by (eapply reaches_trans; eauto).
    assert (Hi1 : nth_error (threads s1) i = Some (Running (SendResult res k)))
      by (rewrite Hth; exact Hi).
    destruct (reachable_channels_ok r s1 Hs1) as (_ & _ & Hret).
    assert (Hrc : results_closed s1 = false).
    { destruct (results_closed s1) eqn:E; auto.
      destruct (returned_no_running r s1 i _ (Hret eq_refl) Hi1). }
    assert (Hdo : do_action r s1 (Step i None None)
                  = Some (performs s1 i (OpResult res) k)).
    { cbn [do_action]. unfold step_closure. rewrite Hi1, Hrc, Hres.
      cbn [List.length]. destruct (Nat.ltb_spec 0 (results_cap r)); [auto|lia]. }
    destruct (IH (or_introl (conj Hc1 Hc2)) (performs s1 i (OpResult res) k) i)
      as (s' & e & Hr' & Hth').
    { eapply reaches_trans; [exact Hs1|]. eapply reaches_step; eauto. }
    { cbn [performs threads]. eapply update_same; eauto. }
    exists s', e. split.
    + eapply reaches_trans; [exact Hr1|].
      eapply reaches_trans; [eapply reaches_step; eauto|exact Hr'].
    + rewrite Hth'. cbn [performs threads]. rewrite update_update, Hth.
      reflexivity.
  - assert (Hdo : do_action r s (Step i None None)
                  = Some (performs s i (OpNewTerraformSession b) (k None))).
    { cbn [do_action]. unfold step_closure. rewrite Hi. reflexivity. }
    destruct (IH None Hcap (performs s i (OpNewTerraformSession b) (k None)) i)
      as (s' & e & Hr' & Hth').
    { eapply reaches_trans; [exact Hs|]. eapply reaches_step; eauto. }
    { cbn [performs threads]. eapply update_same; eauto. }
    exists s', e. split.
    + eapply reaches_trans; [eapply reaches_step; eauto|exact Hr'].
    + rewrite Hth'. cbn [performs threads]. apply update_update.
  - assert (Hdo : do_action r s (Step i None None)
                  = Some (performs s i (OpRunCommand dir hook) (k None))).
    { cbn [do_action]. unfold step_closure. rewrite Hi. reflexivity. }
    destruct (IH None Hcap (performs s i (OpRunCommand dir hook) (k None)) i)
      as (s' & e & Hr' & Hth').
    { eapply reaches_trans; [exact Hs|]. eapply reaches_step; eauto. }
    { cbn [performs threads]. eapply update_same; eauto. }
    exists s', e. split.
    + eapply reaches_trans; [eapply reaches_step; eauto|exact Hr'].
    + rewrite Hth'. cbn [performs threads]. apply update_update.
  - assert (Hdo : do_action r s (Step i None None)
                  = Some (performs s i (OpTerraform c b) (k None None))).
    { cbn [do_action]. unfold step_closure. rewrite Hi. reflexivity. }
    destruct (IH None None Hcap (performs s i (OpTerraform c b) (k None None)) i)
      as (s' & e & Hr' & Hth').
    { eapply reaches_trans; [exact Hs|]. eapply reaches_step; eauto. }
    { cbn [performs threads]. eapply update_same; eauto. }
    exists s', e. split.
    + eapply reaches_trans; [eapply reaches_step; eauto|exact Hr'].
    + rewrite Hth'. cbn [performs threads]. apply update_update.
Qed.

(** The vertices that have neither returned nor been skipped. *)
Definition unsettled (s : state) : list nat :=
  filter (fun i => negb (thread_is settled s i))
         (seq 0 (List.length (threads s))).

Lemma unsettled_In (s : state) (i : nat) :
  In i (unsettled s) <->
  exists t, nth_error (threads s) i = Some t /\ settled t = false.
Proof.
  unfold unsettled, thread_is. rewrite filter_In, in_seq. split.
  - intros [Hi Hs]. destruct (nth_error (threads s) i) as [t|] eqn:E.
    + exists t. split; auto. apply negb_true_iff. exact Hs.
    + apply nth_error_None in E. lia.
  - intros (t & Ht & Hs). split.
    + assert (i < List.length (threads s)) by (apply nth_error_Some; congruence).
      lia.
    + rewrite Ht, Hs. reflexivity.
Qed.

Lemma all_settled (s : state) :
  unsettled s = [] -> forallb settled (threads s) = true.
Proof.
  intros Hu. apply forallb_forall. intros t Ht.
  destruct (settled t) eqn:E; auto.
  apply In_nth_error in Ht as (i & Hi).
  assert (In i (unsettled s)) by (apply unsettled_In; eauto).
  rewrite Hu in H. destruct H.
Qed.

Lemma filter_length_le {A} (f g : A -> bool) (l : list A) :
  (forall x, f x = true -> g x = true) ->
  List.length (filter f l) <= List.length (filter g l).
Proof.
  intros Hfg. induction l as [|y l IH]; cbn [filter]; auto.
  destruct (f y) eqn:Ef.
  - rewrite (Hfg y Ef). cbn [List.length]. lia.
  - destruct (g y); cbn [List.length]; lia.
Qed.

Lemma filter_length_lt {A} (f g : A -> bool) (l : list A) (a : A) :
  (forall x, f x = true -> g x = true) ->
  In a l -> g a = true -> f a = false ->
  List.length (filter f l) < List.length (filter g l).
Proof.
  intros Hfg. induction l as [|x l IH]; intros Hin Hg Hf; [destruct Hin|].
  pose proof (filter_length_le f g l Hfg) as Hle.
  cbn [filter]. destruct Hin as [->|Hin].
  - rewrite Hf, Hg. cbn [List.length]. lia.
  - specialize (IH Hin Hg Hf). destruct (f x) eqn:Ef.
    + rewrite (Hfg x Ef). cbn [List.length]. lia.
    + destruct (g x); cbn [List.length]; lia.
Qed.

(** Settling a vertex leaves fewer vertices to settle. *)
Lemma settle_decreases (s s' : state) (i : nat) (t t' : tstate) :
  threads s' = update (threads s) i t' ->
  nth_error (threads s) i = Some t ->
  settled t = false -> settled t' = true ->
  List.length (unsettled s') < List.length (unsettled s).
Proof.
  intros E Hi Ht Ht'. unfold unsettled. rewrite E, update_length.
  apply (filter_length_lt _ _ _ i).
  - intros j Hj. rewrite (thread_is_update _ s i j t t' _ E Hi) in Hj.
    destruct (Nat.eqb i j); [rewrite Ht' in Hj; discriminate|exact Hj].
  - apply in_seq. assert (i < List.length (threads s))
      by (apply nth_error_Some; congruence). lia.
  - unfold thread_is. rewrite Hi, Ht. reflexivity.
  - rewrite (thread_is_update _ s i i t t' _ E Hi), Nat.eqb_refl, Ht'.
    reflexivity.
Qed.

Lemma min_rank (rank : nat -> nat) (l : list nat) :
  l <> [] -> exists x, In x l /\ forall y, In y l -> rank x <= rank y.
Proof.
  induction l as [|a l IH]; [congruence|]. intros _.
  destruct l as [|b l].
  - exists a. split; [left; reflexivity|]. intros y [<-|[]]. lia.
  - destruct IH as (x & Hx & Hmin); [discriminate|].
    destruct (le_lt_dec (rank a) (rank x)) as [Hle|Hlt].
    + exists a. split; [left; reflexivity|].
      intros y [<-|Hy]; [lia|]. specialize (Hmin y Hy). lia.
    + exists x. split; [right; exact Hx|].
      intros y [<-|Hy]; [lia|]. apply Hmin. exact Hy.
Qed.

Lemma forallb_false_ex' {A} (f : A -> bool) (l : list A) :
  forallb f l = false -> exists x, In x l /\ f x = false.
Proof.
  induction l as [|a l IH]; cbn [forallb]; [discriminate|].
  intros H. apply andb_false_iff in H as [H|H].
  - exists a. split; [left; reflexivity|exact H].
  - destruct (IH H) as (x & Hx & Hf). exists x. split; [right|]; auto.
Qed.

Section WalkEnds.
Variables (session : Session) (boundExecutions : list boundExecution)
          (g : Graph) (rank : nat -> nat).

(** The graph has one vertex per execution, its edges join vertices of the
    graph, and it has no cycle: [rank] grows along every edge. *)
Hypothesis vertices_ok : executions_of g = boundExecutions.
Hypothesis edges_ok :
  forall a b, In (a, b) (edges g) -> a < List.length (vertices g).
Hypothesis acyclic : forall a b, In (a, b) (edges g) -> rank a < rank b.

Let r := run_of session boundExecutions (DagApply g).

Lemma walk_closure_bounded (i : nat) (f : prog) :
  nth_error (fns r) i = Some f ->
  exists n m, bounded f n m /\
    ((0 < status_cap r /\ 0 < results_cap r) \/ (n = 0 /\ m = 0)).
Proof.
  unfold r. cbn [run_of graph_run fns status_cap results_cap].
  rewrite nth_error_map. intros Hf.
  destruct (nth_error (vertices g) i) as [v|] eqn:Hv; [|discriminate].
  injection Hf as <-.
  exists (walk_status_bound v), (walk_result_bound v).
  split; [apply bounded_walk_fn|]. destruct v as [|b]; [right; auto|left].
  assert (Hin : In b boundExecutions).
  { rewrite <- vertices_ok. apply executions_of_In.
    eapply nth_error_In; eauto. }
  destruct boundExecutions; [destruct Hin|]. cbn [List.length]. lia.
Qed.

Lemma walk_settles_one (s : state) :
  reachable r s -> unsettled s <> [] ->
  exists s', reaches r s s' /\
             List.length (unsettled s') < List.length (unsettled s).
Proof.
  intros Hs Hne. destruct (reachable_coherent r s Hs) as [Hlen Hc].
  destruct (min_rank rank (unsettled s) Hne) as (i & Hi & Hmin).
  apply unsettled_In in Hi as (t & Hi & Hset).
  assert (Hf : exists f, nth_error (fns r) i = Some f).
  { destruct (nth_error (fns r) i) as [f|] eqn:E; [eauto|].
    apply nth_error_None in E.
    assert (i < List.length (threads s)) by (apply nth_error_Some; congruence).
    lia. }
  destruct Hf as (f & Hf).
  destruct (walk_closure_bounded i f Hf) as (n & m & Hb & Hcap).
  assert (Hrun : forall s1 p, reachable r s1 ->
             nth_error (threads s1) i = Some (Running p) ->
             exec f (ops_of i (trace s1)) p ->
             exists s' e, reaches r s1 s' /\
                          threads s' = update (threads s1) i (Finished e)).
  { intros s1 p Hs1 Hi1 Hex.
    eapply (drive r p n m); eauto. eapply bounded_exec; eauto. }
  destruct t as [|p|e|]; try discriminate.
  - (* not started: its predecessors are all settled *)
    assert (Hpreds : forall a, In a (preds (edges g) i) ->
               thread_is settled s a = true).
    { intros a Ha. apply preds_In in Ha.
      destruct (thread_is settled s a) eqn:E; auto. exfalso.
      assert (Hau : In a (unsettled s)).
      { apply unsettled_In. unfold thread_is in E.
        destruct (nth_error (threads s) a) as [ta|] eqn:Hta; [eauto|].
        apply nth_error_None in Hta. specialize (edges_ok a i Ha).
        rewrite Hlen in Hta. unfold r in Hta.
        cbn [run_of graph_run fns] in Hta. rewrite length_map in Hta. lia. }
      specialize (Hmin a Hau). specialize (acyclic a i Ha). lia. }
    destruct (forallb (thread_is succeeded s) (preds (edges g) i)) eqn:Hall.
    + assert (Hdo : do_action r s (Start i)
                    = Some (set_thread s i (Running f))).
      { cbn [do_action]. rewrite Hi, Hf. unfold can_start.
        unfold r at 1. cbn [run_of graph_run sched]. rewrite Hall.
        reflexivity. }
      destruct (Hrun (set_thread s i (Running f)) f) as (s' & e & Hr' & Hth).
      * eapply reaches_trans; [exact Hs|]. eapply reaches_step; eauto.
      * cbn [set_thread threads]. eapply update_same; eauto.
      * cbn [set_thread trace]. specialize (Hc i f Pending Hf Hi).
        cbn [thread_trace] in Hc. rewrite Hc. constructor.
      * exists s'. split.
        -- eapply reaches_trans; [eapply reaches_step; eauto|exact Hr'].
        -- apply (settle_decreases s s' i Pending (Finished e)); auto.
           rewrite Hth. cbn [set_thread threads]. apply update_update.
    + assert (Hdo : do_action r s (Skip i) = Some (set_thread s i Skipped)).
      { cbn [do_action]. rewrite Hi. unfold must_skip.
        unfold r at 1. cbn [run_of graph_run sched].
        assert (Hex : existsb (thread_is failed s) (preds (edges g) i) = true).
        { apply existsb_exists.
          destruct (forallb_false_ex' _ _ Hall) as (a & Ha & Hna).
          exists a. split; [exact Ha|].
          specialize (Hpreds a Ha). unfold thread_is in *.
          destruct (nth_error (threads s) a) as [[| |[e|]|]|];
            cbn in *; congruence. }
        rewrite Hex. reflexivity. }
      exists (set_thread s i Skipped). split.
      * eapply reaches_step; eauto.
      * apply (settle_decreases s _ i Pending Skipped); auto.
  - (* in flight *)
    destruct (Hrun s p Hs Hi) as (s' & e & Hr' & Hth).
    + exact (Hc i f (Running p) Hf Hi).
    + exists s'. split; [exact Hr'|].
      apply (settle_decreases s s' i (Running p) (Finished e)); auto.
Qed.

(** From every state of the walk, the walk can be completed and results
    closed. *)
Lemma walk_ends (s : state) :
  reachable r s ->
  exists s', reaches r s s' /\ results_closed s' = true.
Proof.
  remember (List.length (unsettled s)) as n eqn:En.
  assert (Hn : List.length (unsettled s) <= n) by lia. clear En.
  revert s Hn. induction n as [|n IH]; intros s Hn Hs.
  - assert (Hu : unsettled s = []) by (destruct (unsettled s); cbn in Hn; auto; lia).
    destruct (results_closed s) eqn:Hc; [exists s; split; auto using reaches_refl|].
    exists (set_channels s (status s) (results s) true (range_status_ended s)).
    split; [|reflexivity].
    apply (reaches_step r s _ CloseResults). cbn [do_action]. rewrite Hc.
    unfold scheduler_returned. unfold r at 1. cbn [run_of graph_run sched].
    rewrite (all_settled s Hu). reflexivity.
  - destruct (list_eq_dec Nat.eq_dec (unsettled s) []) as [Hu|Hu].
    + apply IH; auto. rewrite Hu. cbn. lia.
    + destruct (walk_settles_one s Hs Hu) as (s1 & Hr1 & Hlt).
      destruct (IH s1) as (s' & Hr' & Hc).
      * lia.
      * eapply reaches_trans; eauto.
      * exists s'. split; [eapply reaches_trans; eauto|exact Hc].
Qed.
End WalkEnds.

(** The results channel is first-in first-out as well. *)
Definition results_sent (tr : list (nat * op)) : list Result :=
  sent_results (map snd tr).

Lemma results_fifo (r : run) (s : state) :
  reachable r s ->
  exists received, results_sent (trace s) = received ++ results s.
Proof.
  apply (reaches_ind r (init r)
           (fun s => exists received,
                       results_sent (trace s) = received ++ results s));
    [exists []; reflexivity|].
  intros s1 s2 _ (received & E) Ht.
  destruct Ht as [i f Hi Hf Hst|i Hi Hsk|i e Hi|i p o p' Hi Ho Hroom|Hcl Hret
                 |x rest Ex|x rest Ex|Ex Hcs|sig Hlen| |sig rest Hh Ex|sig Hh|sig Hh];
    try (exists received; exact E).
  - cbn [performs trace results]. unfold results_sent, sent_results in *.
    rewrite map_app, flat_map_app, E. cbn [map snd flat_map].
    destruct o; rewrite ?app_nil_r; try (exists received; reflexivity).
    exists received. rewrite <- app_assoc. reflexivity.
  - cbn [set_channels trace results]. exists (received ++ [x]).
    rewrite E, Ex, <- app_assoc. reflexivity.
Qed.

Lemma ops_of_nil (i : nat) (tr : list (nat * op)) :
  (forall o, ~ In (i, o) tr) -> ops_of i tr = [].
Proof.
  intros H. destruct (ops_of i tr) as [|o l] eqn:E; auto.
  exfalso. apply (H o). apply ops_of_In. rewrite E. left. reflexivity.
Qed.

(** A vertex that was not started has performed nothing. *)
Lemma not_started_silent (r : run) (s : state) (b : nat) :
  reachable r s -> thread_is started s b = false ->
  ops_of b (trace s) = [].
Proof.
  intros Hs Hb. destruct (reachable_coherent r s Hs) as [Hlen Hc].
  destruct (nth_error (threads s) b) as [t|] eqn:Ht.
  - destruct (nth_error (fns r) b) as [f|] eqn:Hf.
    + specialize (Hc b f t Hf Ht). unfold thread_is in Hb. rewrite Ht in Hb.
      destruct t; cbn in Hb; try discriminate; exact Hc.
    + apply nth_error_None in Hf.
      assert (b < List.length (threads s)) by (apply nth_error_Some; congruence).
      lia.
  - apply ops_of_nil. intros o Hin.
    pose proof (trace_in_range r s Hs b o Hin). apply nth_error_None in Ht. lia.
Qed.

(** C1. Under the DAG walk of applyWithGraph:
    - for every dependency edge A -> B between executions, the Result for A
      is sent on results before the Result for B, and results hands the
      Results over in the order they were sent;
    - once the callback of A has returned an error, no vertex below A is
      ever started: its closure performs nothing and sends no Result, so
      that (ids being distinct) its id never appears on results, and when
      the walk is over the vertex is marked skipped;
    - when the walk is over, every execution that does not lie below a
      vertex whose callback returned an error has delivered its Result;
    - and the walk can always be brought to its end, when the graph is a
      well-formed acyclic graph of the executions. *)
Theorem walk_order_and_skips
    (session : Session) (boundExecutions : list boundExecution) (g : Graph)
    (s : state) :
  reachable (run_of session boundExecutions (DagApply g)) s ->
  (forall a b ba bb,
     In (a, b) (edges g) ->
     nth_error (vertices g) a = Some (execution ba) ->
     nth_error (vertices g) b = Some (execution bb) ->
     forall tr1 rb tr2, trace s = tr1 ++ (b, OpResult rb) :: tr2 ->
       id rb = ID bb /\
       exists ra, In (a, OpResult ra) tr1 /\ id ra = ID ba) /\
  (exists received, results_sent (trace s) = received ++ results s) /\
  (forall a e b,
     nth_error (threads s) a = Some (Finished (Some e)) ->
     above (edges g) a b ->
     forall s', reaches (run_of session boundExecutions (DagApply g)) s s' ->
       thread_is started s' b = false /\
       ops_of b (trace s') = [] /\
       (results_closed s' = true -> b < List.length (vertices g) ->
        nth_error (threads s') b = Some Skipped) /\
       forall bb,
         nth_error (vertices g) b = Some (execution bb) ->
         (forall j bj, nth_error (vertices g) j = Some (execution bj) ->
                       ID bj = ID bb -> j = b) ->
         forall j res, In (j, OpResult res) (trace s') -> id res <> ID bb) /\
  (results_closed s = true ->
   forall b bb,
     nth_error (vertices g) b = Some (execution bb) ->
     (exists res, In (b, OpResult res) (trace s) /\ id res = ID bb) \/
     (exists a e, above (edges g) a b /\
                  nth_error (threads s) a = Some (Finished (Some e)))) /\
  (executions_of g = boundExecutions ->
   (forall a b, In (a, b) (edges g) -> a < List.length (vertices g)) ->
   (exists rank : nat -> nat,
      forall a b, In (a, b) (edges g) -> rank a < rank b) ->
   exists s', reaches (run_of session boundExecutions (DagApply g)) s s' /\
              results_closed s' = true).
Proof.
  set (r := run_of session boundExecutions (DagApply g)). intros Hs.
  split; [|split; [apply (results_fifo r s Hs)|split; [|split]]].
  - intros a b ba bb Hab Hva Hvb tr1 rb tr2 E. split.
    + apply (reported_once session boundExecutions (DagApply g) s b bb Hs Hvb).
      rewrite E. apply in_or_app. right. left. reflexivity.
    + eapply (reachable_results_ordered session boundExecutions g s Hs); eauto.
  - intros a e b Ha Hab s' Hs'.
    assert (Hr' : reachable r s') by (eapply reaches_trans; eauto).
    assert (Ha' : nth_error (threads s') a = Some (Finished (Some e)))
      by (eapply settled_stable; eauto).
    assert (Hnb : thread_is started s' b = false).
    { apply (below_failure_not_started (edges g) s' a b); auto.
      - apply (reachable_deps_respected r (edges g) s' eq_refl Hr').
      - unfold thread_is. rewrite Ha'. reflexivity. }
    pose proof (not_started_silent r s' b Hr' Hnb) as Hsil.
    split; [exact Hnb|]. split; [exact Hsil|]. split.
    { intros Hc Hlt.
      destruct (reachable_channels_ok r s' Hr') as (_ & _ & Hret).
      specialize (Hret Hc). unfold scheduler_returned in Hret.
      unfold r in Hret at 1. cbn [run_of graph_run sched] in Hret.
      destruct (reachable_coherent r s' Hr') as [Hlen _].
      unfold r in Hlen. cbn [run_of graph_run fns] in Hlen.
      rewrite length_map in Hlen.
      destruct (nth_error (threads s') b) as [t|] eqn:Ht;
        [|apply nth_error_None in Ht; lia].
      pose proof (forallb_nth _ _ _ _ Hret Ht) as Hset.
      unfold thread_is in Hnb. rewrite Ht in Hnb.
      destruct t; cbn in Hset, Hnb; try discriminate. reflexivity. }
    intros bb Hvb Huniq j res Hin Hid.
    pose proof (trace_in_range r s' Hr' j _ Hin) as Hj.
    unfold r in Hj. cbn [run_of graph_run fns] in Hj. rewrite length_map in Hj.
    destruct (nth_error (vertices g) j) as [[|bj]|] eqn:Hvj.
    + exact (root_silent session boundExecutions g s' j _ Hr' Hvj Hin).
    + pose proof (reported_once session boundExecutions (DagApply g) s' j bj
                    Hr' Hvj) as [_ Hids].
      specialize (Hids res Hin).
      assert (j = b) by (apply (Huniq j bj); congruence). subst j.
      apply ops_of_In in Hin. rewrite Hsil in Hin. destruct Hin.
    + apply nth_error_None in Hvj. lia.
  - intros Hc b bb Hvb.
    destruct (reachable_channels_ok r s Hs) as (_ & _ & Hret).
    specialize (Hret Hc). unfold scheduler_returned in Hret.
    unfold r in Hret at 1. cbn [run_of graph_run sched] in Hret.
    destruct (closure_trace session boundExecutions (DagApply g) s b bb Hs Hvb)
      as (t & Ht & _).
    pose proof (forallb_nth _ _ _ _ Hret Ht) as Hset.
    destruct t as [| |e|]; try discriminate.
    + left. eapply (finished_reported session boundExecutions (DagApply g));
        eauto.
    + right.
      apply (reachable_skips_justified r (edges g) s eq_refl Hs b Ht).
  - intros Hv He (rank & Hrank).
    exact (walk_ends session boundExecutions g rank Hv He Hrank s Hs).
Qed.

(** TestApplyFailModule in small: [users] fails in init, [app], which
    depends on it, is skipped, and [network] is applied. *)
Definition users_fails : list action :=
  [Start 0; ok 0;
   Start 1; ok 1; ok 1; fail 1 "exit status 1"; ok 1; ok 1;
   Skip 2;
   Start 3; ok 3; ok 3; ok 3; ok 3; ok 3; ok 3; ok 3;
   CloseResults].

Lemma walk_order_and_skips_witness :
  exists s,
    run_actions (run_of demo_session demo_executions (DagApply demo_graph))
                (init (run_of demo_session demo_executions (DagApply demo_graph)))
                users_fails = Some s /\
    map (fun r => (id r, err r)) (results s)
      = [("users", Some "exit status 1"); ("network-east1-dev", None)] /\
    ops_of 2 (trace s) = [] /\
    (forall j res, In (j, OpResult res) (trace s) -> id res <> ID app).
Proof.
  eexists. split; [vm_compute; reflexivity|]. split; [reflexivity|].
  match goal with
  | |- ops_of 2 (trace ?s) = [] /\ _ =>
      destruct (walk_order_and_skips demo_session demo_executions demo_graph s)
        as (_ & _ & H & _)
  end.
  - exists users_fails. vm_compute. reflexivity.
  - assert (Hab : above (edges demo_graph) 1 2)
      by (apply above_edge; cbn; auto).
    match goal with
    | |- ops_of 2 (trace ?s) = [] /\ _ =>
        destruct (H 1 "exit status 1" 2 eq_refl Hab s (reaches_refl _ _))
          as (_ & H2 & _ & H3)
    end.
    split; [exact H2|]. apply (H3 app eq_refl).
    intros j bj Hj Hid.
    do 4 (destruct j as [|j];
          [cbn in Hj; try discriminate; try reflexivity;
           injection Hj as Hj; subst bj; discriminate|]).
    destruct j; discriminate.
Defined.

(** ** How a closure ends *)

(** [concludes walk p]: whatever happens, a Result [p] sends is the last
    thing it does before it returns; for a callback of the walker
    ([walk = true]) the value returned is an error exactly when the Result
    carries one. *)
Inductive concludes (walk : bool) : prog -> Prop :=
| concludes_return e : concludes walk (Return e)
| concludes_status line k :
    concludes walk k -> concludes walk (SendStatus line k)
| concludes_result res e :
    (walk = true -> (err res = None <-> e = None)) ->
    concludes walk (SendResult res (Return e))
| concludes_session b k :
    (forall e, concludes walk (k e)) -> concludes walk (newTerraformSession b k)
| concludes_command dir hook k :
    (forall e, concludes walk (k e)) ->
    concludes walk (runCommandkAndSetEnvironment dir hook k)
| concludes_terraform c b k :
    (forall result e, concludes walk (k result e)) ->
    concludes walk (terraform c b k).

Lemma exec_return (e : option error) (ops : list op) (p : prog) :
  exec (Return e) ops p -> ops = [] /\ p = Return e.
Proof.
  inversion 1 as [|? ? ? ? ? Hs]; subst; [auto|]. inversion Hs.
Qed.

Lemma concludes_exec (walk : bool) (f p : prog) (ops : list op) :
  exec f ops p -> concludes walk f ->
  (sent_results ops = [] /\ concludes walk p) \/
  (exists ops1 res e,
     ops = ops1 ++ [OpResult res] /\ sent_results ops1 = [] /\
     p = Return e /\ (walk = true -> (err res = None <-> e = None))).
Proof.
  induction 1 as [q|q o q' ops q'' Hs He IH]; intros Hf; [left; auto|].
  destruct Hs; inversion Hf; subst.
  - destruct (IH ltac:(assumption))
      as [(Hn & Hp)|(ops1 & res & e & -> & Hn & -> & Hv)].
    + left. auto.
    + right. exists (OpStatus line :: ops1), res, e. auto.
  - apply exec_return in He as [-> ->]. right.
    exists [], res, e. auto.
  - destruct (IH ltac:(auto))
      as [(Hn & Hp)|(ops1 & res & e' & -> & Hn & -> & Hv)].
    + left. auto.
    + right. exists (OpNewTerraformSession b :: ops1), res, e'. auto.
  - destruct (IH ltac:(auto))
      as [(Hn & Hp)|(ops1 & res & e' & -> & Hn & -> & Hv)].
    + left. auto.
    + right. exists (OpRunCommand dir hook :: ops1), res, e'. auto.
  - destruct (IH ltac:(auto))
      as [(Hn & Hp)|(ops1 & res & e' & -> & Hn & -> & Hv)].
    + left. auto.
    + right. exists (OpTerraform c b :: ops1), res, e'. auto.
Qed.

Lemma concludes_hooks (walk : bool) (session : Session) (b : boundExecution)
      (hooks : list string) (ret : error -> option error) (rest : prog) :
  (walk = true -> forall e, ret e <> None) ->
  concludes walk rest ->
  concludes walk (preModuleRun session b hooks ret rest).
Proof.
  intros Hret Hrest. induction hooks as [|hook hooks IH]; cbn [preModuleRun];
    [exact Hrest|].
  constructor. constructor. intros [e|]; [|exact IH].
  constructor. intros Hw. cbn [err]. split; [discriminate|].
  intros H. destruct (Hret Hw e H).
Qed.

Ltac to_the_end :=
  repeat first
    [ apply concludes_return
    | apply concludes_status
    | apply concludes_result;
      let H := fresh in
      intros H; cbn [err]; try discriminate H;
      split; intros; solve [reflexivity | discriminate | assumption]
    | apply concludes_session; intros [?|]
    | apply concludes_command; intros [?|]
    | apply concludes_terraform; intros ? [?|] ].

Definition is_walk (rt : route) : bool :=
  match rt with DagApply _ => true | _ => false end.

Lemma concludes_closure (session : Session) (rt : route)
      (bs : list boundExecution) (b : boundExecution) :
  concludes (is_walk rt) (closure_of session rt bs b).
Proof.
  destruct rt as [|lv detach|g]; cbn [closure_of is_walk].
  - unfold apply_fn. to_the_end.
  - unfold plan_fn. apply concludes_session. intros [er|]; [to_the_end|].
    apply concludes_hooks; [discriminate|]. destruct detach; to_the_end.
  - cbn [walk_fn]. apply concludes_session. intros [er|]; [to_the_end|].
    apply concludes_hooks; [discriminate|]. to_the_end.
Qed.

Lemma sent_results_app (ops ops' : list op) :
  sent_results (ops ++ ops') = sent_results ops ++ sent_results ops'.
Proof. apply flat_map_app. Qed.

(** Where closure [i] stands, as a program reached from its closure. *)
Lemma closure_exec (session : Session) (bs : list boundExecution) (rt : route)
      (s : state) (i : nat) (b : boundExecution) :
  reachable (run_of session bs rt) s -> execution_at rt bs i b ->
  exists p, exec (closure_of session rt bs b) (ops_of i (trace s)) p /\
            (forall q, nth_error (threads s) i = Some (Running q) -> p = q) /\
            (forall e, nth_error (threads s) i = Some (Finished e) ->
                       p = Return e) /\
            (forall e, p = Return e ->
               nth_error (threads s) i = Some (Running (Return e)) \/
               nth_error (threads s) i = Some (Finished e) \/
               False).
Proof.
  intros Hs Hb.
  destruct (closure_trace session bs rt s i b Hs Hb) as (t & Ht & Htr).
  destruct t as [|q|e|]; cbn [thread_trace] in Htr.
  - rewrite Htr. eexists. split; [constructor|].
    split; [intros q Hq; congruence|]. split; [intros e He; congruence|].
    intros e He. exfalso.
    destruct rt; cbn [closure_of] in He; try discriminate.
  - exists q. split; [exact Htr|].
    split; [intros q' Hq; congruence|]. split; [intros e He; congruence|].
    intros e ->. left. exact Ht.
  - exists (Return e). split; [exact Htr|].
    split; [intros q' Hq; congruence|]. split; [intros e' He; congruence|].
    intros e' [= <-]. right. left. exact Ht.
  - rewrite Htr. eexists. split; [constructor|].
    split; [intros q Hq; congruence|]. split; [intros e He; congruence|].
    intros e He. exfalso.
    destruct rt; cbn [closure_of] in He; try discriminate.
Qed.

(** A closure that returned has sent its Result as its last operation. *)
Lemma finished_verdict (session : Session) (bs : list boundExecution)
      (rt : route) (s : state) (i : nat) (b : boundExecution)
      (e : option error) :
  reachable (run_of session bs rt) s -> execution_at rt bs i b ->
  nth_error (threads s) i = Some (Finished e) ->
  exists ops1 res,
    ops_of i (trace s) = ops1 ++ [OpResult res] /\
    sent_results ops1 = [] /\ id res = ID b /\
    (is_walk rt = true -> (err res = None <-> e = None)).
Proof.
  intros Hs Hb Hi.
  destruct (closure_trace session bs rt s i b Hs Hb) as (t & Ht & Htr).
  rewrite Hi in Ht. injection Ht as <-. cbn [thread_trace] in Htr.
  destruct (reports_exec _ _ _ _ _ Htr (reports_closure session rt bs b))
    as (m & Hm & Hlen & Hid).
  apply reports_return_inv in Hm. subst m.
  destruct (concludes_exec _ _ _ _ Htr (concludes_closure session rt bs b))
    as [(Hn & _)|(ops1 & res & e' & E & Hn & [= <-] & Hv)].
  - rewrite Hn in Hlen. cbn in Hlen. lia.
  - exists ops1, res. repeat split; auto; try (apply Hv; assumption).
    apply Hid. rewrite E, sent_results_app. apply in_or_app. right.
    left. reflexivity.
Qed.

(** X5. On the three paths the Result is the last word of a closure: once a
    closure has sent its Result it performs nothing more (no status line, no
    call) and can only return; the Result carries the id of its execution and
    no other Result came before it.  A closure that has returned has sent
    exactly such a Result, and a closure that was never started (not yet
    started, cancelled before its turn, or skipped) has performed nothing at
    all. *)
Theorem result_ends_closure
    (session : Session) (boundExecutions : list boundExecution) (rt : route)
    (s : state) (i : nat) (b : boundExecution) :
  reachable (run_of session boundExecutions rt) s ->
  execution_at rt boundExecutions i b ->
  (forall ops1 r ops2,
     ops_of i (trace s) = ops1 ++ OpResult r :: ops2 ->
     ops2 = [] /\ sent_results ops1 = [] /\ id r = ID b /\
     exists e, nth_error (threads s) i = Some (Running (Return e)) \/
               nth_error (threads s) i = Some (Finished e)) /\
  (forall e, nth_error (threads s) i = Some (Finished e) ->
     exists ops1 r,
       ops_of i (trace s) = ops1 ++ [OpResult r] /\
       sent_results ops1 = [] /\ id r = ID b) /\
  (thread_is started s i = false -> ops_of i (trace s) = []).
Proof.
  intros Hs Hb. split; [|split].
  - intros ops1 r ops2 E.
    destruct (closure_exec session boundExecutions rt s i b Hs Hb)
      as (p & Hex & _ & _ & Hret).
    destruct (concludes_exec _ _ _ _ Hex
                (concludes_closure session rt boundExecutions b))
      as [(Hn & _)|(ops1' & res & e & E' & Hn & -> & _)].
    + rewrite E, sent_results_app in Hn. cbn in Hn.
      destruct (sent_results ops1); discriminate.
    + rewrite E in E'. symmetry in E'.
      apply snoc_split in E' as [(-> & -> & [= ->])|(l2 & -> & ->)].
      * split; [reflexivity|]. split; [exact Hn|]. split.
        -- apply (reported_once session boundExecutions rt s i b Hs Hb).
           apply ops_of_In. rewrite E. apply in_or_app. right. left.
           reflexivity.
        -- exists e. destruct (Hret e eq_refl) as [H|[H|[]]]; auto.
      * rewrite sent_results_app in Hn. cbn in Hn.
        destruct (sent_results ops1); discriminate.
  - intros e Hi.
    destruct (finished_verdict session boundExecutions rt s i b e Hs Hb Hi)
      as (ops1 & res & E & Hn & Hid & _).
    exists ops1, res. auto.
  - apply (not_started_silent (run_of session boundExecutions rt)). exact Hs.
Qed.

(** A flat plan of [users] brought to its return. *)
Lemma result_ends_closure_witness :
  exists s,
    run_actions (run_of demo_session [users] (FlatPlan PerIteration false))
                (init (run_of demo_session [users] (FlatPlan PerIteration false)))
                (Start 0 :: repeat (ok 0) 7) = Some s /\
    exists ops1 r,
      ops_of 0 (trace s) = ops1 ++ [OpResult r] /\
      sent_results ops1 = [] /\ id r = "users".
Proof.
  eexists. split; [vm_compute; reflexivity|].
  match goal with
  | |- exists ops1 r, ops_of 0 (trace ?s) = _ /\ _ =>
      destruct (result_ends_closure demo_session [users]
                  (FlatPlan PerIteration false) s 0 users) as (_ & H & _)
  end.
  - exists (Start 0 :: repeat (ok 0) 7). vm_compute. reflexivity.
  - reflexivity.
  - apply (H None). reflexivity.
Defined.

(** X6. Under the DAG walk the value a callback returns and the Result it
    delivers agree: the callback of an execution returns an error exactly
    when the Result it has just sent carries an error.  So the executions
    the walker gives up are those below an execution whose Result, as the
    consumer sees it, is an error. *)
Theorem walk_verdict_matches_result
    (session : Session) (boundExecutions : list boundExecution) (g : Graph)
    (s : state) (i : nat) (b : boundExecution) (e : option error) :
  reachable (run_of session boundExecutions (DagApply g)) s ->
  nth_error (vertices g) i = Some (execution b) ->
  nth_error (threads s) i = Some (Finished e) ->
  exists ops1 r,
    ops_of i (trace s) = ops1 ++ [OpResult r] /\ id r = ID b /\
    (err r = None <-> e = None) /\
    (err r <> None ->
     forall j, above (edges g) i j -> thread_is started s j = false).
Proof.
  intros Hs Hb Hi.
  destruct (finished_verdict session boundExecutions (DagApply g) s i b e
              Hs Hb Hi) as (ops1 & res & E & _ & Hid & Hv).
  specialize (Hv eq_refl).
  exists ops1, res. split; [exact E|]. split; [exact Hid|].
  split; [exact Hv|].
  intros Herr j Hj.
  apply (below_failure_not_started (edges g) s i j); auto.
  - apply (reachable_deps_respected
             (run_of session boundExecutions (DagApply g)) (edges g) s
             eq_refl Hs).
  - unfold thread_is. rewrite Hi. destruct e as [e|]; [reflexivity|].
    exfalso. apply Herr. apply Hv. reflexivity.
Qed.

Lemma walk_verdict_matches_result_witness :
  exists s,
    run_actions (run_of demo_session demo_executions (DagApply demo_graph))
                (init (run_of demo_session demo_executions (DagApply demo_graph)))
                [Start 0; ok 0; Start 1; ok 1; ok 1; fail 1 "exit status 1";
                 ok 1; ok 1] = Some s /\
    exists ops1 r,
      ops_of 1 (trace s) = ops1 ++ [OpResult r] /\ id r = "users" /\
      (err r = None <-> Some "exit status 1" = None).
Proof.
  eexists. split; [vm_compute; reflexivity|].
  match goal with
  | |- exists ops1 r, ops_of 1 (trace ?s) = _ /\ _ =>
      destruct (walk_verdict_matches_result demo_session demo_executions
                  demo_graph s 1 users (Some "exit status 1"))
        as (ops1 & r & H1 & H2 & H3 & _)
  end.
  - exists [Start 0; ok 0; Start 1; ok 1; ok 1; fail 1 "exit status 1";
            ok 1; ok 1]. vm_compute. reflexivity.
  - reflexivity.
  - reflexivity.
  - exists ops1, r. auto.
Defined.

(** ** The calls of a closure *)

(** The provisioner calls among some operations. *)
Definition tfcalls (ops : list op) : list (tfcall * boundExecution) :=
  flat_map (fun o => match o with
                     | OpTerraform c b => [(c, b)]
                     | _ => []
                     end) ops.

(** [calls p l]: whatever the collaborators answer, the provisioner calls
    [p] makes are, in order, the first calls of [l]. *)
Inductive calls : prog -> list (tfcall * boundExecution) -> Prop :=
| calls_return e l : calls (Return e) l
| calls_status line k l : calls k l -> calls (SendStatus line k) l
| calls_result res k l : calls k l -> calls (SendResult res k) l
| calls_session b k l :
    (forall e, calls (k e) l) -> calls (newTerraformSession b k) l
| calls_command dir hook k l :
    (forall e, calls (k e) l) ->
    calls (runCommandkAndSetEnvironment dir hook k) l
| calls_terraform c b k l :
    (forall result e, calls (k result e) l) ->
    calls (terraform c b k) ((c, b) :: l).

Lemma calls_exec (f p : prog) (ops : list op)
      (l : list (tfcall * boundExecution)) :
  exec f ops p -> calls f l ->
  exists later, l = tfcalls ops ++ later /\ calls p later.
Proof.
  intros He. revert l.
  induction He as [q|q o q' ops q'' Hs He IH]; intros l Hl.
  - exists l. split; auto.
  - destruct Hs; inversion Hl; subst;
      match goal with
      | H : calls ?k ?l' |- _ => destruct (IH _ H) as (later & -> & Hp)
      | H : forall e, calls _ ?l' |- _ =>
          destruct (IH l' (H _)) as (later & -> & Hp)
      | H : forall result e, calls _ ?l' |- _ =>
          destruct (IH l' (H _ _)) as (later & -> & Hp)
      end;
      exists later; split; auto.
Qed.

Lemma calls_hooks (session : Session) (b : boundExecution)
      (hooks : list string) (ret : error -> option error) (rest : prog)
      (l : list (tfcall * boundExecution)) :
  calls rest l -> calls (preModuleRun session b hooks ret rest) l.
Proof.
  intros Hrest. induction hooks as [|hook hooks IH]; cbn [preModuleRun];
    [exact Hrest|].
  constructor. constructor. intros [e|]; [|exact IH].
  constructor. constructor.
Qed.

Ltac follow_calls :=
  repeat first
    [ apply calls_return
    | apply calls_status
    | apply calls_result
    | apply calls_session; intros [?|]
    | apply calls_command; intros [?|]
    | apply calls_terraform; intros ? [?|] ].

(** The provisioner calls of one execution on each path, in order. *)
Definition protocol (rt : route) (b : boundExecution)
  : list (tfcall * boundExecution) :=
  match rt with
  | FlatApply | DagApply _ => [(Init, b); (Apply, b)]
  | FlatPlan _ detach =>
      (Init, b) :: (if detach then [(Detach, b)] else []) ++ [(Plan, b)]
  end.

Lemma calls_closure (session : Session) (rt : route)
      (bs : list boundExecution) (b : boundExecution) :
  calls (closure_of session rt bs b) (protocol rt b).
Proof.
  destruct rt as [|lv detach|g]; cbn [closure_of protocol].
  - unfold apply_fn. follow_calls.
  - unfold plan_fn. apply calls_session. intros [er|]; [follow_calls|].
    apply calls_hooks. destruct detach; cbn [app]; follow_calls.
  - cbn [walk_fn]. apply calls_session. intros [er|]; [follow_calls|].
    apply calls_hooks. follow_calls.
Qed.

Lemma closure_opens_session (session : Session) (rt : route)
      (bs : list boundExecution) (b : boundExecution) :
  exists k, closure_of session rt bs b = newTerraformSession b k.
Proof. destruct rt; cbn [closure_of walk_fn]; eexists; reflexivity. Qed.

Lemma tfcalls_app (ops ops' : list op) :
  tfcalls (ops ++ ops') = tfcalls ops ++ tfcalls ops'.
Proof. apply flat_map_app. Qed.

Lemma tfcalls_In (ops : list op) (c : tfcall) (b : boundExecution) :
  In (c, b) (tfcalls ops) <-> In (OpTerraform c b) ops.
Proof.
  unfold tfcalls. rewrite in_flat_map. split.
  - intros (o & Ho & Hc). destruct o; cbn in Hc; try contradiction.
    destruct Hc as [[= <- <-]|[]]. exact Ho.
  - intros H. exists (OpTerraform c b). split; [exact H|left; reflexivity].
Qed.

(** X7. The provisioner calls of an execution follow a fixed order on every
    path.  The first thing a closure does is to open the terraform session of
    its own execution; the provisioner calls it has made so far are always
    the first calls of: init, apply on the two apply paths; init, (detach when
    requested,) plan on the plan path, each for its own execution.  So every
    call is made at most once, the plan path never applies, the apply paths
    never plan or detach, and any call other than init comes after the
    closure's call of init. *)
Theorem terraform_call_order
    (session : Session) (boundExecutions : list boundExecution) (rt : route)
    (s : state) (i : nat) (b : boundExecution) :
  reachable (run_of session boundExecutions rt) s ->
  execution_at rt boundExecutions i b ->
  (ops_of i (trace s) = [] \/
   exists rest, ops_of i (trace s) = OpNewTerraformSession b :: rest) /\
  (exists later, protocol rt b = tfcalls (ops_of i (trace s)) ++ later) /\
  (forall ops1 c b' ops2,
     ops_of i (trace s) = ops1 ++ OpTerraform c b' :: ops2 ->
     b' = b /\ (c <> Init -> In (OpTerraform Init b) ops1)).
Proof.
  intros Hs Hb.
  destruct (closure_exec session boundExecutions rt s i b Hs Hb)
    as (p & Hex & _).
  assert (Hpre : exists later,
             protocol rt b = tfcalls (ops_of i (trace s)) ++ later).
  { destruct (calls_exec _ _ _ _ Hex
                (calls_closure session rt boundExecutions b))
      as (later & E & _). eauto. }
  split; [|split; [exact Hpre|]].
  - destruct (closure_opens_session session rt boundExecutions b) as (k & Ek).
    rewrite Ek in Hex.
    destruct (ops_of i (trace s)) as [|o rest]; [left; reflexivity|].
    right. exists rest. inversion Hex as [|? ? ? ? ? Hstep]; subst.
    inversion Hstep; subst. reflexivity.
  - intros ops1 c b' ops2 E. destruct Hpre as (later & Hpre).
    rewrite E, tfcalls_app in Hpre. cbn [tfcalls flat_map] in Hpre.
    fold (tfcalls ops2) in Hpre. cbn [app] in Hpre.
    assert (Hin : In (c, b') (protocol rt b)).
    { rewrite Hpre. apply in_or_app. left. apply in_or_app. right.
      left. reflexivity. }
    assert (Hb' : b' = b).
    { destruct rt as [|lv [|]|g]; cbn in Hin;
        repeat (destruct Hin as [[= _ ->]|Hin]; [reflexivity|]);
        destruct Hin. }
    split; [exact Hb'|]. intros Hc. apply tfcalls_In.
    destruct (tfcalls ops1) as [|x xs] eqn:E1.
    + exfalso. cbn [app] in Hpre.
      destruct rt as [|lv [|]|g]; cbn in Hpre; congruence.
    + left. rewrite <- app_assoc in Hpre. cbn [app] in Hpre.
      destruct rt as [|lv [|]|g]; cbn in Hpre; congruence.
Qed.

(** The flat apply of [users], up to the call of apply. *)
Lemma terraform_call_order_witness :
  exists s,
    run_actions (run_of demo_session [users] FlatApply)
                (init (run_of demo_session [users] FlatApply))
                (Start 0 :: repeat (ok 0) 5) = Some s /\
    tfcalls (ops_of 0 (trace s)) = [(Init, users); (Apply, users)] /\
    exists later,
      [(Init, users); (Apply, users)] = tfcalls (ops_of 0 (trace s)) ++ later.
Proof.
  eexists. split; [vm_compute; reflexivity|]. split; [reflexivity|].
  match goal with
  | |- exists later, _ = tfcalls (ops_of 0 (trace ?s)) ++ later =>
      destruct (terraform_call_order demo_session [users] FlatApply s 0 users)
        as (_ & H & _)
  end.
  - exists (Start 0 :: repeat (ok 0) 5). vm_compute. reflexivity.
  - reflexivity.
  - exact H.
Defined.

(** ** Failures *)

(** [gives_up walk i e' p]: [p] sends a Result under the id [i] with the
    error [e'] and returns at once (with an error, for a callback of the
    walker). *)
Definition gives_up (walk : bool) (i : string) (e e' : error) (p : prog)
  : Prop :=
  exists res,
    p = SendResult res (Return (if walk then Some e else None)) /\
    id res = i /\ err res = Some e'.

(** [fails_fast walk i p]: whenever a collaborator answers [p] with an
    error, [p] gives up; the error of a hook is wrapped, the others are
    passed on as they are. *)
Inductive fails_fast (walk : bool) (i : string) : prog -> Prop :=
| ff_return e : fails_fast walk i (Return e)
| ff_status line k : fails_fast walk i k -> fails_fast walk i (SendStatus line k)
| ff_result res k : fails_fast walk i k -> fails_fast walk i (SendResult res k)
| ff_session b k :
    (forall e, gives_up walk i e e (k (Some e))) ->
    fails_fast walk i (k None) ->
    fails_fast walk i (newTerraformSession b k)
| ff_command dir hook k :
    (forall e, gives_up walk i e (hook_error e) (k (Some e))) ->
    fails_fast walk i (k None) ->
    fails_fast walk i (runCommandkAndSetEnvironment dir hook k)
| ff_terraform c b k :
    (forall result e, gives_up walk i e e (k result (Some e))) ->
    (forall result, fails_fast walk i (k result None)) ->
    fails_fast walk i (terraform c b k).

Lemma gives_up_fails_fast (walk : bool) (i : string) (e e' : error) (p : prog) :
  gives_up walk i e e' p -> fails_fast walk i p.
Proof. intros (res & -> & _). constructor. constructor. Qed.

Lemma fails_fast_step (walk : bool) (i : string) (p p' : prog) (o : op) :
  op_step p o p' -> fails_fast walk i p -> fails_fast walk i p'.
Proof.
  intros Hs Hp. destruct Hs; inversion Hp; subst; auto.
  - destruct e as [e|]; [eapply gives_up_fails_fast|]; eauto.
  - destruct e as [e|]; [eapply gives_up_fails_fast|]; eauto.
  - destruct e as [e|]; [eapply gives_up_fails_fast|]; eauto.
Qed.

Lemma fails_fast_exec (walk : bool) (i : string) (f p : prog) (ops : list op) :
  exec f ops p -> fails_fast walk i f -> fails_fast walk i p.
Proof.
  induction 1 as [q|q o q' ops q'' Hs He IH]; intros Hf; [exact Hf|].
  apply IH. eapply fails_fast_step; eauto.
Qed.

Lemma fails_fast_hooks (walk : bool) (session : Session) (b : boundExecution)
      (hooks : list string) (ret : error -> option error) (rest : prog) :
  (forall e, ret e = if walk then Some e else None) ->
  fails_fast walk (ID b) rest ->
  fails_fast walk (ID b) (preModuleRun session b hooks ret rest).
Proof.
  intros Hret Hrest. induction hooks as [|hook hooks IH]; cbn [preModuleRun];
    [exact Hrest|].
  constructor. constructor; [|exact IH].
  intros e. eexists. rewrite Hret. split; [reflexivity|]. split; reflexivity.
Qed.

Ltac surrender := intros; eexists; split; [reflexivity|split; reflexivity].

Ltac fail_fast :=
  repeat first
    [ apply ff_return
    | apply ff_status
    | apply ff_result
    | apply ff_session; [surrender|]
    | apply ff_command; [surrender|]
    | apply ff_terraform; [surrender|intros ?] ].

Lemma fails_fast_closure (session : Session) (rt : route)
      (bs : list boundExecution) (b : boundExecution) :
  fails_fast (is_walk rt) (ID b) (closure_of session rt bs b).
Proof.
  destruct rt as [|lv detach|g]; cbn [closure_of is_walk].
  - unfold apply_fn. fail_fast.
  - unfold plan_fn. apply ff_session; [surrender|].
    apply fails_fast_hooks; [reflexivity|]. destruct detach; fail_fast.
  - cbn [walk_fn]. apply ff_session; [surrender|].
    apply fails_fast_hooks; [reflexivity|]. fail_fast.
Qed.

(** What a closure is about to ask a collaborator, if anything. *)
Definition is_hook (p : prog) : bool :=
  match p with runCommandkAndSetEnvironment _ _ _ => true | _ => false end.
Definition is_call (p : prog) : bool :=
  match p with
  | newTerraformSession _ _ | runCommandkAndSetEnvironment _ _ _
  | terraform _ _ _ => true
  | _ => false
  end.





(** X8. On the three paths a failure ends an execution at once and is always
    reported.  Whenever a closure is about to open its terraform session, run
    a hook or call the provisioner, and the answer is an error, the only
    things the closure still does are to send one Result, with the id of its
    execution and that error (prefixed with [error running PreModuleRun
    hook: ] for a hook), and to return; under the DAG walk it returns the
    error, so that the executions below are given up. *)
Theorem failure_is_reported_at_once
    (session : Session) (boundExecutions : list boundExecution) (rt : route)
    (s : state) (i : nat) (b : boundExecution) :
  reachable (run_of session boundExecutions rt) s ->
  execution_at rt boundExecutions i b ->
  forall p,
    nth_error (threads s) i = Some (Running p) ->
    is_call p = true ->
    forall result e,
      exists s1 res,
        do_action (run_of session boundExecutions rt) s
                  (Step i result (Some e)) = Some s1 /\
        nth_error (threads s1) i
          = Some (Running (SendResult res
                             (Return (if is_walk rt then Some e else None)))) /\
        id res = ID b /\
        err res = Some (if is_hook p then hook_error e else e).
Proof.
  intros Hs Hb p Hi Hcall result e.
  destruct (closure_exec session boundExecutions rt s i b Hs Hb)
    as (q & Hex & Hq & _).
  rewrite (Hq p Hi) in Hex.
  pose proof (fails_fast_exec _ _ _ _ _ Hex
                (fails_fast_closure session rt boundExecutions b)) as Hff.
  cbn [do_action]. unfold step_closure. rewrite Hi.
  destruct p as [e'|line k|res k|b' k|dir hook k|c b' k]; try discriminate;
    inversion Hff as [| | |? ? Hg _|? ? ? Hg _|? ? ? Hg _]; subst;
    [destruct (Hg e) as (res & Ek & Hid & Herr)
    |destruct (Hg e) as (res & Ek & Hid & Herr)
    |destruct (Hg result e) as (res & Ek & Hid & Herr)];
    eexists; exists res; (split; [reflexivity|]);
    cbn [performs threads is_hook]; rewrite Ek;
    (split; [eapply update_same; eauto|auto]).
Qed.

(** [app] under the graph: its hook fails. *)
Lemma failure_is_reported_at_once_witness :
  exists s s1 res,
    run_actions (run_of demo_session demo_executions (DagApply demo_graph))
                (init (run_of demo_session demo_executions (DagApply demo_graph)))
                ([Start 0; ok 0; Start 1] ++ repeat (ok 1) 7
                 ++ [Start 2; ok 2; ok 2]) = Some s /\
    do_action (run_of demo_session demo_executions (DagApply demo_graph)) s
              (Step 2 None (Some "exit status 2")) = Some s1 /\
    nth_error (threads s1) 2
      = Some (Running (SendResult res (Return (Some "exit status 2")))) /\
    id res = "app-east1-dev" /\
    err res = Some "error running PreModuleRun hook: exit status 2".
Proof.
  eexists.
  match goal with
  | |- exists s1 res, run_actions ?r ?s0 ?acts = Some ?s /\ _ =>
      assert (Hrun : run_actions r s0 acts = Some s) by (vm_compute; reflexivity);
      destruct (failure_is_reported_at_once demo_session demo_executions
                  (DagApply demo_graph) s 2 app
                  (ex_intro _ _ Hrun) eq_refl _ eq_refl eq_refl None
                  "exit status 2")
        as (s1 & res & H1 & H2 & H3 & H4)
  end.
  exists s1, res. split; [exact Hrun|]. auto.
Defined.

(** ** The pool comes to an end *)

(** A consumer can empty the two channels, and this changes nothing else. *)
Lemma drain_quietly (r : run) (s : state) :
  exists s', reaches r s s' /\ status s' = [] /\ results s' = [] /\
             threads s' = threads s /\ ctx_done s' = ctx_done s /\
             results_closed s' = results_closed s.
Proof.
  remember (List.length (status s) + List.length (results s)) as n eqn:En.
  revert s En. induction n as [|n IH]; intros s En.
  - exists s. split; [apply reaches_refl|].
    destruct (status s), (results s); cbn in En; try lia. auto.
  - destruct (status s) as [|x rest] eqn:Es.
    + destruct (results s) as [|y rest] eqn:Er; [cbn in En; lia|].
      destruct (IH (set_channels s (status s) rest (results_closed s)
                                 (range_status_ended s)))
        as (s' & Hr & H1 & H2 & H3 & H4 & H5).
      { cbn [set_channels status results]. rewrite Es. cbn in En |- *. lia. }
      exists s'. split; [|auto].
      eapply reaches_trans; [|exact Hr].
      apply (reaches_step r s _ ReceiveResult). cbn [do_action]. rewrite Er.
      reflexivity.
    + destruct (IH (set_channels s rest (results s) (results_closed s)
                                 (range_status_ended s)))
        as (s' & Hr & H1 & H2 & H3 & H4 & H5).
      { cbn [set_channels status results]. cbn in En. lia. }
      exists s'. split; [|auto].
      eapply reaches_trans; [|exact Hr].
      apply (reaches_step r s _ ReceiveStatus). cbn [do_action]. rewrite Es.
      reflexivity.
Qed.

Lemma none_running (ts : list tstate) :
  existsb is_running ts = false -> count_running ts = 0.
Proof.
  unfold count_running. induction ts as [|t ts IH]; cbn [existsb filter];
    [reflexivity|].
  intros H. apply orb_false_iff in H as [Ht Hts]. rewrite Ht. auto.
Qed.

Section PoolEnds.
Variables (r : run) (width : nat).

(** The closures are run by a pool that admits at least one of them at a
    time; each sends a bounded number of messages; and the channels have
    room for one message as soon as there is a closure. *)
Hypothesis pool : sched r = Parallel width.
Hypothesis wide : 0 < width.
Hypothesis closures_bounded :
  forall i f, nth_error (fns r) i = Some f -> exists n m, bounded f n m.
Hypothesis caps : fns r <> [] -> 0 < status_cap r /\ 0 < results_cap r.

Lemma pool_closure (s : state) (i : nat) (t : tstate) :
  reachable r s -> nth_error (threads s) i = Some t ->
  exists f, nth_error (fns r) i = Some f.
Proof.
  intros Hs Hi. destruct (reachable_coherent r s Hs) as [Hlen _].
  destruct (nth_error (fns r) i) as [f|] eqn:E; [eauto|].
  apply nth_error_None in E.
  assert (i < List.length (threads s)) by (apply nth_error_Some; congruence).
  lia.
Qed.

Lemma pool_drives (s : state) (i : nat) (p : prog) :
  reachable r s -> nth_error (threads s) i = Some (Running p) ->
  exists s' e, reaches r s s' /\
               threads s' = update (threads s) i (Finished e).
Proof.
  intros Hs Hi. destruct (pool_closure s i _ Hs Hi) as (f & Hf).
  destruct (reachable_coherent r s Hs) as [_ Hc].
  specialize (Hc i f _ Hf Hi). cbn [thread_trace] in Hc.
  destruct (closures_bounded i f Hf) as (n & m & Hb).
  apply (drive r p n m); auto.
  - eapply bounded_exec; eauto.
  - left. apply caps. intros E. rewrite E in Hf. destruct i; discriminate.
Qed.

Lemma pool_settles_one (s : state) :
  reachable r s -> scheduler_returned r s = false ->
  exists s', reaches r s s' /\
             List.length (unsettled s') < List.length (unsettled s).
Proof.
  intros Hs Hret.
  destruct (existsb is_running (threads s)) eqn:Hrun.
  - apply existsb_exists in Hrun as (t & Hin & Ht).
    apply In_nth_error in Hin as (i & Hi).
    destruct t as [|p| |]; try discriminate.
    destruct (pool_drives s i p Hs Hi) as (s' & e & Hr' & Hth).
    exists s'. split; [exact Hr'|].
    apply (settle_decreases s s' i (Running p) (Finished e)); auto.
  - unfold scheduler_returned in Hret. rewrite pool in Hret.
    apply forallb_false_ex' in Hret as (t & Hin & Ht).
    apply In_nth_error in Hin as (i & Hi).
    assert (Hnr : is_running t = false).
    { destruct (is_running t) eqn:E; auto.
      assert (existsb is_running (threads s) = true)
        by (apply existsb_exists; exists t; split;
            [eapply nth_error_In; eauto|auto]).
      congruence. }
    rewrite Hnr in Ht. cbn [negb andb] in Ht.
    apply orb_false_iff in Ht as [Hd Hp]. apply negb_false_iff in Hp.
    destruct t; try discriminate.
    destruct (pool_closure s i _ Hs Hi) as (f & Hf).
    assert (Hdo : do_action r s (Start i) = Some (set_thread s i (Running f))).
    { cbn [do_action]. rewrite Hi, Hf. unfold can_start.
      rewrite pool, Hd, (none_running _ Hrun). cbn [negb andb].
      destruct (Nat.ltb_spec 0 width); [reflexivity|lia]. }
    destruct (pool_drives (set_thread s i (Running f)) i f)
      as (s' & e & Hr' & Hth).
    + eapply reaches_trans; [exact Hs|]. eapply reaches_step; eauto.
    + cbn [set_thread threads]. eapply update_same; eauto.
    + exists s'. split.
      * eapply reaches_trans; [eapply reaches_step; eauto|exact Hr'].
      * apply (settle_decreases s s' i Pending (Finished e)); auto.
        rewrite Hth. cbn [set_thread threads]. apply update_update.
Qed.

Lemma pool_closes (s : state) :
  reachable r s ->
  exists s', reaches r s s' /\ results_closed s' = true.
Proof.
  remember (List.length (unsettled s)) as n eqn:En.
  assert (Hn : List.length (unsettled s) <= n) by lia. clear En.
  revert s Hn. induction n as [|n IH]; intros s Hn Hs;
    (destruct (results_closed s) eqn:Hc;
     [exists s; split; auto using reaches_refl|]);
    (destruct (scheduler_returned r s) eqn:Hret;
     [exists (set_channels s (status s) (results s) true (range_status_ended s));
      split; [|reflexivity];
      apply (reaches_step r s _ CloseResults); cbn [do_action];
      rewrite Hc, Hret; reflexivity|]);
    destruct (pool_settles_one s Hs Hret) as (s1 & Hr1 & Hlt); [lia|].
  destruct (IH s1) as (s' & Hr' & Hc').
  - lia.
  - eapply reaches_trans; eauto.
  - exists s'. split; [eapply reaches_trans; eauto|exact Hc'].
Qed.

(** From every state of the run, the run can be completed, results closed
    and both channels emptied. *)
Lemma pool_ends (s : state) :
  reachable r s ->
  exists s', reaches r s s' /\ results_closed s' = true /\
             status s' = [] /\ results s' = [] /\
             forall i p, nth_error (threads s') i <> Some (Running p).
Proof.
  intros Hs. destruct (pool_closes s Hs) as (s1 & Hr1 & Hc1).
  destruct (drain_quietly r s1) as (s' & Hr' & Hst & Hres & Hth & _ & Hc').
  exists s'. split; [eapply reaches_trans; eauto|].
  split; [congruence|]. split; [exact Hst|]. split; [exact Hres|].
  intros i p Hi.
  assert (Hs' : reachable r s')
    by (eapply reaches_trans; [exact Hs|eapply reaches_trans; eauto]).
  destruct (reachable_channels_ok r s' Hs') as (_ & _ & Hret).
  apply (returned_no_running r s' i p); [|exact Hi].
  apply Hret. congruence.
Qed.
End PoolEnds.

(** X9. The flat paths cannot get stuck as long as somebody reads the
    channels.  From every state a plan or a flat apply can be in, whatever
    the number of executions and of hooks and whether or not a signal has
    cancelled the run, there is a way on (closures moving, the consumers of
    status and results receiving) that ends with every started closure
    returned, results closed and both channels empty. *)
Theorem flat_run_can_finish
    (session : Session) (boundExecutions : list boundExecution) (rt : route)
    (s : state) :
  is_walk rt = false ->
  reachable (run_of session boundExecutions rt) s ->
  exists s',
    reaches (run_of session boundExecutions rt) s s' /\
    results_closed s' = true /\ status s' = [] /\ results s' = [] /\
    forall i p, nth_error (threads s') i <> Some (Running p).
Proof.
  intros Hflat Hs.
  apply (pool_ends (run_of session boundExecutions rt) 10); auto.
  - destruct rt; [reflexivity|reflexivity|discriminate].
  - lia.
  - intros i f Hf. destruct rt as [|lv detach|g]; [| |discriminate];
      cbn [run_of apply_run plan_run fns] in Hf;
      rewrite nth_error_map in Hf;
      destruct (nth_error boundExecutions i) as [b|]; try discriminate;
      injection Hf as <-; eexists; eexists.
    + apply bounded_apply_fn.
    + apply bounded_plan_fn_detach.
  - intros Hne.
    assert (Hbs : boundExecutions <> []).
    { intros ->. apply Hne. destruct rt; [reflexivity|reflexivity|discriminate]. }
    destruct boundExecutions as [|b0 bs]; [congruence|].
    destruct rt; [| |discriminate]; cbn; lia.
Qed.

(** The plan of [busy], which blocks when nobody reads status, goes on to
    its end once its lines are read. *)
Lemma flat_run_can_finish_witness :
  exists s s',
    run_actions (plan_run PerIteration demo_session [busy] false)
                (init (plan_run PerIteration demo_session [busy] false))
                (Start 0 :: repeat (ok 0) 21) = Some s /\
    do_action (plan_run PerIteration demo_session [busy] false) s
              (Step 0 None None) = None /\
    reaches (plan_run PerIteration demo_session [busy] false) s s' /\
    results_closed s' = true /\ status s' = [] /\ results s' = [].
Proof.
  eexists.
  match goal with
  | |- exists s', run_actions ?r ?s0 ?acts = Some ?s /\ _ =>
      assert (Hrun : run_actions r s0 acts = Some s) by (vm_compute; reflexivity);
      destruct (flat_run_can_finish demo_session [busy]
                  (FlatPlan PerIteration false) s eq_refl (ex_intro _ _ Hrun))
        as (s' & H1 & H2 & H3 & H4 & _)
  end.
  exists s'. split; [exact Hrun|]. split; [reflexivity|]. auto.
Defined.

(** ** Later signals *)

(** session.signalChan holds one signal at most. *)
Lemma signal_buffer (r : run) (s : state) :
  reachable r s -> List.length (signalChan s) <= 1.
Proof.
  apply (reaches_ind r (init r) (fun s => List.length (signalChan s) <= 1));
    [cbn; lia|].
  intros s1 s2 _ IH Ht.
  destruct Ht as [i f Hi Hf Hst|i Hi Hsk|i e Hi|i p o p' Hi Ho Hroom|Hcl Hret
                 |x rest Ex|x rest Ex|Ex Hcs|sig Hlen| |sig rest Hh Ex|sig Hh|sig Hh];
    try exact IH; cbn [set_signals signalChan].
  - rewrite length_app. cbn [List.length]. lia.
  - rewrite Ex in IH. cbn [List.length] in IH. lia.
Qed.

Lemma handler_gone (r : run) (s : state) (sig : Signal) :
  handler s = Cancelled sig ->
  forall s', reaches r s s' -> handler s' = Cancelled sig.
Proof.
  intros Hh. apply reaches_ind; [exact Hh|].
  intros s1 s2 _ IH Ht.
  destruct Ht as [i f Hi Hf Hst|i Hi Hsk|i e Hi|i p o p' Hi Ho Hroom|Hcl Hret
                 |x rest Ex|x rest Ex|Ex Hcs|sg Hlen| |sg rest Hh' Ex|sg Hh'|sg Hh'];
    try exact IH; congruence.
Qed.

(** X10. A run that is alone on its session (the session is as NewSession
    made it, and no goroutine of an earlier run is waiting on its channel:
    the state [init] starts from) reacts to the first signal only.  Once the
    signal goroutine (which plan and the flat apply start) has cancelled the
    run it is gone: whatever signals are delivered afterwards, none is ever
    taken from session.signalChan (which holds one signal and drops the
    others), no second notice is printed, and the run stays cancelled.
    (On a session that several runs share, each of their goroutines may
    take one signal: see [signals_on_a_shared_session].) *)
Theorem later_signals_are_ignored
    (session : Session) (boundExecutions : list boundExecution) (rt : route)
    (s : state) (sig : Signal) :
  reachable (run_of session boundExecutions rt) s ->
  handler s = Cancelled sig ->
  forall s', reaches (run_of session boundExecutions rt) s s' ->
    handler s' = Cancelled sig /\
    stdout s' = [notice sig] /\ ctx_done s' = true /\
    do_action (run_of session boundExecutions rt) s' Handle = None /\
    List.length (signalChan s') <= 1 /\
    forall sig' s'',
      do_action (run_of session boundExecutions rt) s' (Deliver sig')
        = Some s'' ->
      stdout s'' = [notice sig] /\ handler s'' = Cancelled sig /\
      (signalChan s' <> [] -> s'' = s').
Proof.
  intros Hs Hh s' Hs'.
  set (r := run_of session boundExecutions rt) in *.
  assert (Hr' : reachable r s') by (eapply reaches_trans; eauto).
  pose proof (handler_gone r s sig Hh s' Hs') as Hh'.
  pose proof (reachable_signals_ok r s' Hr') as Hok.
  unfold signals_ok in Hok. rewrite Hh' in Hok. destruct Hok as (_ & Ho & Hd).
  split; [exact Hh'|]. split; [exact Ho|]. split; [exact Hd|].
  split; [cbn [do_action]; unfold step_handler; rewrite Hh'; reflexivity|].
  split; [apply (signal_buffer r s' Hr')|].
  intros sig' s'' Hdo. cbn [do_action] in Hdo.
  destruct (Nat.ltb_spec (List.length (signalChan s')) 1) as [Hlt|Hge];
    injection Hdo as <-.
  - cbn [set_signals stdout handler]. repeat split; auto.
    intros Hne. destruct (signalChan s'); [congruence|cbn in Hlt; lia].
  - auto.
Qed.

(** Two interrupts during a plan. *)
Lemma later_signals_are_ignored_witness :
  exists s s',
    run_actions (run_of demo_session demo_executions (FlatPlan PerIteration false))
                (init (run_of demo_session demo_executions
                              (FlatPlan PerIteration false)))
                [Start 0; Deliver SIGINT; Handle; Handle; Handle] = Some s /\
    run_actions (run_of demo_session demo_executions (FlatPlan PerIteration false))
                s [Deliver SIGINT; ok 0; Deliver SIGTERM] = Some s' /\
    signalChan s' = [SIGINT] /\
    stdout s' = [notice SIGINT] /\
    do_action (run_of demo_session demo_executions (FlatPlan PerIteration false))
              s' Handle = None.
Proof.
  eexists. eexists.
  match goal with
  | |- run_actions ?r ?s0 ?acts = Some ?s /\
       run_actions _ _ ?acts' = Some ?s' /\ _ =>
      assert (Hrun : run_actions r s0 acts = Some s) by (vm_compute; reflexivity);
      assert (Hrun' : run_actions r s acts' = Some s')
        by (vm_compute; reflexivity);
      destruct (later_signals_are_ignored demo_session demo_executions
                  (FlatPlan PerIteration false) s SIGINT
                  (ex_intro _ _ Hrun) eq_refl s' (ex_intro _ _ Hrun'))
        as (_ & H2 & _ & H4 & _)
  end.
  split; [exact Hrun|]. split; [exact Hrun'|]. split; [reflexivity|].
  split; [exact H2|exact H4].
Defined.

(** A signal during the flat apply of the demo project. *)
Lemma flat_runs_handle_signals_witness :
  exists s s',
    run_actions (apply_run demo_executions) (init (apply_run demo_executions))
                [Start 0; ok 0; Deliver SIGTERM] = Some s /\
    run_actions (apply_run demo_executions) s [Handle; Handle; Handle]
      = Some s' /\
    stdout s' = [notice SIGTERM] /\ ctx_done s' = true /\
    threads s' = threads s.
Proof.
  eexists.
  match goal with
  | |- exists s', run_actions ?r ?s0 ?acts = Some ?s /\ _ =>
      assert (Hrun : run_actions r s0 acts = Some s) by (vm_compute; reflexivity);
      destruct (flat_runs_handle_signals demo_session demo_executions
                  PerIteration false r s (or_introl eq_refl)
                  (ex_intro _ _ Hrun))
        as (_ & H & _);
      destruct (H SIGTERM [] eq_refl eq_refl) as (s' & H1 & H2 & H3 & H4)
  end.
  exists s'. split; [exact Hrun|]. auto.
Defined.

(** ** Several runs on one session

    session.signalChan is made once, by NewSession, and belongs to the
    Session, which SessionRepo.Current hands to every run.  Each plan and
    each flat apply starts one goroutine that waits on it, and the goroutine
    only ends once it has received a signal.  So on a session that is used
    again the goroutines of the earlier runs are still waiting, and a signal
    goes to whichever of them receives it.  The state [init] above is that of
    a run which is alone on its session. *)

(** What the channel holds, the goroutines waiting on it in the order of the
    runs that started them, and what they have printed. *)
Record shared := {
  sh_chan : list Signal;
  sh_handlers : list hstate;
  sh_stdout : list string
}.

Inductive shared_action :=
| NewRun                      (* plan or apply starts its goroutine *)
| Signalled (sig : Signal)    (* the runtime delivers a signal *)
| Moves (j : nat).            (* the goroutine of run [j] moves on *)

Definition shared_step (s : shared) (a : shared_action) : option shared :=
  match a with
  | NewRun =>
      Some {| sh_chan := sh_chan s;
              sh_handlers := sh_handlers s ++ [Listening];
              sh_stdout := sh_stdout s |}
  | Signalled sig =>
      (* signal.Notify never blocks: a full channel loses the signal *)
      if List.length (sh_chan s) <? 1
      then Some {| sh_chan := sh_chan s ++ [sig];
                   sh_handlers := sh_handlers s; sh_stdout := sh_stdout s |}
      else Some s
  | Moves j =>
      match nth_error (sh_handlers s) j with
      | Some Listening =>
          match sh_chan s with
          | sig :: rest =>
              Some {| sh_chan := rest;
                      sh_handlers := update (sh_handlers s) j (Received sig);
                      sh_stdout := sh_stdout s |}
          | [] => None
          end
      | Some (Received sig) =>
          Some {| sh_chan := sh_chan s;
                  sh_handlers := update (sh_handlers s) j (Printed sig);
                  sh_stdout := sh_stdout s ++ [notice sig] |}
      | Some (Printed sig) =>
          (* cancel(): the context of run [j] is done *)
          Some {| sh_chan := sh_chan s;
                  sh_handlers := update (sh_handlers s) j (Cancelled sig);
                  sh_stdout := sh_stdout s |}
      | _ => None
      end
  end.

Fixpoint shared_run (s : shared) (acts : list shared_action) : option shared :=
  match acts with
  | [] => Some s
  | a :: acts' =>
      match shared_step s a with
      | Some s' => shared_run s' acts'
      | None => None
      end
  end.

(** The session as NewSession returns it. *)
Definition new_session : shared :=
  {| sh_chan := []; sh_handlers := []; sh_stdout := [] |}.


(** A run seen as the only one on its session. *)
Definition alone (s : state) : shared :=
  {| sh_chan := signalChan s; sh_handlers := [handler s];
     sh_stdout := stdout s |}.

Lemma alone_on_session (r : run) (s s' : state) :
  (handles_signals r = true ->
   shared_run new_session [NewRun] = Some (alone (init r))) /\
  (do_action r s Handle = Some s' ->
   shared_step (alone s) (Moves 0) = Some (alone s')) /\
  (forall sig, do_action r s (Deliver sig) = Some s' ->
               shared_step (alone s) (Signalled sig) = Some (alone s')).
Proof.
  split; [|split].
  - intros H. cbn. unfold alone, init. cbn. rewrite H. reflexivity.
  - cbn [do_action]. unfold step_handler, alone, shared_step.
    cbn [sh_handlers sh_chan sh_stdout nth_error].
    destruct (handler s); try discriminate.
    + destruct (signalChan s); [discriminate|]. intros [= <-]. reflexivity.
    + intros [= <-]. reflexivity.
    + intros [= <-]. reflexivity.
  - intros sig. cbn [do_action]. unfold alone, shared_step.
    cbn [sh_handlers sh_chan sh_stdout].
    destruct (List.length (signalChan s) <? 1); intros [= <-]; reflexivity.
Qed.









(** A second plan on the session of a first one that ended without a
    signal: the interrupt may go to the goroutine the first plan left
    behind.  The notice is printed, the context that is cancelled is that of
    the plan that is over, the channel is empty again, and the plan that is
    running goes on. *)
Example stale_goroutine_takes_the_signal :
  shared_run new_session
             [NewRun; NewRun; Signalled SIGINT; Moves 0; Moves 0; Moves 0]
  = Some {| sh_chan := [];
            sh_handlers := [Cancelled SIGINT; Listening];
            sh_stdout := [notice SIGINT] |}.
Proof. reflexivity. Qed.



(** ** What the consumer of results learns *)

(** Once results is closed nothing is performed any more: the Results a
    range over the channel yields are those sent up to then. *)
Lemma trace_after_close (r : run) (s : state) :
  reachable r s -> results_closed s = true ->
  forall s', reaches r s s' -> results_closed s' = true /\ trace s' = trace s.
Proof.
  intros Hs Hc. apply reaches_ind_strong; [auto|].
  intros s1 s2 H1 _ (Hc1 & Htr) Ht.
  assert (Hr1 : reachable r s1) by (eapply reaches_trans; eauto).
  destruct (reachable_channels_ok r s1 Hr1) as (_ & _ & Hret).
  specialize (Hret Hc1).
  destruct Ht as [i f Hi Hf Hst|i Hi Hsk|i e Hi|i p o p' Hi Ho Hroom|Hcl Hrt
                 |x rest E|x rest E|E Hcs|sig Hlen| |sig rest Hh E|sig Hh|sig Hh];
    try (split; assumption).
  - destruct (returned_no_running r s1 i _ Hret Hi).
  - split; [reflexivity|exact Htr].
Qed.

Lemma results_sent_In (tr : list (nat * op)) (res : Result) :
  In res (results_sent tr) <-> exists j, In (j, OpResult res) tr.
Proof.
  unfold results_sent. rewrite sent_results_In, in_map_iff. split.
  - intros ([j o] & E & H). cbn in E. subst o. eauto.
  - intros (j & H). exists (j, OpResult res). auto.
Qed.

(** Under the DAG walk, once results is closed: no Result carries an error
    exactly when every vertex was called and returned without error. *)
Lemma walk_results_all_ok (session : Session) (bs : list boundExecution)
      (g : Graph) (s : state) :
  reachable (run_of session bs (DagApply g)) s ->
  results_closed s = true ->
  (forall res, In res (results_sent (trace s)) -> err res = None) <->
  (forall i t, nth_error (threads s) i = Some t -> t = Finished None).
Proof.
  intros Hs Hc. set (r := run_of session bs (DagApply g)) in *.
  destruct (reachable_coherent r s Hs) as [Hlen Hcoh].
  assert (Hlen' : List.length (threads s) = List.length (vertices g)).
  { rewrite Hlen. unfold r. cbn [run_of graph_run fns]. apply length_map. }
  assert (Hvertex : forall i t, nth_error (threads s) i = Some t ->
             exists v, nth_error (vertices g) i = Some v).
  { intros i t Hi. destruct (nth_error (vertices g) i) as [v|] eqn:E; [eauto|].
    apply nth_error_None in E.
    assert (i < List.length (threads s)) by (apply nth_error_Some; congruence).
    lia. }
  split.
  - intros Hok.
    assert (HA : forall i e, nth_error (threads s) i = Some (Finished e) ->
               e = None).
    { intros i e Hi. destruct (Hvertex i _ Hi) as ([|b] & Hv).
      - assert (Hf : nth_error (fns r) i = Some (Return None)).
        { unfold r. cbn [run_of graph_run fns]. rewrite nth_error_map, Hv.
          reflexivity. }
        specialize (Hcoh i _ _ Hf Hi). cbn [thread_trace] in Hcoh.
        apply exec_return in Hcoh as [_ [= <-]]. reflexivity.
      - destruct (finished_verdict session bs (DagApply g) s i b e Hs Hv Hi)
          as (ops1 & res & E & _ & _ & Hv').
        apply (Hv' eq_refl). apply Hok. apply results_sent_In. exists i.
        apply ops_of_In. rewrite E. apply in_or_app. right. left. reflexivity. }
    intros i t Hi.
    destruct (reachable_channels_ok r s Hs) as (_ & _ & Hret).
    specialize (Hret Hc). unfold scheduler_returned in Hret.
    unfold r in Hret at 1. cbn [run_of graph_run sched] in Hret.
    pose proof (forallb_nth _ _ _ _ Hret Hi) as Hset.
    destruct t as [|p|e|]; try discriminate.
    + rewrite (HA i e Hi). reflexivity.
    + destruct (reachable_skips_justified r (edges g) s eq_refl Hs i Hi)
        as (a & e & _ & Ha).
      specialize (HA a _ Ha). discriminate.
  - intros Hall res Hres. apply results_sent_In in Hres as (j & Hin).
    pose proof (trace_in_range r s Hs j _ Hin) as Hj.
    destruct (nth_error (threads s) j) as [t|] eqn:Ht;
      [|apply nth_error_None in Ht; lia].
    pose proof (Hall j t Ht) as ->.
    destruct (Hvertex j _ Ht) as ([|b] & Hv).
    + destruct (root_silent session bs g s j _ Hs Hv Hin).
    + destruct (finished_verdict session bs (DagApply g) s j b None Hs Hv Ht)
        as (ops1 & res' & E & Hn & _ & Hv').
      apply ops_of_In in Hin. rewrite E in Hin.
      apply in_app_or in Hin as [Hin|[[= <-]|[]]].
      * apply sent_results_In in Hin. rewrite Hn in Hin. destruct Hin.
      * apply (Hv' eq_refl). reflexivity.
Qed.

(** ** The Results of a flat run *)

Lemma pool_never_skips (r : run) (width : nat) (s : state) :
  sched r = Parallel width -> reachable r s ->
  forall i, nth_error (threads s) i <> Some Skipped.
Proof.
  intros Hsched.
  apply (reaches_ind r (init r)
           (fun s => forall i, nth_error (threads s) i <> Some Skipped)).
  - intros i. cbn [init threads]. rewrite nth_error_map.
    destruct (nth_error (fns r) i); discriminate.
  - intros s1 s2 _ IH Ht.
    destruct Ht as [i f Hi Hf Hst|i Hi Hsk|i e Hi|i p o p' Hi Ho Hroom|Hcl Hret
                   |x rest Ex|x rest Ex|Ex Hcs|sig Hlen| |sig rest Hh Ex|sig Hh|sig Hh];
      try exact IH;
      try (intros j; cbn [set_thread performs threads];
           rewrite update_lookup; destruct (Nat.eqb i j);
           [rewrite Hi; discriminate|apply IH]).
    unfold must_skip in Hsk. rewrite Hsched in Hsk. discriminate.
Qed.

(** X21. What a plan or a flat apply has delivered when results is closed.
    Every execution has then either sent its one Result, as the last thing
    its closure did, or was never started, which happens only when a signal
    cancelled the run: without a signal every execution has reported.  And
    every Result that was sent is that of one of the executions. *)
Theorem flat_results_complete
    (session : Session) (boundExecutions : list boundExecution) (rt : route)
    (s : state) :
  is_walk rt = false ->
  reachable (run_of session boundExecutions rt) s ->
  results_closed s = true ->
  (forall i b, execution_at rt boundExecutions i b ->
     (exists ops1 res,
        ops_of i (trace s) = ops1 ++ [OpResult res] /\
        sent_results ops1 = [] /\ id res = ID b /\
        In res (results_sent (trace s))) \/
     (ctx_done s = true /\ nth_error (threads s) i = Some Pending /\
      ops_of i (trace s) = [])) /\
  (forall res, In res (results_sent (trace s)) ->
     exists i b, execution_at rt boundExecutions i b /\ id res = ID b /\
                 In (i, OpResult res) (trace s)).
Proof.
  intros Hflat Hs Hc. set (r := run_of session boundExecutions rt) in *.
  assert (Hsched : sched r = Parallel 10)
    by (destruct rt; [reflexivity|reflexivity|discriminate]).
  split.
  - intros i b Hb.
    destruct (closure_trace session boundExecutions rt s i b Hs Hb)
      as (t & Ht & _).
    destruct (reachable_channels_ok r s Hs) as (_ & _ & Hret).
    specialize (Hret Hc). unfold scheduler_returned in Hret.
    rewrite Hsched in Hret.
    pose proof (forallb_nth _ _ _ _ Hret Ht) as Hset. cbn beta in Hset.
    destruct t as [|p|e|].
    + right. cbn [is_running is_pending negb andb] in Hset.
      rewrite orb_false_r in Hset. split; [exact Hset|].
      split; [exact Ht|].
      apply (not_started_silent r s i Hs). unfold thread_is. rewrite Ht.
      reflexivity.
    + discriminate.
    + left.
      destruct (finished_verdict session boundExecutions rt s i b e Hs Hb Ht)
        as (ops1 & res & E & Hn & Hid & _).
      exists ops1, res. repeat split; auto.
      apply results_sent_In. exists i. apply ops_of_In. rewrite E.
      apply in_or_app. right. left. reflexivity.
    + destruct (pool_never_skips r 10 s Hsched Hs i Ht).
  - intros res Hres. apply results_sent_In in Hres as (i & Hin).
    pose proof (trace_in_range r s Hs i _ Hin) as Hi.
    assert (Hb : exists b, execution_at rt boundExecutions i b).
    { destruct rt as [|lv detach|g]; [| |discriminate];
        unfold r in Hi; cbn [run_of apply_run plan_run fns] in Hi;
        rewrite length_map in Hi; cbn [execution_at];
        destruct (nth_error boundExecutions i) as [b|] eqn:E; eauto;
        apply nth_error_None in E; lia. }
    destruct Hb as (b & Hb). exists i, b. split; [exact Hb|].
    split; [|exact Hin].
    apply (reported_once session boundExecutions rt s i b Hs Hb). exact Hin.
Qed.

(** A plan of the demo project that is interrupted after [users] has
    started: [users] reports, the two others never run. *)
Lemma flat_results_complete_witness :
  exists s,
    run_actions (run_of demo_session demo_executions (FlatPlan PerIteration false))
                (init (run_of demo_session demo_executions
                              (FlatPlan PerIteration false)))
                ([Start 0; Deliver SIGINT; Handle; Handle; Handle]
                 ++ repeat (ok 0) 7 ++ [CloseResults]) = Some s /\
    map id (results_sent (trace s)) = ["users"] /\
    ((exists ops1 res,
        ops_of 1 (trace s) = ops1 ++ [OpResult res] /\
        sent_results ops1 = [] /\ id res = ID app /\
        In res (results_sent (trace s))) \/
     (ctx_done s = true /\ nth_error (threads s) 1 = Some Pending /\
      ops_of 1 (trace s) = [])).
Proof.
  eexists.
  match goal with
  | |- run_actions ?r ?s0 ?acts = Some ?s /\ _ =>
      assert (Hrun : run_actions r s0 acts = Some s) by (vm_compute; reflexivity)
  end.
  split; [exact Hrun|]. split; [reflexivity|].
  apply (flat_results_complete demo_session demo_executions
           (FlatPlan PerIteration false) _ eq_refl (ex_intro _ _ Hrun) eq_refl).
  reflexivity.
Defined.

(** ** Room for the Results *)

(** The results channel has room for every Result that may still be sent. *)
Definition results_budget (r : run) (s : state) : Prop :=
  exists N M,
    budgeted (threads s) (fns r) N M /\
    List.length (results s) + M <= results_cap r.

Lemma results_budget_step (r : run) (s s' : state) :
  results_budget r s -> transition r s s' -> results_budget r s'.
Proof.
  intros (N & M & Hb & HM) Ht.
  destruct Ht as [i f Hi Hf Hs|i Hi Hs|i e Hi|i p o p' Hi Ho Hroom| |x rest E
                 |x rest E|E Hc| | | | |];
    try (exists N, M; split; auto; fail).
  - destruct (budgeted_update _ _ _ _ i Pending (Running f) 0 0 Hb Hi)
      as (N' & M' & Hb' & HN' & HM').
    { intros g n m Hg Hbud. exists n, m. cbn in *.
      assert (g = f) by congruence. subst g. repeat split; auto; lia. }
    exists N', M'. cbn [set_thread threads results]. split; auto; lia.
  - destruct (budgeted_update _ _ _ _ i Pending Skipped 0 0 Hb Hi)
      as (N' & M' & Hb' & HN' & HM').
    { intros g n m _ _. exists 0, 0. cbn. repeat split; auto; lia. }
    exists N', M'. cbn [set_thread threads results]. split; auto; lia.
  - destruct (budgeted_update _ _ _ _ i _ (Finished e) 0 0 Hb Hi)
      as (N' & M' & Hb' & HN' & HM').
    { intros g n m _ _. exists 0, 0. cbn. repeat split; auto; lia. }
    exists N', M'. cbn [set_thread threads results]. split; auto; lia.
  - destruct (budgeted_update _ _ _ _ i _ (Running p')
                              (status_sends o) (result_sends o) Hb Hi)
      as (N' & M' & Hb' & HN' & HM').
    { intros g n m _ Hbud. cbn in Hbud.
      destruct (bounded_step _ _ _ _ _ Hbud Ho) as (n' & m' & Hb' & Hn & Hm).
      exists n', m'. cbn. repeat split; auto; lia. }
    exists N', M'. cbn [performs threads results].
    split; [exact Hb'|].
    destruct o; cbn [status_sends result_sends] in *;
      rewrite ?length_app; cbn [List.length]; lia.
  - exists N, M. cbn [set_channels threads results].
    rewrite E in HM. cbn [List.length] in HM. split; auto; lia.
Qed.

(** Closures that send one Result each, however many status lines. *)
Lemma static_budget_results (fs : list prog) :
  Forall (fun f => exists n, bounded f n 1) fs ->
  exists N, static_budget fs N (List.length fs).
Proof.
  induction 1 as [|f fs (n & Hf) _ (N & IH)]; cbn [List.length].
  - exists 0. constructor.
  - exists (n + N). apply (static_cons f fs n 1 N (List.length fs)); assumption.
Qed.

Lemma static_budget_walk_results (session : Session) (vs : list Vertex) :
  exists N,
    static_budget (map (walk_fn session) vs) N
      (List.length (executions_of {| vertices := vs; edges := [] |})).
Proof.
  unfold executions_of. cbn [vertices].
  induction vs as [|v vs (N & IH)]; cbn [map flat_map].
  - exists 0. constructor.
  - destruct v as [|b]; cbn [app List.length].
    + exists (0 + N). apply (static_cons _ _ 0 0); [constructor|exact IH].
    + exists (walk_status_bound (execution b) + N).
      apply (static_cons _ _ _ 1); [apply (bounded_walk_fn session (execution b))
                                   |exact IH].
Qed.

Lemma run_of_results_budget (session : Session) (bs : list boundExecution)
      (rt : route) :
  (forall g, rt = DagApply g -> executions_of g = bs) ->
  results_budget (run_of session bs rt) (init (run_of session bs rt)).
Proof.
  intros Hg. unfold results_budget. cbn [init threads results List.length].
  destruct rt as [|lv detach|g]; cbn [run_of].
  - destruct (static_budget_results (map apply_fn bs)) as (N & HN).
    { apply Forall_forall. intros f Hf. apply in_map_iff in Hf as (b & <- & _).
      eexists. apply bounded_apply_fn. }
    rewrite length_map in HN. exists N, (List.length bs).
    split; [apply budgeted_init; exact HN|cbn; lia].
  - destruct (static_budget_results
                (map (fun b => plan_fn session detach b (captured lv bs b)) bs))
      as (N & HN).
    { apply Forall_forall. intros f Hf. apply in_map_iff in Hf as (b & <- & _).
      eexists. apply bounded_plan_fn_detach. }
    rewrite length_map in HN. exists N, (List.length bs).
    split; [apply budgeted_init; exact HN|cbn; lia].
  - destruct (static_budget_walk_results session (vertices g)) as (N & HN).
    specialize (Hg g eq_refl). unfold executions_of in *. cbn [vertices] in HN.
    rewrite Hg in HN. exists N, (List.length bs).
    split; [apply budgeted_init; exact HN|cbn; lia].
Qed.

(** X22. The results channel is always big enough.  On the three paths
    (under applyWithGraph: when the graph holds the executions it was built
    from) a closure that is about to send its Result can always do so at
    once, whether or not anybody reads the channels and however many hooks
    the modules declare: results, with its capacity of one slot per
    execution, is neither closed nor full at that moment. *)
Theorem result_send_never_blocks
    (session : Session) (boundExecutions : list boundExecution) (rt : route)
    (s : state) :
  (forall g, rt = DagApply g -> executions_of g = boundExecutions) ->
  reachable (run_of session boundExecutions rt) s ->
  forall i res k,
    nth_error (threads s) i = Some (Running (SendResult res k)) ->
    results_closed s = false /\
    List.length (results s) < List.length boundExecutions /\
    forall result e,
      do_action (run_of session boundExecutions rt) s (Step i result e)
      = Some (performs s i (OpResult res) k).
Proof.
  intros Hg Hs i res k Hi. set (r := run_of session boundExecutions rt) in *.
  assert (Hbud : results_budget r s).
  { revert Hs. apply reaches_ind; [apply run_of_results_budget; exact Hg|].
    intros s1 s2 _. apply results_budget_step. }
  destruct Hbud as (N & M & Hb & HM).
  destruct (budgeted_lookup _ _ _ _ i _ Hb Hi) as (f & n & m & _ & Hbud & _ & Hm).
  cbn [thread_budget] in Hbud. inversion Hbud; subst.
  assert (Hcap : results_cap r = List.length boundExecutions)
    by (destruct rt; reflexivity).
  destruct (reachable_channels_ok r s Hs) as (_ & _ & Hret).
  assert (Hrc : results_closed s = false).
  { destruct (results_closed s) eqn:E; auto.
    destruct (returned_no_running r s i _ (Hret eq_refl) Hi). }
  split; [exact Hrc|]. split; [lia|].
  intros result e. cbn [do_action]. unfold step_closure. rewrite Hi, Hrc.
  destruct (Nat.ltb_spec (List.length (results s)) (results_cap r));
    [reflexivity|lia].
Qed.

(** The plan of [busy], which blocks on status when nobody reads, with its
    hook failing instead: the Result goes out. *)
Lemma result_send_never_blocks_witness :
  exists s s',
    run_actions (run_of demo_session [busy] (FlatPlan PerIteration false))
                (init (run_of demo_session [busy] (FlatPlan PerIteration false)))
                [Start 0; ok 0; ok 0; fail 0 "exit status 2"] = Some s /\
    do_action (run_of demo_session [busy] (FlatPlan PerIteration false)) s
              (Step 0 None None) = Some s' /\
    map id (results s') = ["busy"].
Proof.
  eexists.
  match goal with
  | |- exists s', run_actions ?r ?s0 ?acts = Some ?s /\ _ =>
      assert (Hrun : run_actions r s0 acts = Some s) by (vm_compute; reflexivity);
      destruct (result_send_never_blocks demo_session [busy]
                  (FlatPlan PerIteration false) s
                  ltac:(intros g; discriminate)
                  (ex_intro _ _ Hrun) 0 _ _ eq_refl) as (_ & _ & H)
  end.
  eexists. split; [exact Hrun|]. split; [apply (H None None)|reflexivity].
Defined.

End Sessions.

(* ===================================================================== *)
(** * The command line: printExecStatus *)
(* ===================================================================== *)

Module Display.
Import Sessions.

Local Open Scope list_scope.
Local Open Scope nat_scope.

(** ** Colours

    aurora wraps a text in an ANSI colour sequence; the codes are those the
    tests of the command line expect. *)
Definition esc : string := String (ascii_of_nat 27) EmptyString.
Definition colour (code text : string) : string :=
  (esc ++ "[" ++ code ++ "m" ++ text ++ esc ++ "[0m")%string.
Definition Green : string -> string := colour "32".
Definition Red : string -> string := colour "31".
Definition Brown : string -> string := colour "33".
Definition Gray : string -> string := colour "37".

(** terraform.PlanResult, as far as it is shown. *)
Record PlanResult := {
  HasChanges : bool;
  Changes : string
}.

(** cli.stdout and cli.stderr. *)
Inductive writer := cli_stdout | cli_stderr.

(** What has been written so far, in order. *)
Definition log := list (writer * string).

(** What printExecStatus returns: nil, the multierror it has built, or the
    error of a write. *)
Inductive outcome :=
| NoError
| Errors (errs : list error)
| WriteFailed (e : error).

(** Code that writes, and stops at the first write that fails. *)
Definition M (A : Type) : Type := log -> (A + error) * log.

Definition ret {A : Type} (a : A) : M A := fun l => (inl a, l).

Definition bind {A B : Type} (m : M A) (k : A -> M B) : M B :=
  fun l =>
    match m l with
    | (inl a, l') => k a l'
    | (inr e, l') => (inr e, l')
    end.

Notation "x <- m ;; k" := (bind m (fun x => k))
  (at level 61, m at next level, right associativity).
Notation "m ;; k" := (bind m (fun _ => k))
  (at level 61, right associativity).

Section PrintExecStatus.

(** terraformResult.( *terraform.PlanResult): the plan behind a result, when
    the result is one of a plan. *)
Variable asPlanResult : TerraformResult -> option PlanResult.
(** terraform.CanDisplayReadableTerraformPolicyChanges and
    terraform.ReadableTerraformPolicyChanges. *)
Variable CanDisplayReadableTerraformPolicyChanges : bool.
Variable ReadableTerraformPolicyChanges : string -> string * option error.
(** What fmt.Fprintf makes of a format string that comes without
    arguments. *)
Variable format : string -> string.
(** The error, if any, of a write, given what was written before. *)
Variable write_err : log -> writer -> string -> option error.

(** fmt.Fprint* on one of the two writers. *)
Definition Fprint (out : writer) (text : string) : M unit :=
  fun l =>
    match write_err l out text with
    | Some e => (inr e, l)
    | None => (inl tt, l ++ [(out, text)])
    end.

Definition planResult (result : Result) : option PlanResult :=
  match terraformResult result with
  | Some t => asPlanResult t
  | None => None
  end.

(** Where the lines of a result go. *)
Definition out_of (result : Result) : writer :=
  match err result with
  | None => cli_stdout
  | Some _ => cli_stderr
  end.

(** The status line: "%s: %s%s%s\n". *)
Definition result_line (result : Result) : string :=
  let resultType :=
    match err result with
    | None => Green "OK"
    | Some _ => Red "ERROR"
    end in
  let changesInfo :=
    match planResult result with
    | Some p => if HasChanges p then Brown " Changes" else Gray " No changes"
    | None => ""
    end in
  let runtimeInfo :=
    match terraformResult result with
    | Some t => Gray (" (" ++ Runtime t ++ ")")
    | None => ""
    end in
  (id result ++ ": " ++ resultType ++ changesInfo ++ runtimeInfo ++ newline)%string.

(** The body of the loop over results, after the error was recorded. *)
Definition printResult (result : Result) : M unit :=
  let out := out_of result in
  Fprint out (result_line result) ;;
  match planResult result with
  | Some p =>
      if HasChanges p then
        planOutput <-
          (if CanDisplayReadableTerraformPolicyChanges then
             let '(readable, e) := ReadableTerraformPolicyChanges (Changes p) in
             match e with
             | Some e => Fprint out (newline ++ e)%string ;; ret readable
             | None => ret readable
             end
           else ret (Changes p)) ;;
        Fprint out (newline ++ planOutput)%string
      else ret tt
  | None => ret tt
  end ;;
  match terraformResult result with
  | Some t => Fprint out (format (Stderr t))
  | None =>
      match err result with
      | Some e => Fprint out (e ++ newline)%string
      | None => ret tt
      end
  end.

(** multierror.Append(errors, err) on the errors collected so far. *)
Definition Append (errors : list error) (e : error) : list error :=
  errors ++ [e].

(** The loop [for result := range results]: [results] is what the channel
    yields until it is closed.  Returns what printExecStatus returns, what
    was written, and the results left unread. *)
Fixpoint range_results (results : list Result) (errors : list error) (l : log)
  : outcome * log * list Result :=
  match results with
  | [] =>
      (match errors with [] => NoError | _ :: _ => Errors errors end, l, [])
  | result :: rest =>
      let errors := match err result with
                    | Some e => Append errors e
                    | None => errors
                    end in
      match printResult result l with
      | (inl _, l') => range_results rest errors l'
      | (inr e, l') => (WriteFailed e, l', rest)
      end
  end.

Definition printExecStatus (results : list Result)
  : outcome * log * list Result :=
  range_results results [] [].

(** The goroutine over status: it writes every update, followed by a
    newline, to cli.stdout when verbose and to io.Discard otherwise, and
    ends at the first write that fails.  Returns what it wrote and the
    updates it left unread. *)
Fixpoint range_status (verbose : bool) (updates : list string) (l : log)
  : log * list string :=
  match updates with
  | [] => (l, [])
  | update :: rest =>
      if verbose then
        match Fprint cli_stdout (update ++ newline)%string l with
        | (inl _, l') => range_status verbose rest l'
        | (inr _, l') => (l', rest)
        end
      else range_status verbose rest l
  end.

(** ** What the loop returns *)

(** The errors of the results that failed, in arrival order. *)
Definition failures (results : list Result) : list error :=
  flat_map (fun r => match err r with Some e => [e] | None => [] end) results.

Definition collected (errors : list error) : outcome :=
  match errors with [] => NoError | _ :: _ => Errors errors end.

Lemma range_results_outcome (results : list Result) (errors : list error)
      (l : log) :
  match fst (fst (range_results results errors l)) with
  | WriteFailed e =>
      exists pre r post l',
        results = pre ++ r :: post /\
        snd (range_results results errors l) = post /\
        fst (printResult r l') = inr e
  | out =>
      snd (range_results results errors l) = [] /\
      out = collected (errors ++ failures results)
  end.
Proof.
  revert errors l. induction results as [|r results IH]; intros errors l;
    cbn [range_results failures flat_map].
  - rewrite app_nil_r. cbn [fst snd]. destruct errors; cbn; auto.
  - destruct (printResult r l) as [[[]|e] l'] eqn:Hp.
    + specialize (IH (match err r with
                      | Some e => Append errors e
                      | None => errors
                      end) l').
      destruct (fst (fst (range_results results _ l'))) as [|errs|e] eqn:Hout.
      * destruct IH as (Hu & Hc). split; [exact Hu|]. rewrite Hc.
        unfold Append. fold (failures results).
        destruct (err r); rewrite <- ?app_assoc; reflexivity.
      * destruct IH as (Hu & Hc). split; [exact Hu|]. rewrite Hc.
        unfold Append. fold (failures results).
        destruct (err r); rewrite <- ?app_assoc; reflexivity.
      * destruct IH as (pre & r' & post & l0 & -> & Hu & Hf).
        exists (r :: pre), r', post, l0. auto.
    + cbn [fst snd]. exists [], r, results, l. rewrite Hp. auto.
Qed.

(** X11. What printExecStatus returns.  Either a write failed: then it
    returns the error of that write alone (the errors of the results seen so
    far are dropped) and leaves the results after the current one unread.
    Or it has read every result up to the close of the channel and returns
    the errors of the failed results, in arrival order, as one multierror;
    it returns nil exactly when no result carried an error. *)
Theorem printExecStatus_outcome (results : list Result) :
  match fst (fst (printExecStatus results)) with
  | WriteFailed e =>
      exists pre r post l,
        results = pre ++ r :: post /\
        snd (printExecStatus results) = post /\
        fst (printResult r l) = inr e
  | NoError =>
      snd (printExecStatus results) = [] /\
      forall r, In r results -> err r = None
  | Errors errs =>
      snd (printExecStatus results) = [] /\
      errs = failures results /\ errs <> [] /\
      forall e, In e errs <-> exists r, In r results /\ err r = Some e
  end.
Proof.
  unfold printExecStatus.
  pose proof (range_results_outcome results [] []) as H.
  assert (Hin : forall e, In e (failures results)
                          <-> exists r, In r results /\ err r = Some e).
  { intros e. unfold failures. rewrite in_flat_map. split.
    - intros (r & Hr & He). exists r. split; [exact Hr|].
      destruct (err r); [destruct He as [->|[]]; reflexivity|destruct He].
    - intros (r & Hr & He). exists r. split; [exact Hr|]. rewrite He.
      left. reflexivity. }
  destruct (fst (fst (range_results results [] []))) as [|errs|e].
  - destruct H as (Hu & Hc). split; [exact Hu|]. cbn [app] in Hc.
    intros r Hr. destruct (err r) as [e|] eqn:He; [|reflexivity].
    assert (Hf : In e (failures results)) by (apply Hin; eauto).
    destruct (failures results); [destruct Hf|discriminate].
  - destruct H as (Hu & Hc). split; [exact Hu|]. cbn [app] in Hc.
    destruct (failures results) as [|x xs] eqn:E; [discriminate|].
    injection Hc as ->. split; [reflexivity|]. split; [discriminate|exact Hin].
  - exact H.
Qed.

(** ** Where the lines go *)

(** [writes m a ts]: [m] succeeds with [a] after writing [ts], whatever was
    written before. *)
Definition writes {A : Type} (m : M A) (a : A) (ts : log) : Prop :=
  forall l, m l = (inl a, l ++ ts).

Lemma writes_ret {A : Type} (a : A) : writes (ret a) a [].
Proof. intros l. unfold ret. rewrite app_nil_r. reflexivity. Qed.

Lemma writes_bind {A B : Type} (m : M A) (k : A -> M B) (a : A) (b : B)
      (ts ts' : log) :
  writes m a ts -> writes (k a) b ts' -> writes (bind m k) b (ts ++ ts').
Proof.
  intros Hm Hk l. unfold bind. rewrite Hm, Hk, app_assoc. reflexivity.
Qed.

Definition writer_eqb (a b : writer) : bool :=
  match a, b with
  | cli_stdout, cli_stdout | cli_stderr, cli_stderr => true
  | _, _ => false
  end.

(** What reached one of the two writers. *)
Definition on (w : writer) (l : log) : list string :=
  map snd (filter (fun x => writer_eqb (fst x) w) l).

Definition succeeded (r : Result) : bool :=
  match err r with None => true | Some _ => false end.

(** What is written for one result when nothing was written before. *)
Definition lines_of (r : Result) : log := snd (printResult r []).

Lemma on_app (w : writer) (l l' : log) : on w (l ++ l') = on w l ++ on w l'.
Proof. unfold on. rewrite filter_app, map_app. reflexivity. Qed.

Lemma on_same (w : writer) (ts : list string) :
  on w (map (pair w) ts) = ts.
Proof.
  unfold on. induction ts as [|t ts IH]; cbn [map filter fst]; [reflexivity|].
  destruct w; cbn [writer_eqb map snd]; f_equal; exact IH.
Qed.

Lemma on_other (w w' : writer) (ts : list string) :
  writer_eqb w' w = false -> on w (map (pair w') ts) = [].
Proof.
  intros E. unfold on. induction ts as [|t ts IH]; cbn [map filter fst];
    [reflexivity|]. rewrite E. exact IH.
Qed.

(** ** The goroutine and the loop side by side

    printExecStatus starts the goroutine over status (when status is not
    nil) and goes on with the loop over results; the two write to the same
    cli.stdout while both run. *)

(** The texts the body of the loop hands to fmt.Fprint*, in order, for one
    result. *)
Definition attempts (result : Result) : log :=
  let out := out_of result in
  [(out, result_line result)]
  ++ match planResult result with
     | Some p =>
         if HasChanges p then
           if CanDisplayReadableTerraformPolicyChanges then
             let '(readable, e) := ReadableTerraformPolicyChanges (Changes p) in
             match e with
             | Some e => [(out, (newline ++ e)%string)]
             | None => []
             end ++ [(out, (newline ++ readable)%string)]
           else [(out, (newline ++ Changes p)%string)]
         else []
     | None => []
     end
  ++ match terraformResult result with
     | Some t => [(out, format (Stderr t))]
     | None =>
         match err result with
         | Some e => [(out, (e ++ newline)%string)]
         | None => []
         end
     end.

Fixpoint Fprint_all (ts : log) : M unit :=
  match ts with
  | [] => ret tt
  | (out, text) :: ts => Fprint out text ;; Fprint_all ts
  end.

(** Where the two stand.  [waiting] is the goroutine: the updates it has
    yet to read, or [None] when it was not started or has returned.  The
    loop is before a write of its body ([pending] holds the writes left for
    the current result), about to read the next result, or has returned. *)
Record config := {
  shown : log;
  waiting : option (list string);
  pending : log;
  unread : list Result;
  errors : list error;
  returned : option outcome
}.

Inductive move :=
| Goroutine     (* the goroutine reads an update and prints it *)
| Loop.         (* the loop makes its next write, read or return *)

Definition step (verbose : bool) (c : config) (m : move) : option config :=
  match m with
  | Goroutine =>
      match waiting c with
      | Some (update :: rest) =>
          if verbose then
            match write_err (shown c) cli_stdout (update ++ newline)%string with
            | Some _ =>
                Some {| shown := shown c; waiting := None;
                        pending := pending c; unread := unread c;
                        errors := errors c; returned := returned c |}
            | None =>
                Some {| shown := shown c
                                 ++ [(cli_stdout, (update ++ newline)%string)];
                        waiting := Some rest;
                        pending := pending c; unread := unread c;
                        errors := errors c; returned := returned c |}
            end
          else
            Some {| shown := shown c; waiting := Some rest;
                    pending := pending c; unread := unread c;
                    errors := errors c; returned := returned c |}
      | _ => None
      end
  | Loop =>
      match returned c with
      | Some _ => None
      | None =>
          match pending c with
          | (out, text) :: more =>
              match write_err (shown c) out text with
              | Some e =>
                  Some {| shown := shown c; waiting := waiting c;
                          pending := more; unread := unread c;
                          errors := errors c;
                          returned := Some (WriteFailed e) |}
              | None =>
                  Some {| shown := shown c ++ [(out, text)];
                          waiting := waiting c;
                          pending := more; unread := unread c;
                          errors := errors c; returned := None |}
              end
          | [] =>
              match unread c with
              | result :: rest =>
                  Some {| shown := shown c; waiting := waiting c;
                          pending := attempts result; unread := rest;
                          errors := match err result with
                                    | Some e => Append (errors c) e
                                    | None => errors c
                                    end;
                          returned := None |}
              | [] =>
                  Some {| shown := shown c; waiting := waiting c;
                          pending := []; unread := [];
                          errors := errors c;
                          returned := Some (collected (errors c)) |}
              end
          end
      end
  end.

Fixpoint run_moves (verbose : bool) (c : config) (ms : list move)
  : option config :=
  match ms with
  | [] => Some c
  | m :: ms' =>
      match step verbose c m with
      | Some c' => run_moves verbose c' ms'
      | None => None
      end
  end.

(** printExecStatus(status, results) is called: [status] is [None] for a
    nil channel, and otherwise holds the updates the channel will yield. *)
Definition called (status : option (list string)) (results : list Result)
  : config :=
  {| shown := []; waiting := status; pending := []; unread := results;
     errors := []; returned := None |}.

(** The body of the loop makes the writes of [attempts], one after the
    other, up to the first that fails. *)
Lemma Fprint_all_app (ts ts' : log) (l : log) :
  Fprint_all (ts ++ ts') l = (Fprint_all ts ;; Fprint_all ts') l.
Proof.
  revert l. induction ts as [|[out text] ts IH]; intros l; cbn [Datatypes.app Fprint_all].
  - reflexivity.
  - unfold bind in *. destruct (Fprint out text l) as [[[]|e] l'];
      [|reflexivity].
    apply IH.
Qed.

Lemma bind_ext {A B : Type} (m m' : M A) (k k' : A -> M B) (l : log) :
  (forall l, m l = m' l) -> (forall a l, k a l = k' a l) ->
  bind m k l = bind m' k' l.
Proof.
  intros Hm Hk. unfold bind. rewrite Hm.
  destruct (m' l) as [[a|e] l']; auto.
Qed.

Lemma Fprint_last (out : writer) (text : string) (l : log) :
  Fprint out text l = Fprint_all [(out, text)] l.
Proof.
  cbn [Fprint_all]. unfold bind, ret.
  destruct (Fprint out text l) as [[[]|e] l']; reflexivity.
Qed.

Lemma printResult_attempts (result : Result) (l : log) :
  printResult result l = Fprint_all (attempts result) l.
Proof.
  unfold printResult, attempts. cbn [Datatypes.app Fprint_all].
  apply bind_ext; [reflexivity|]. intros _ l1.
  rewrite Fprint_all_app. apply bind_ext.
  - intros l2. destruct (planResult result) as [p|]; [|reflexivity].
    destruct (HasChanges p); [|reflexivity].
    destruct CanDisplayReadableTerraformPolicyChanges;
      [|apply Fprint_last].
    destruct (ReadableTerraformPolicyChanges (Changes p)) as [readable [e|]];
      cbn [Datatypes.app Fprint_all]; unfold bind, ret.
    + destruct (Fprint _ _ l2) as [[[]|?] l3]; [|reflexivity].
      destruct (Fprint _ _ l3) as [[[]|?] ?]; reflexivity.
    + destruct (Fprint _ _ l2) as [[[]|?] ?]; reflexivity.
  - intros _ l2.
    destruct (terraformResult result) as [t|]; [|destruct (err result)];
      try apply Fprint_last; reflexivity.
Qed.

(** [merged l1 l2 l]: [l] is made of [l1] and [l2], each in its own
    order. *)
Inductive merged {A : Type} : list A -> list A -> list A -> Prop :=
| merged_nil : merged [] [] []
| merged_left x l1 l2 l : merged l1 l2 l -> merged (x :: l1) l2 (x :: l)
| merged_right x l1 l2 l : merged l1 l2 l -> merged l1 (x :: l2) (x :: l).

Lemma merged_snoc_left {A} (l1 l2 l : list A) (x : A) :
  merged l1 l2 l -> merged (l1 ++ [x]) l2 (l ++ [x]).
Proof.
  induction 1; cbn [Datatypes.app]; repeat constructor; assumption.
Qed.

Lemma merged_snoc_right {A} (l1 l2 l : list A) (x : A) :
  merged l1 l2 l -> merged l1 (l2 ++ [x]) (l ++ [x]).
Proof.
  induction 1; cbn [Datatypes.app]; repeat constructor; assumption.
Qed.

Lemma merged_only_right {A} (l2 l : list A) : merged [] l2 l -> l = l2.
Proof.
  revert l. induction l2 as [|x l2 IH]; intros l H; inversion H; subst;
    [reflexivity|]. f_equal. apply IH. assumption.
Qed.

Lemma merged_filter {A} (f : A -> bool) (l1 l2 l : list A) :
  merged l1 l2 l -> merged (filter f l1) (filter f l2) (filter f l).
Proof.
  induction 1; cbn [filter]; try destruct (f x); try constructor; assumption.
Qed.

Lemma merged_map {A B} (f : A -> B) (l1 l2 l : list A) :
  merged l1 l2 l -> merged (map f l1) (map f l2) (map f l).
Proof. induction 1; cbn [map]; constructor; assumption. Qed.

Lemma merged_on (w : writer) (l1 l2 l : log) :
  merged l1 l2 l -> merged (on w l1) (on w l2) (on w l).
Proof. intros H. unfold on. apply merged_map, merged_filter, H. Qed.

(** What the goroutine has printed when it has read [read]. *)
Definition status_lines (verbose : bool) (read : list string) : log :=
  if verbose
  then map (fun u => (cli_stdout, (u ++ newline)%string)) read
  else [].

Section WorkingWriters.
Hypothesis writers_work : forall l out text, write_err l out text = None.

Lemma writes_Fprint (out : writer) (text : string) :
  writes (Fprint out text) tt [(out, text)].
Proof. intros l. unfold Fprint. rewrite writers_work. reflexivity. Qed.

(** The lines of one result: they all go to the writer of the result, and
    the status line comes first. *)
Lemma printResult_writes (r : Result) :
  exists more,
    writes (printResult r) tt (map (pair (out_of r)) (result_line r :: more)).
Proof.
  unfold printResult.
  assert (Hlast : exists ts,
             writes (match terraformResult r with
                     | Some t => Fprint (out_of r) (format (Stderr t))
                     | None =>
                         match err r with
                         | Some e => Fprint (out_of r) (e ++ newline)%string
                         | None => ret tt
                         end
                     end) tt (map (pair (out_of r)) ts)).
  { destruct (terraformResult r) as [t|]; [|destruct (err r) as [e|]].
    - exists [format (Stderr t)]. apply writes_Fprint.
    - exists [(e ++ newline)%string]. apply writes_Fprint.
    - exists []. apply writes_ret. }
  destruct Hlast as (ts3 & H3).
  assert (Hplan : exists ts,
             writes (match planResult r with
                     | Some p =>
                         if HasChanges p then
                           planOutput <-
                             (if CanDisplayReadableTerraformPolicyChanges then
                                let '(readable, e) :=
                                  ReadableTerraformPolicyChanges (Changes p) in
                                match e with
                                | Some e =>
                                    Fprint (out_of r) (newline ++ e)%string ;;
                                    ret readable
                                | None => ret readable
                                end
                              else ret (Changes p)) ;;
                           Fprint (out_of r) (newline ++ planOutput)%string
                         else ret tt
                     | None => ret tt
                     end) tt (map (pair (out_of r)) ts)).
  { destruct (planResult r) as [p|]; [|exists []; apply writes_ret].
    destruct (HasChanges p); [|exists []; apply writes_ret].
    destruct CanDisplayReadableTerraformPolicyChanges.
    - destruct (ReadableTerraformPolicyChanges (Changes p)) as [readable [e|]].
      + exists [(newline ++ e)%string; (newline ++ readable)%string].
        apply (writes_bind _ _ readable tt [(out_of r, (newline ++ e)%string)]
                 [(out_of r, (newline ++ readable)%string)]);
          [|apply writes_Fprint].
        apply (writes_bind _ _ tt readable [(out_of r, (newline ++ e)%string)] []);
          [apply writes_Fprint|apply writes_ret].
      + exists [(newline ++ readable)%string].
        apply (writes_bind _ _ readable tt [] [(out_of r, (newline ++ readable)%string)]);
          [apply writes_ret|apply writes_Fprint].
    - exists [(newline ++ Changes p)%string].
      apply (writes_bind _ _ (Changes p) tt []
               [(out_of r, (newline ++ Changes p)%string)]);
        [apply writes_ret|apply writes_Fprint]. }
  destruct Hplan as (ts2 & H2).
  exists (ts2 ++ ts3). cbn [map]. rewrite map_app.
  apply (writes_bind _ _ tt tt [(out_of r, result_line r)]);
    [apply writes_Fprint|].
  apply (writes_bind _ _ tt tt); assumption.
Qed.

Lemma lines_of_shape (r : Result) :
  exists more, lines_of r = map (pair (out_of r)) (result_line r :: more).
Proof.
  destruct (printResult_writes r) as (more & Hw). exists more.
  unfold lines_of. rewrite Hw. reflexivity.
Qed.

Lemma printResult_lines (r : Result) (l : log) :
  printResult r l = (inl tt, l ++ lines_of r).
Proof.
  destruct (printResult_writes r) as (more & Hw).
  unfold lines_of. rewrite !Hw. reflexivity.
Qed.

Lemma range_results_works (results : list Result) (errors : list error)
      (l : log) :
  range_results results errors l
  = (collected (errors ++ failures results),
     l ++ flat_map lines_of results, []).
Proof.
  revert errors l. induction results as [|r results IH]; intros errors l;
    cbn [range_results failures flat_map].
  - rewrite !app_nil_r. reflexivity.
  - rewrite printResult_lines, IH. fold (failures results). unfold Append.
    rewrite <- (app_assoc l). destruct (err r); rewrite <- ?app_assoc;
      reflexivity.
Qed.

Lemma on_lines (w : writer) (results : list Result) :
  on w (flat_map lines_of results)
  = map snd (flat_map lines_of
               (filter (fun r => writer_eqb (out_of r) w) results)).
Proof.
  induction results as [|r results IH]; cbn [flat_map filter]; [reflexivity|].
  rewrite on_app, IH. destruct (lines_of_shape r) as (more & E).
  destruct (writer_eqb (out_of r) w) eqn:Ew.
  - cbn [flat_map]. rewrite map_app. f_equal. rewrite E.
    assert (out_of r = w) by (destruct (out_of r), w; try discriminate; auto).
    subst w. rewrite on_same, map_map. cbn [snd]. symmetry. apply map_id.
  - rewrite E, on_other by exact Ew. reflexivity.
Qed.

(** With writers that work, the body of the loop makes all the writes of
    [attempts]. *)
Lemma Fprint_all_works (ts l : log) : Fprint_all ts l = (inl tt, l ++ ts).
Proof.
  revert l. induction ts as [|[out text] ts IH]; intros l; cbn [Fprint_all].
  - unfold ret. rewrite app_nil_r. reflexivity.
  - unfold bind, Fprint. rewrite writers_work, IH, <- app_assoc. reflexivity.
Qed.

Lemma lines_of_attempts (r : Result) : lines_of r = attempts r.
Proof.
  unfold lines_of. rewrite printResult_attempts, Fprint_all_works.
  reflexivity.
Qed.

Lemma flat_map_attempts (results : list Result) :
  flat_map attempts results = flat_map lines_of results.
Proof.
  apply flat_map_ext. intros r. symmetry. apply lines_of_attempts.
Qed.

Lemma failures_app (rs rs' : list Result) :
  failures (rs ++ rs') = failures rs ++ failures rs'.
Proof. apply flat_map_app. Qed.

Lemma merged_In_right {A} (l1 l2 l : list A) (x : A) :
  merged l1 l2 l -> In x l2 -> In x l.
Proof.
  induction 1 as [|y l1 l2 l H IH|y l1 l2 l H IH]; intros Hin.
  - exact Hin.
  - right. auto.
  - destruct Hin as [->|Hin]; [left; reflexivity|right; auto].
Qed.

Lemma on_status_lines (verbose : bool) (read : list string) :
  on cli_stdout (status_lines verbose read)
  = (if verbose then map (fun u => (u ++ newline)%string) read else []) /\
  on cli_stderr (status_lines verbose read) = [].
Proof.
  unfold status_lines. destruct verbose; [|split; reflexivity].
  rewrite <- (map_map (fun u => (u ++ newline)%string) (pair cli_stdout)).
  split; [apply on_same|apply on_other; reflexivity].
Qed.

Section SideBySide.
Variables (verbose : bool) (status : option (list string))
          (results : list Result).

(** What holds of the goroutine and the loop wherever they stand: the
    goroutine has read an initial part [read] of the updates and the loop an
    initial part [seen] of the results; what is on the two writers is made
    of the lines of the one and the writes [ml] of the other. *)
Definition side_by_side (c : config) : Prop :=
  exists read seen ml,
    match status with
    | Some updates => exists rest, waiting c = Some rest /\ updates = read ++ rest
    | None => waiting c = None /\ read = []
    end /\
    results = seen ++ unread c /\
    errors c = failures seen /\
    ml ++ pending c = flat_map attempts seen /\
    merged (status_lines verbose read) ml (shown c) /\
    (forall out, returned c = Some out ->
       out = collected (failures results) /\ pending c = [] /\ unread c = []).

Lemma side_by_side_called : side_by_side (called status results).
Proof.
  exists [], [], []. cbn [called waiting unread errors pending shown returned].
  split; [destruct status as [updates|]; eauto|].
  split; [reflexivity|]. split; [reflexivity|]. split; [reflexivity|].
  split; [destruct verbose; constructor|discriminate].
Qed.

Lemma side_by_side_step (c c' : config) (m : move) :
  side_by_side c -> step verbose c m = Some c' -> side_by_side c'.
Proof.
  intros (read & seen & ml & Hst & Hres & Herrs & Hml & Hmerged & Hret).
  destruct m; cbn [step].
  - destruct (waiting c) as [[|update rest]|] eqn:Hw; try discriminate.
    assert (Hst' : exists updates,
               status = Some updates /\ updates = read ++ update :: rest).
    { destruct status as [updates|].
      - destruct Hst as (rest' & E & ->). exists (read ++ rest').
        split; [reflexivity|]. congruence.
      - destruct Hst as (E & _). discriminate. }
    destruct Hst' as (updates & Es & Eu).
    assert (Hread : match status with
                    | Some updates =>
                        exists rest0, Some rest = Some rest0 /\
                                      updates = (read ++ [update]) ++ rest0
                    | None => Some rest = None /\ read ++ [update] = []
                    end).
    { rewrite Es. exists rest. rewrite <- app_assoc. auto. }
    destruct verbose eqn:Ev.
    + rewrite writers_work. intros [= <-].
      exists (read ++ [update]), seen, ml.
      cbn [waiting unread errors pending shown returned].
      split; [exact Hread|]. repeat (split; [assumption|]).
      split; [|exact Hret].
      unfold status_lines in *. rewrite Ev, map_app. cbn [map].
      apply merged_snoc_left. exact Hmerged.
    + intros [= <-]. exists (read ++ [update]), seen, ml.
      cbn [waiting unread errors pending shown returned].
      split; [exact Hread|]. repeat (split; [assumption|]).
      split; [|exact Hret].
      unfold status_lines in *. rewrite Ev. exact Hmerged.
  - destruct (returned c) eqn:Hr; [discriminate|].
    destruct (pending c) as [|[out text] more] eqn:Hp.
    + destruct (unread c) as [|result rest] eqn:Hu.
      * intros [= <-]. exists read, seen, ml.
        cbn [waiting unread errors pending shown returned].
        split; [exact Hst|]. split; [exact Hres|]. split; [exact Herrs|].
        split; [exact Hml|]. split; [exact Hmerged|].
        intros out [= <-]. rewrite app_nil_r in Hres. subst seen.
        rewrite Herrs. auto.
      * intros [= <-]. exists read, (seen ++ [result]), ml.
        cbn [waiting unread errors pending shown returned].
        split; [exact Hst|].
        split; [rewrite <- app_assoc; exact Hres|].
        split.
        { assert (E : failures [result]
                      = match err result with Some e => [e] | None => [] end)
            by (unfold failures; cbn [flat_map]; apply app_nil_r).
          rewrite failures_app, E, ?Herrs. unfold Append.
          destruct (err result); rewrite ?app_nil_r; reflexivity. }
        split.
        { rewrite flat_map_app. cbn [flat_map]. rewrite app_nil_r in *.
          rewrite Hml. reflexivity. }
        split; [exact Hmerged|discriminate].
    + rewrite writers_work. intros [= <-]. exists read, seen, (ml ++ [(out, text)]).
      cbn [waiting unread errors pending shown returned].
      split; [exact Hst|]. split; [exact Hres|]. split; [exact Herrs|].
      split; [rewrite <- app_assoc; exact Hml|].
      split; [apply merged_snoc_right; exact Hmerged|discriminate].
Qed.

Lemma side_by_side_run (ms : list move) (c c' : config) :
  side_by_side c -> run_moves verbose c ms = Some c' -> side_by_side c'.
Proof.
  revert c. induction ms as [|m ms IH]; intros c Hc; cbn [run_moves].
  - intros [= <-]. exact Hc.
  - destruct (step verbose c m) as [c1|] eqn:Hm; [|discriminate].
    apply IH. eapply side_by_side_step; eauto.
Qed.

(** X12. printExecStatus as a whole, with writers that work: the goroutine
    over status and the loop over results write side by side, in any
    interleaving of their writes.  From the moment printExecStatus has
    returned, it has read every result and returned the collected errors, as
    the loop alone would; cli.stderr holds exactly what the loop writes for
    the failed results, in order; cli.stdout holds what the loop writes for
    the successful results, in order, and, under --verbose only, merged
    into it, the updates the goroutine has read so far, each followed by a
    newline: an initial part of the updates, in order.  Without --verbose, or
    with a nil status channel, the two writers hold exactly what the loop
    writes.  Every result has its status line
    [<id>: OK|ERROR<changes><runtime>] on its writer. *)
Theorem printExecStatus_routes_output (c : config) (out : outcome) :
  (exists ms, run_moves verbose (called status results) ms = Some c) ->
  returned c = Some out ->
  out = fst (fst (printExecStatus results)) /\
  out = collected (failures results) /\
  unread c = [] /\
  on cli_stderr (shown c)
  = map snd (snd (fst (printExecStatus
                         (filter (fun r => negb (succeeded r)) results)))) /\
  (exists read,
     match status with
     | Some updates => exists rest, updates = read ++ rest
     | None => read = []
     end /\
     merged (if verbose
             then map (fun u => (u ++ newline)%string) read else [])
            (map snd (snd (fst (printExecStatus (filter succeeded results)))))
            (on cli_stdout (shown c))) /\
  (verbose = false \/ status = None ->
   shown c = snd (fst (printExecStatus results)) /\
   on cli_stdout (shown c)
   = map snd (snd (fst (printExecStatus (filter succeeded results))))) /\
  (forall r, In r results -> In (out_of r, result_line r) (shown c)).
Proof.
  intros (ms & Hms) Hout.
  destruct (side_by_side_run ms _ c side_by_side_called Hms)
    as (read & seen & ml & Hst & Hres & Herrs & Hml & Hmerged & Hret).
  destruct (Hret out Hout) as (-> & Hp & Hu).
  rewrite Hu, app_nil_r in Hres. subst seen.
  rewrite Hp, app_nil_r, flat_map_attempts in Hml. subst ml.
  unfold printExecStatus. rewrite !range_results_works. cbn [fst snd].
  rewrite !app_nil_l.
  assert (Hf : forall w (f : Result -> bool),
             (forall r, f r = writer_eqb (out_of r) w) ->
             on w (flat_map lines_of results)
             = map snd (flat_map lines_of (filter f results))).
  { intros w f Hfw. rewrite on_lines. f_equal. f_equal.
    apply filter_ext. intros r. symmetry. apply Hfw. }
  assert (Hok : on cli_stdout (flat_map lines_of results)
                = map snd (flat_map lines_of (filter succeeded results))).
  { apply Hf. intros r. unfold succeeded, out_of. destruct (err r); reflexivity. }
  assert (Hko : on cli_stderr (flat_map lines_of results)
                = map snd (flat_map lines_of
                             (filter (fun r => negb (succeeded r)) results))).
  { apply Hf. intros r. unfold succeeded, out_of. destruct (err r); reflexivity. }
  destruct (on_status_lines verbose read) as (Hso & Hse).
  split; [reflexivity|]. split; [reflexivity|]. split; [exact Hu|].
  split; [|split; [|split]].
  - pose proof (merged_on cli_stderr _ _ _ Hmerged) as H.
    rewrite Hse in H. apply merged_only_right in H. rewrite H. exact Hko.
  - exists read. split.
    + destruct status as [updates|]; [|apply Hst].
      destruct Hst as (rest & _ & E). eauto.
    + pose proof (merged_on cli_stdout _ _ _ Hmerged) as H.
      rewrite Hso, Hok in H. exact H.
  - intros Hquiet.
    assert (Hnone : status_lines verbose read = []).
    { destruct Hquiet as [->| ->]; [reflexivity|].
      destruct Hst as (_ & ->). unfold status_lines. destruct verbose; reflexivity. }
    rewrite Hnone in Hmerged. apply merged_only_right in Hmerged.
    rewrite Hmerged. split; [reflexivity|exact Hok].
  - intros r Hr. apply (merged_In_right _ _ _ _ Hmerged).
    apply in_flat_map. exists r. split; [exact Hr|].
    destruct (lines_of_shape r) as (more & ->). left. reflexivity.
Qed.

End SideBySide.

(** X13. printExecStatus on the channels of applyWithGraph, with writers
    that work.  Once results is closed, the Results the loop ranges over are
    those sent so far (later states add none), and printExecStatus returns
    nil exactly when every vertex of the graph was called and returned
    without error: no execution failed and none was skipped. *)
Theorem apply_returns_nil_iff_all_applied
    (session : Session) (boundExecutions : list boundExecution) (g : Graph)
    (s : state) :
  reachable (run_of session boundExecutions (DagApply g)) s ->
  results_closed s = true ->
  (forall s', reaches (run_of session boundExecutions (DagApply g)) s s' ->
     results_sent (trace s') = results_sent (trace s)) /\
  (fst (fst (printExecStatus (results_sent (trace s)))) = NoError <->
   forall i t, nth_error (threads s) i = Some t -> t = Finished None).
Proof.
  intros Hs Hc. split.
  - intros s' Hs'.
    destruct (trace_after_close _ s Hs Hc s' Hs') as (_ & ->). reflexivity.
  - rewrite <- (walk_results_all_ok session boundExecutions g s Hs Hc).
    unfold printExecStatus. rewrite range_results_works. cbn [fst snd app].
    generalize (results_sent (trace s)). intros results. unfold failures.
    split.
    + intros Hn res Hres. destruct (err res) as [e|] eqn:He; [|reflexivity].
      assert (Hin : In e (flat_map (fun r => match err r with
                                             | Some e => [e]
                                             | None => []
                                             end) results)).
      { apply in_flat_map. exists res. rewrite He. split; [exact Hres|].
        left. reflexivity. }
      destruct (flat_map _ results); [destruct Hin|discriminate].
    + intros Hok. induction results as [|r results IH]; [reflexivity|].
      cbn [flat_map]. rewrite (Hok r (or_introl eq_refl)). cbn [app].
      apply IH. intros res Hres. apply Hok. right. exact Hres.
Qed.
End WorkingWriters.

(** ** The goroutine over status *)

(** X14. The goroutine printExecStatus starts on the status channel.
    Without --verbose it writes nothing and reads every update.  With
    --verbose it writes the updates it has read to cli.stdout, each followed
    by a newline, in the order they arrive, and each of these writes
    succeeded; then either it has read every update, or the write of the next
    update failed: that update is lost, the goroutine ends, and the later
    ones stay in the channel. *)
Theorem range_status_reads
    (verbose : bool) (updates : list string) (l : log) :
  exists written,
    fst (range_status verbose updates l)
    = l ++ (if verbose
            then map (fun u => (cli_stdout, (u ++ newline)%string)) written
            else []) /\
    (verbose = true ->
     forall pre u post,
       written = pre ++ u :: post ->
       write_err
         (l ++ map (fun u => (cli_stdout, (u ++ newline)%string)) pre)
         cli_stdout (u ++ newline)%string = None) /\
    (updates = written /\ snd (range_status verbose updates l) = []
     \/
     exists u, updates = written ++ u :: snd (range_status verbose updates l) /\
               verbose = true /\
               write_err (fst (range_status verbose updates l)) cli_stdout
                         (u ++ newline)%string <> None).
Proof.
  destruct verbose.
  - revert l. induction updates as [|u updates IH]; intros l;
      cbn [range_status].
    + exists []. cbn [fst snd map]. rewrite app_nil_r. split; [reflexivity|].
      split; [|left; split; reflexivity].
      intros _ [|x pre] u post E; discriminate.
    + unfold Fprint.
      destruct (write_err l cli_stdout (u ++ newline)%string) as [e|] eqn:E.
      * exists []. cbn [fst snd map]. rewrite app_nil_r. split; [reflexivity|].
        split; [intros _ [|x pre] u' post E'; discriminate|].
        right. exists u. split; [reflexivity|]. split; [reflexivity|].
        rewrite E. discriminate.
      * destruct (IH (l ++ [(cli_stdout, (u ++ newline)%string)]))
          as (written & Hl & Hok & Hrest).
        exists (u :: written). cbn [map]. rewrite Hl, <- app_assoc.
        split; [reflexivity|]. split.
        -- intros _ [|x pre] u' post E'; injection E' as <- E'.
           ++ cbn [map]. rewrite app_nil_r. exact E.
           ++ cbn [map].
              rewrite (app_assoc l [_] (map _ pre) : l ++ _ :: map _ pre = _).
              apply (Hok eq_refl pre u' post E').
        -- destruct Hrest as [(Hu & Hnil)|(u' & Hu & _ & Hw)].
           ++ left. split; [f_equal; exact Hu|exact Hnil].
           ++ right. exists u'. split.
              ** rewrite <- app_comm_cons. f_equal. exact Hu.
              ** split; [reflexivity|]. rewrite Hl, <- app_assoc in Hw.
                 exact Hw.
  - exists updates. rewrite app_nil_r.
    assert (H : range_status false updates l = (l, [])).
    { induction updates as [|u updates IH]; cbn [range_status]; auto. }
    rewrite H. cbn [fst snd]. split; [reflexivity|].
    split; [discriminate|]. left. split; reflexivity.
Qed.

End PrintExecStatus.

(** ** A session at the terminal *)

(** Results that are no plans, writers that work, and stderr texts without
    formatting verbs. *)
Definition no_plan : TerraformResult -> option PlanResult := fun _ => None.
Definition unchanged_plan : TerraformResult -> option PlanResult :=
  fun _ => Some {| HasChanges := false; Changes := "" |}.
Definition unreadable : string -> string * option error := fun s => (s, None).
Definition verbatim : string -> string := fun s => s.
Definition steady : log -> writer -> string -> option error :=
  fun _ _ _ => None.

Definition users_failed : Result :=
  {| id := "users"; terraformResult := None; err := Some "exit status 1" |}.
Definition network_applied : Result :=
  {| id := "network-east1-dev";
     terraformResult := Some {| Stderr := ""; Runtime := "1s" |};
     err := None |}.

(** The line the tests of the command line look for after a plan without
    changes. *)
Example TestProjectPlanSuccessNoChanges :
  result_line unchanged_plan
    {| id := "foo"; terraformResult := Some {| Stderr := ""; Runtime := "1s" |};
       err := None |}
  = ("foo: " ++ esc ++ "[32mOK" ++ esc ++ "[0m"
     ++ esc ++ "[37m No changes" ++ esc ++ "[0m"
     ++ esc ++ "[37m (1s)" ++ esc ++ "[0m" ++ newline)%string.
Proof. reflexivity. Qed.

(** A verbose run: [users] fails, [network] is applied, and one status
    update is printed in between. *)
Lemma printExecStatus_routes_output_witness :
  exists c,
    run_moves no_plan false unreadable verbatim steady true
              (called (Some ["[users] Initializing..."])
                      [users_failed; network_applied])
              [Loop; Loop; Goroutine; Loop; Loop; Loop; Loop; Loop] = Some c /\
    returned c = Some (Errors ["exit status 1"]) /\
    on cli_stdout (shown c)
    = [("[users] Initializing..." ++ newline)%string;
       result_line no_plan network_applied; ""] /\
    on cli_stderr (shown c)
    = map snd (snd (fst (printExecStatus no_plan false unreadable verbatim
                           steady
                           (filter (fun r => negb (succeeded r))
                                   [users_failed; network_applied])))).
Proof.
  eexists. split; [vm_compute; reflexivity|]. split; [reflexivity|].
  split; [reflexivity|].
  match goal with
  | |- on cli_stderr (shown ?c) = _ =>
      destruct (printExecStatus_routes_output no_plan false unreadable
                  verbatim steady (fun _ _ _ => eq_refl) true
                  (Some ["[users] Initializing..."])
                  [users_failed; network_applied] c
                  (Errors ["exit status 1"]))
        as (_ & _ & _ & H & _)
  end.
  - exists [Loop; Loop; Goroutine; Loop; Loop; Loop; Loop; Loop].
    vm_compute. reflexivity.
  - reflexivity.
  - exact H.
Defined.

(** The walk of the demo project in which [users] fails: printExecStatus
    returns its error. *)
Lemma apply_returns_nil_iff_all_applied_witness :
  exists s,
    run_actions (run_of demo_session demo_executions (DagApply demo_graph))
                (init (run_of demo_session demo_executions (DagApply demo_graph)))
                users_fails = Some s /\
    fst (fst (printExecStatus no_plan false unreadable verbatim steady
                              (results_sent (trace s))))
    = Errors ["exit status 1"] /\
    (fst (fst (printExecStatus no_plan false unreadable verbatim steady
                               (results_sent (trace s)))) = NoError <->
     forall i t, nth_error (threads s) i = Some t -> t = Finished None).
Proof.
  eexists.
  match goal with
  | |- run_actions ?r ?s0 ?acts = Some ?s /\ _ =>
      assert (Hrun : run_actions r s0 acts = Some s) by (vm_compute; reflexivity)
  end.
  split; [exact Hrun|]. split; [reflexivity|].
  apply (apply_returns_nil_iff_all_applied no_plan false unreadable verbatim
           steady (fun _ _ _ => eq_refl) demo_session demo_executions demo_graph
           _ (ex_intro _ _ Hrun) eq_refl).
Defined.

End Display.

(* ===================================================================== *)
(** * Session repositories: NewSessionRepo, NewSession and Current *)
(* ===================================================================== *)

Module Repo.

Local Open Scope list_scope.
Local Open Scope nat_scope.

Definition error := string.

(** A Session, as NewSession makes it: its id, its directory, and the
    channel on which it asked to be notified of SIGTERM and SIGINT. *)
Record Session := {
  id : string;
  path : string;
  signalChan : nat;                       (* the capacity of the channel *)
  notify : list Sessions.Signal
}.

(** The session the runners of sessions.go work in. *)
Definition runner (s : Session) : Sessions.Session :=
  {| Sessions.path := path s |}.

Record SessionRepo := {
  repo_path : string;
  current : option Session
}.

Section World.

(** The file system, with utils.IsDirectory and os.Mkdir, and the id
    generator handed to NewSessionRepo, which has a state of its own. *)
Context {FS G : Type}.
Variable IsDirectory : FS -> string -> bool.
Variable Mkdir : FS -> string -> error + FS.
Variable generateID : G -> string * G.

Record world := { fs : FS; gen : G }.

(** NewSessionRepo creates or opens a project session repo. *)
Definition NewSessionRepo (repoPath : string) (f : FS)
  : (error + SessionRepo) * FS :=
  if negb (IsDirectory f repoPath) then
    match Mkdir f repoPath with
    | inl err => (inl err, f)
    | inr f' => (inr {| repo_path := repoPath; current := None |}, f')
    end
  else (inr {| repo_path := repoPath; current := None |}, f).

(** NewSession creates a new session in the repository. *)
Definition NewSession (r : SessionRepo) (w : world)
  : (error + Session) * world :=
  let '(i, g) := generateID (gen w) in
  let sessionPath := Tvm.Join (repo_path r) i in
  match Mkdir (fs w) sessionPath with
  | inl err => (inl err, {| fs := fs w; gen := g |})
  | inr f' =>
      (inr {| id := i; path := sessionPath; signalChan := 1;
              notify := [Sessions.SIGTERM; Sessions.SIGINT] |},
       {| fs := f'; gen := g |})
  end.

(** Current returns the last session created, or creates one if it is the
    first time it is called. *)
Definition Current (r : SessionRepo) (w : world)
  : (error + Session) * SessionRepo * world :=
  match current r with
  | Some session => (inr session, r, w)
  | None =>
      match NewSession r w with
      | (inl err, w') => (inl err, r, w')
      | (inr session, w') =>
          (inr session,
           {| repo_path := repo_path r; current := Some session |}, w')
      end
  end.

(** [n] calls of Current, one after the other. *)
Fixpoint Currents (n : nat) (r : SessionRepo) (w : world)
  : list (error + Session) * SessionRepo * world :=
  match n with
  | 0 => ([], r, w)
  | S n' =>
      let '(a, r', w') := Current r w in
      let '(rest, r'', w'') := Currents n' r' w' in
      (a :: rest, r'', w'')
  end.

(** [n] calls of NewSession, one after the other: the sessions made. *)
Fixpoint NewSessions (n : nat) (r : SessionRepo) (w : world)
  : list Session * world :=
  match n with
  | 0 => ([], w)
  | S n' =>
      match NewSession r w with
      | (inl _, w') => NewSessions n' r w'
      | (inr s, w') =>
          let '(rest, w'') := NewSessions n' r w' in (s :: rest, w'')
      end
  end.

(** X15. Current makes a session once.  After a call of Current that
    succeeded, every later call returns the same session and touches neither
    the file system nor the id generator; a call that fails (the directory
    could not be made) leaves the repository without a current session,
    although the id it drew is used up, so that the next call tries again
    with the next id. *)
Theorem Current_makes_one_session (r : SessionRepo) (w : world) :
  match Current r w with
  | (inr session, r', w') =>
      current r' = Some session /\ repo_path r' = repo_path r /\
      forall n, Currents n r' w' = (repeat (inr session) n, r', w')
  | (inl err, r', w') =>
      r' = r /\ current r = None /\ fs w' = fs w /\
      gen w' = snd (generateID (gen w)) /\
      Current r' w' = let '(a, w'') := NewSession r w' in
                      (a, match a with
                          | inr session =>
                              {| repo_path := repo_path r;
                                 current := Some session |}
                          | inl _ => r
                          end, w'')
  end.
Proof.
  unfold Current at 1. destruct (current r) as [session|] eqn:Hc.
  - split; [exact Hc|]. split; [reflexivity|].
    induction n as [|n IH]; cbn [Currents repeat]; [reflexivity|].
    unfold Current. rewrite Hc, IH. reflexivity.
  - destruct (NewSession r w) as [[err|session] w'] eqn:Hn.
    + split; [reflexivity|]. split; [reflexivity|].
      unfold NewSession in Hn.
      destruct (generateID (gen w)) as [i g].
      destruct (Mkdir (fs w) (Tvm.Join (repo_path r) i)); [|discriminate].
      injection Hn as _ <-. cbn [fs gen snd].
      split; [reflexivity|]. split; [reflexivity|].
      unfold Current. rewrite Hc.
      destruct (NewSession r _) as [[e2|s2] w'']; reflexivity.
    + cbn [current repo_path]. split; [reflexivity|]. split; [reflexivity|].
      induction n as [|n IH]; cbn [Currents repeat]; [reflexivity|].
      unfold Current at 1. cbn [current]. rewrite IH. reflexivity.
Qed.

Section Directories.
(** os.Mkdir refuses a path that is a directory already, and making a
    directory makes it one and leaves the others in place. *)
Hypothesis Mkdir_fresh :
  forall f p f', Mkdir f p = inr f' -> IsDirectory f p = false.
Hypothesis Mkdir_makes :
  forall f p f', Mkdir f p = inr f' ->
    IsDirectory f' p = true /\
    forall q, IsDirectory f q = true -> IsDirectory f' q = true.

Lemma NewSessions_fresh (n : nat) (r : SessionRepo) (w : world) :
  NoDup (map path (fst (NewSessions n r w))) /\
  (forall s, In s (fst (NewSessions n r w)) ->
     IsDirectory (fs w) (path s) = false /\
     IsDirectory (fs (snd (NewSessions n r w))) (path s) = true /\
     path s = Tvm.Join (repo_path r) (id s)) /\
  (forall q, IsDirectory (fs w) q = true ->
             IsDirectory (fs (snd (NewSessions n r w))) q = true).
Proof.
  revert w. induction n as [|n IH]; intros w; cbn [NewSessions].
  - cbn [fst snd map]. split; [constructor|]. split; [intros s []|auto].
  - unfold NewSession.
    destruct (generateID (gen w)) as [i g].
    destruct (Mkdir (fs w) (Tvm.Join (repo_path r) i)) as [err|f'] eqn:Hm.
    + destruct (IH {| fs := fs w; gen := g |}) as (H1 & H2 & H3).
      cbn [fs] in *. auto.
    + destruct (IH {| fs := f'; gen := g |}) as (H1 & H2 & H3).
      destruct (NewSessions n r {| fs := f'; gen := g |}) as [rest w''].
      cbn [fst snd map fs path] in *.
      pose proof (Mkdir_fresh _ _ _ Hm) as Hfresh.
      destruct (Mkdir_makes _ _ _ Hm) as (Hmade & Hkept).
      split; [|split].
      * constructor; [|exact H1]. intros Hin.
        apply in_map_iff in Hin as (s & Hp & Hs).
        destruct (H2 s Hs) as (Hnot & _). rewrite Hp, Hmade in Hnot.
        discriminate.
      * intros s [<-|Hs]; cbn [path id].
        -- split; [exact Hfresh|]. split; [apply H3; exact Hmade|reflexivity].
        -- destruct (H2 s Hs) as (Hnot & Hdir & Hp).
           split; [|split; [exact Hdir|exact Hp]].
           destruct (IsDirectory (fs w) (path s)) eqn:E; [|reflexivity].
           rewrite (Hkept _ E) in Hnot. discriminate.
      * intros q Hq. apply H3, Hkept, Hq.
Qed.

(** X16. Every session gets a directory of its own.  Whatever ids the
    generator draws (it may repeat itself), the sessions NewSession makes in a
    repository sit in pairwise different directories, each
    [filepath.Join(<repository path>, <id>)], none of which existed before
    and all of which exist afterwards; a call that draws the id of an
    existing directory fails instead of sharing it. *)
Theorem sessions_get_fresh_directories
    (n : nat) (r : SessionRepo) (w : world) :
  NoDup (map path (fst (NewSessions n r w))) /\
  (forall s, In s (fst (NewSessions n r w)) ->
     IsDirectory (fs w) (path s) = false /\
     IsDirectory (fs (snd (NewSessions n r w))) (path s) = true /\
     path s = Tvm.Join (repo_path r) (id s)) /\
  (forall i g,
     generateID (gen w) = (i, g) ->
     IsDirectory (fs w) (Tvm.Join (repo_path r) i) = true ->
     exists err, NewSession r w = (inl err, {| fs := fs w; gen := g |})).
Proof.
  destruct (NewSessions_fresh n r w) as (H1 & H2 & _).
  split; [exact H1|]. split; [exact H2|].
  intros i g Hg Hdir. unfold NewSession. rewrite Hg.
  destruct (Mkdir (fs w) (Tvm.Join (repo_path r) i)) as [err|f'] eqn:Hm;
    [eauto|].
  rewrite (Mkdir_fresh _ _ _ Hm) in Hdir. discriminate.
Qed.

(** X17. NewSessionRepo hands back a repository whose directory exists.
    When it succeeds, the repository has the path it was given and no current
    session, its directory exists (it was there already, and then the file
    system is left as it was, or it has just been made), and no session made
    in the repository afterwards takes the repository directory itself as
    its own. *)
Theorem repository_directory_exists
    (repoPath : string) (f f' : FS) (r : SessionRepo) :
  NewSessionRepo repoPath f = (inr r, f') ->
  repo_path r = repoPath /\ current r = None /\
  IsDirectory f' repoPath = true /\
  (IsDirectory f repoPath = true -> f' = f) /\
  forall n g s,
    In s (fst (NewSessions n r {| fs := f'; gen := g |})) ->
    path s <> repoPath.
Proof.
  unfold NewSessionRepo. intros H.
  assert (Hr : repo_path r = repoPath /\ current r = None /\
               IsDirectory f' repoPath = true /\
               (IsDirectory f repoPath = true -> f' = f)).
  { destruct (IsDirectory f repoPath) eqn:Hd; cbn [negb] in H.
    - injection H as <- <-. auto.
    - destruct (Mkdir f repoPath) as [err|f2] eqn:Hm; [discriminate|].
      injection H as <- <-. destruct (Mkdir_makes _ _ _ Hm) as (Hmade & _).
      repeat split; auto. discriminate. }
  destruct Hr as (H1 & H2 & H3 & H4). repeat split; auto.
  intros n g s Hs Hp.
  destruct (NewSessions_fresh n r {| fs := f'; gen := g |}) as (_ & Hf & _).
  destruct (Hf s Hs) as (Hnot & _). cbn [fs] in Hnot.
  rewrite Hp, H3 in Hnot. discriminate.
Qed.
End Directories.

End World.

(** ** A small world *)

(** A file system that knows directories only, and a generator that hands
    out the ids of a list. *)
Definition dirs := list string.
Definition is_dir (f : dirs) (p : string) : bool :=
  existsb (String.eqb p) f.
Definition mkdir (f : dirs) (p : string) : error + dirs :=
  if is_dir f p then inl ("mkdir " ++ p ++ ": file exists")%string
  else inr (p :: f).
Definition next_id (g : list string) : string * list string :=
  match g with
  | i :: rest => (i, rest)
  | [] => ("", [])
  end.

Definition astro_repo : SessionRepo :=
  {| repo_path := "/repo/.astro"; current := None |}.
Definition start : @world dirs (list string) :=
  {| fs := ["/repo/.astro"; "/repo"]; gen := ["01A"; "01A"; "01B"] |}.

(** Three calls of Current: one session, one directory, one id drawn. *)
Example Current_three_times :
  Currents mkdir next_id 3 astro_repo start
  = (repeat (inr {| id := "01A"; path := "/repo/.astro/01A"; signalChan := 1;
                    notify := [Sessions.SIGTERM; Sessions.SIGINT] |}) 3,
     {| repo_path := "/repo/.astro";
        current := Some {| id := "01A"; path := "/repo/.astro/01A";
                           signalChan := 1;
                           notify := [Sessions.SIGTERM; Sessions.SIGINT] |} |},
     {| fs := ["/repo/.astro/01A"; "/repo/.astro"; "/repo"];
        gen := ["01A"; "01B"] |}).
Proof. reflexivity. Qed.

Lemma mkdir_fresh (f : dirs) (p : string) (f' : dirs) :
  mkdir f p = inr f' -> is_dir f p = false.
Proof.
  unfold mkdir. destruct (is_dir f p); [discriminate|reflexivity].
Defined.

Lemma mkdir_makes (f : dirs) (p : string) (f' : dirs) :
  mkdir f p = inr f' ->
  is_dir f' p = true /\ forall q, is_dir f q = true -> is_dir f' q = true.
Proof.
  unfold mkdir. destruct (is_dir f p) eqn:E; [discriminate|].
  intros [= <-]. unfold is_dir. cbn [existsb]. rewrite String.eqb_refl.
  split; [reflexivity|]. intros q Hq. unfold is_dir in Hq. rewrite Hq.
  apply orb_true_r.
Defined.

Lemma sessions_get_fresh_directories_witness :
  map path (fst (NewSessions mkdir next_id 3 astro_repo start))
  = ["/repo/.astro/01A"; "/repo/.astro/01B"] /\
  NoDup (map path (fst (NewSessions mkdir next_id 3 astro_repo start))).
Proof.
  split; [reflexivity|].
  apply (sessions_get_fresh_directories is_dir mkdir next_id
           mkdir_fresh mkdir_makes).
Defined.

Lemma repository_directory_exists_witness :
  NewSessionRepo is_dir mkdir "/repo/.astro" ["/repo"]
  = (inr astro_repo, ["/repo/.astro"; "/repo"]) /\
  is_dir ["/repo/.astro"; "/repo"] "/repo/.astro" = true.
Proof.
  split; [reflexivity|].
  apply (repository_directory_exists is_dir mkdir next_id
           mkdir_fresh mkdir_makes "/repo/.astro" ["/repo"]
           ["/repo/.astro"; "/repo"] astro_repo eq_refl).
Defined.

End Repo.

(* ===================================================================== *)
(** * The helpers of the tests: testReadResults and testResultErrs *)
(* ===================================================================== *)

Module Tests.
Import Sessions.

Local Open Scope list_scope.

(** A Go map with string keys: its entries, no key twice. *)
Definition Map (V : Type) : Type := list (string * V).

Fixpoint lookup {V : Type} (k : string) (m : Map V) : option V :=
  match m with
  | [] => None
  | (k', v) :: m' => if (k =? k')%string then Some v else lookup k m'
  end.

(** m[k] = v *)
Fixpoint store {V : Type} (k : string) (v : V) (m : Map V) : Map V :=
  match m with
  | [] => [(k, v)]
  | (k', v') :: m' =>
      if (k =? k')%string then (k, v) :: m' else (k', v') :: store k v m'
  end.

(** testReadResults reads all results from the channel ([results] is what
    it yields until it is closed) and returns them as a map, indexed by
    execution ID. *)
Definition testReadResults (resultChan : list Result) : Map Result :=
  fold_left (fun ret result => store (id result) result ret) resultChan [].

(** testResultErrs returns a map of the results and whether each one is an
    error.  Go ranges over a map in an order of its own choosing: [order] is
    the order in which the entries of [results] come up. *)
Definition testResultErrs (order : list (string * Result))
  : Map (option error) :=
  fold_left (fun errors e => store (fst e) (err (snd e)) errors) order [].

Definition keys {V : Type} (m : Map V) : list string := map fst m.

Lemma lookup_store {V : Type} (k k' : string) (v : V) (m : Map V) :
  lookup k (store k' v m)
  = if (k =? k')%string then Some v else lookup k m.
Proof.
  induction m as [|[k2 v2] m IH]; cbn [store lookup]; [reflexivity|].
  destruct (String.eqb_spec k' k2) as [->|Hne]; cbn [lookup].
  - destruct (k =? k2)%string; reflexivity.
  - rewrite IH. destruct (String.eqb_spec k k') as [->|Hne'].
    + apply String.eqb_neq in Hne. rewrite Hne. reflexivity.
    + reflexivity.
Qed.

Lemma keys_store {V : Type} (k : string) (v : V) (m : Map V) :
  NoDup (keys m) ->
  NoDup (keys (store k v m)) /\
  forall x, In x (keys (store k v m)) <-> x = k \/ In x (keys m).
Proof.
  unfold keys. induction m as [|[k2 v2] m IH]; cbn [store map fst]; intros Hm.
  - split; [repeat constructor; intros []|]. intros x. cbn. intuition.
  - inversion Hm as [|? ? Hnot Hm']; subst.
    destruct (String.eqb_spec k k2) as [->|Hne]; cbn [map fst].
    + split; [exact Hm|]. intros x. cbn. intuition.
    + destruct (IH Hm') as (Hnd & Hin). split.
      * constructor; [|exact Hnd]. intros H. apply Hin in H as [H|H]; auto.
      * intros x. cbn [In]. rewrite Hin. intuition.
Qed.

Lemma find_snoc {A : Type} (f : A -> bool) (l : list A) (x : A) :
  find f (l ++ [x])
  = match find f l with
    | Some y => Some y
    | None => if f x then Some x else None
    end.
Proof.
  induction l as [|y l IH]; simpl; [reflexivity|].
  destruct (f y); [reflexivity|exact IH].
Qed.

Lemma testReadResults_from (resultChan : list Result) (m : Map Result)
      (i : string) :
  NoDup (keys m) ->
  NoDup (keys (fold_left (fun ret result => store (id result) result ret)
                         resultChan m)) /\
  lookup i (fold_left (fun ret result => store (id result) result ret)
                      resultChan m)
  = match find (fun r => (id r =? i)%string) (rev resultChan) with
    | Some r => Some r
    | None => lookup i m
    end.
Proof.
  revert m. induction resultChan as [|r rs IH]; intros m Hm;
    cbn [fold_left rev]; [auto|].
  destruct (keys_store (id r) r m Hm) as (Hnd & _).
  destruct (IH (store (id r) r m) Hnd) as (H1 & H2).
  split; [exact H1|]. rewrite H2, find_snoc.
  destruct (find _ (rev rs)); [reflexivity|].
  rewrite lookup_store, String.eqb_sym.
  destruct (id r =? i)%string; reflexivity.
Qed.

Lemma lookup_In {V : Type} (m : Map V) (k : string) (v : V) :
  NoDup (keys m) -> (lookup k m = Some v <-> In (k, v) m).
Proof.
  unfold keys. induction m as [|[k2 v2] m IH]; cbn [lookup map fst In];
    intros Hm.
  - split; [discriminate|intros []].
  - inversion Hm as [|? ? Hnot Hm']; subst.
    destruct (String.eqb_spec k k2) as [->|Hne].
    + split.
      * intros [= ->]. left. reflexivity.
      * intros [[= ->]|Hin]; [reflexivity|].
        exfalso. apply Hnot. apply in_map_iff. exists (k2, v). auto.
    + rewrite (IH Hm'). split; [auto|].
      intros [[= -> _]|Hin]; [congruence|exact Hin].
Qed.

Lemma testResultErrs_from (order : list (string * Result))
      (acc : Map (option error)) (i : string) :
  NoDup (keys order) ->
  lookup i (fold_left (fun errors e => store (fst e) (err (snd e)) errors)
                      order acc)
  = match lookup i order with
    | Some r => Some (err r)
    | None => lookup i acc
    end.
Proof.
  unfold keys. revert acc.
  induction order as [|[k r] order IH]; intros acc Hnd;
    cbn [fold_left lookup map fst snd]; [reflexivity|].
  inversion Hnd as [|? ? Hnot Hnd']; subst. rewrite (IH _ Hnd').
  destruct (String.eqb_spec i k) as [->|Hne].
  - destruct (lookup k order) as [r'|] eqn:E.
    + exfalso. apply Hnot. apply (lookup_In order k r' Hnd') in E.
      apply in_map_iff. exists (k, r'). auto.
    + rewrite lookup_store, String.eqb_refl. reflexivity.
  - rewrite lookup_store. apply String.eqb_neq in Hne. rewrite Hne.
    reflexivity.
Qed.

(** X18. testResultErrs(testReadResults(ch)) maps an id to the error of the
    last Result that came with this id, and holds no entry for an id that
    never came; this does not depend on the order in which Go ranges over the
    map of results.  So a test that reads the map sees, for every execution
    id, what the one Result of that execution said, as long as no two
    executions share an id. *)
Theorem testResultErrs_of_last_result
    (resultChan : list Result) (order : list (string * Result)) (i : string) :
  Permutation order (testReadResults resultChan) ->
  lookup i (testResultErrs order)
  = option_map err (find (fun r => (id r =? i)%string) (rev resultChan)) /\
  (lookup i (testResultErrs order) = None <->
   forall r, In r resultChan -> id r <> i).
Proof.
  intros Hperm.
  destruct (testReadResults_from resultChan [] i (NoDup_nil _)) as (Hnd & Hl).
  fold (testReadResults resultChan) in Hnd, Hl. cbn [lookup] in Hl.
  set (m := testReadResults resultChan) in *.
  assert (Hl' : lookup i m
                = find (fun r => (id r =? i)%string) (rev resultChan))
    by (rewrite Hl; destruct (find _ _); reflexivity).
  clear Hl.
  assert (Hnd' : NoDup (keys order)).
  { unfold keys in *. eapply Permutation_NoDup; [|exact Hnd].
    apply Permutation_map. apply Permutation_sym. exact Hperm. }
  assert (Hsame : lookup i order
                  = find (fun r => (id r =? i)%string) (rev resultChan)).
  { rewrite <- Hl'.
    destruct (lookup i m) as [r|] eqn:E.
    - apply (lookup_In _ _ _ Hnd) in E. apply (lookup_In _ _ _ Hnd').
      eapply Permutation_in; [apply Permutation_sym; exact Hperm|exact E].
    - destruct (lookup i order) as [r|] eqn:E'; [|reflexivity].
      apply (lookup_In _ _ _ Hnd') in E'.
      apply (Permutation_in _ Hperm) in E'.
      apply (lookup_In _ _ _ Hnd) in E'. congruence. }
  assert (Hres : lookup i (testResultErrs order)
                 = option_map err
                     (find (fun r => (id r =? i)%string) (rev resultChan))).
  { unfold testResultErrs. rewrite (testResultErrs_from order [] i Hnd'), Hsame.
    destruct (find _ _); reflexivity. }
  split; [exact Hres|]. rewrite Hres. split.
  - intros Hn r Hr Hid.
    destruct (find (fun r => (id r =? i)%string) (rev resultChan)) eqn:E;
      [discriminate|].
    assert (Hf : (id r =? i)%string = false).
    { apply (find_none _ _ E r). apply in_rev. rewrite rev_involutive.
      exact Hr. }
    apply String.eqb_neq in Hf. contradiction.
  - intros Hall.
    destruct (find (fun r => (id r =? i)%string) (rev resultChan)) as [r|] eqn:E;
      [|reflexivity].
    apply find_some in E as (Hin & Hid). apply String.eqb_eq in Hid.
    apply in_rev in Hin. destruct (Hall r Hin Hid).
Qed.

(** TestApplyFailModule in small: the map of the two Results the walk of the
    demo project delivers when [users] fails. *)
Lemma testResultErrs_of_last_result_witness :
  lookup "users"
         (testResultErrs
            (rev (testReadResults [Display.users_failed;
                                   Display.network_applied])))
  = Some (Some "exit status 1") /\
  (lookup "app-east1-dev"
          (testResultErrs
             (rev (testReadResults [Display.users_failed;
                                    Display.network_applied]))) = None <->
   forall r, In r [Display.users_failed; Display.network_applied] ->
             id r <> "app-east1-dev").
Proof.
  split; [reflexivity|].
  apply (testResultErrs_of_last_result
           [Display.users_failed; Display.network_applied]
           (rev (testReadResults [Display.users_failed;
                                  Display.network_applied]))
           "app-east1-dev").
  apply Permutation_sym, Permutation_rev.
Defined.

End Tests.
